(** * Active-series tracker (pkg/ingester/activeseries): a sequential model

    The tracker keeps, per tenant, the last observation time of every series,
    spread over 512 stripes.  This file embeds the Go code of
    [active_series.go] as Rocq functions and proves the properties the design
    document states about it.

    Conventions of the embedding.
    - A Go run-time panic (index out of range, slice bounds out of range) is
      the result [None]; every function that can index a slice returns an
      [option].
    - Locks are not modelled: every method body runs atomically, one call
      after the other.  An atomic cell is then a plain value, and a
      compare-and-swap is the function [CAS] below.
    - [int64] timestamps are integers in [Z]; the only place where the code
      produces one is [Time.UnixNano], which wraps.  The [int] counters count
      entries held in memory and are kept in [Z] without wrap-around.
    - The clock [c.now] is an input: each method that reads it takes the
      reading as an argument. *)

From Stdlib Require Import ZArith Lia.
From stdpp Require Import base numbers option list gmap strings fin_maps.

Local Open Scope Z_scope.

(** ** 64-bit integers *)

Definition MaxInt64 : Z := 9223372036854775807.
Definition MinInt64 : Z := -9223372036854775808.

(** Two's-complement reduction of an integer to [int64]. *)
Definition wrap64 (z : Z) : Z := (z + 2 ^ 63) `mod` 2 ^ 64 - 2 ^ 63.

(** ** The part of package [time] the tracker uses

    An instant is the number of nanoseconds since the Unix epoch, a
    duration a number of nanoseconds.  The wall clock and the monotonic
    reading that a [time.Time] can carry are one time line here, and [Add]
    is exact. *)
Module time.
Abbreviation Time := Z (only parsing).
Abbreviation Duration := Z (only parsing).

(** The zero value of [time.Time]: January 1, year 1, 00:00 UTC. *)
Definition zero : Time := -62135596800000000000.

(** [t.UnixNano()] computes in [int64]. *)
Definition UnixNano (t : Time) : Z := wrap64 t.

(** [-d] on a [Duration], which is an [int64]. *)
Definition neg (d : Duration) : Duration := wrap64 (- d).

(** [t.Add(d)]. *)
Definition Add (t : Time) (d : Duration) : Time := t + d.

(** [t.After(u)]. *)
Definition After (t u : Time) : bool := bool_decide (u < t).
End time.

(** ** Atomic cells, run sequentially *)

(** [cell.CAS(old, new)]: the new content of the cell and the success flag. *)
Definition CAS (cell old new : Z) : Z * bool :=
  if decide (cell = old) then (new, true) else (cell, false).

(** ** Loops that can panic *)

Fixpoint forEach {A B : Type} (f : B → A → option A) (l : list B) (a : A)
  : option A :=
  match l with
  | [] => Some a
  | x :: l' => a' ← f x a; forEach f l' a'
  end.

(** ** Go [[]int] slices over a heap of arrays

    A slice is a pointer to its backing array, a length and a capacity.
    Every slice of this program starts at the first cell of its array (they
    come from [make] and from [prev[:l]]), so no offset is kept.  Lengths are
    natural numbers and the heap has room for every array: [make] always
    returns, and [l * 2] is computed without wrap-around. *)
Module mem.
Record slice := mk { arr : option nat; len : nat; cap : nat }.

Abbreviation heap := (gmap nat (list Z)) (only parsing).

Definition nil : slice := mk None 0 0.

(** [make([]int, l, c)]: a fresh zeroed array of [c] cells. *)
Definition make (l c : nat) (h : heap) : slice * heap :=
  let a := fresh (dom h) in
  (mk (Some a) l c, <[a := replicate c 0]> h).

(** [s[:l]]. *)
Definition upto (s : slice) (l : nat) : option slice :=
  if decide (l ≤ cap s)%nat then Some (mk (arr s) l (cap s)) else None.

(** [s[i] = v]. *)
Definition set (s : slice) (i : nat) (v : Z) (h : heap) : option heap :=
  if decide (i < len s)%nat
  then a ← arr s; cells ← h !! a; Some (<[a := <[i := v]> cells]> h)
  else None.

(** The elements [s[0] .. s[len-1]]. *)
Definition elems (s : slice) (h : heap) : option (list Z) :=
  match arr s with
  | None => Some []
  | Some a => take (len s) <$> h !! a
  end.

(** [for i := 0; i < l; i++ { p[i] = 0 }], with [n] the iterations left. *)
Fixpoint clearLoop (n i : nat) (p : slice) (h : heap) : option heap :=
  match n with
  | O => Some h
  | S n' => h' ← set p i 0 h; clearLoop n' (S i) p h'
  end.

Definition resizeAndClear (l : nat) (prev : slice) (h : heap)
  : option (slice * heap) :=
  if decide (cap prev < l)%nat then
    if decide (l = 0)%nat then Some (nil, h)
    else Some (make l (l * 2) h)
  else
    p ← upto prev l;
    h' ← clearLoop l 0 p h;
    Some (p, h').

(** A slice is well formed in a heap when its array is allocated and has
    [cap] cells, of which the first [len] are visible. *)
Definition valid (s : slice) (h : heap) : Prop :=
  (len s ≤ cap s)%nat ∧
  match arr s with
  | None => cap s = 0%nat
  | Some a => ∃ cells, h !! a = Some cells ∧ length cells = cap s
  end.
End mem.

(** ** Slices held by a single owner

    The counter slices of the tracker are never shared: each stripe holds its
    own [activeMatching], and [Active] builds a new vector for every call.
    Such a slice is kept together with its backing array: [vals] are the
    visible elements, [room] the cells between the length and the capacity. *)
Module slice.
Record t := mk { vals : list Z; room : list Z }.

Definition nil : t := mk [] [].
Definition len (s : t) : nat := length (vals s).
Definition cap (s : t) : nat := (length (vals s) + length (room s))%nat.

(** [s[i]]. *)
Definition get (s : t) (i : nat) : option Z := vals s !! i.

(** [s[i] = v]. *)
Definition set (s : t) (i : nat) (v : Z) : option t :=
  if decide (i < len s)%nat then Some (mk (<[i := v]> (vals s)) (room s))
  else None.

(** The slice as a pointer into a heap that holds its array and nothing
    else; a slice without cells is the nil slice. *)
Definition place (s : t) : mem.slice * gmap nat (list Z) :=
  if decide (cap s = 0)%nat then (mem.nil, ∅)
  else (mem.mk (Some 0%nat) (len s) (cap s), {[ 0%nat := vals s ++ room s ]}).

(** Back from a pointer and a heap. *)
Definition fetch (p : mem.slice) (h : gmap nat (list Z)) : option t :=
  match mem.arr p with
  | None => Some nil
  | Some a =>
      cells ← h !! a;
      Some (mk (take (mem.len p) cells) (drop (mem.len p) cells))
  end.
End slice.

(** [resizeAndClear] on a slice that the caller owns. *)
Definition resizeAndClear (l : nat) (prev : slice.t) : option slice.t :=
  let '(p, h) := slice.place prev in
  '(r, h') ← mem.resizeAndClear l p h;
  slice.fetch r h'.

(** ** Labels and matchers *)

(** [labels.Labels]: a list of name/value pairs; [labels.Equal] is
    structural equality. *)
Abbreviation Labels := (list (string * string)) (only parsing).

(** Modelled from the spec: the [Matchers] type is declared outside these
    sources.  It gives an ordered list of matcher names and, for a label set,
    one boolean per matcher, in the same order and of the same length.  A
    matcher set is kept as the list of its named predicates. *)
Abbreviation Matchers := (list (string * (Labels → bool))) (only parsing).

Definition MatcherNames (m : Matchers) : list string := m.*1.

Definition Matches (m : Matchers) (series : Labels) : list bool :=
  (λ p, p.2 series) <$> m.

(** ** Entries *)

(** [nanos] is a pointer to an atomic cell in the source; the cell is
    created with its entry and reachable only through it, so the entry holds
    its content. *)
Record activeSeriesEntry := mkEntry {
  lbs : Labels;
  nanos : Z;
  matches : list bool
}.

(** The first entry of a chain whose labels are equal to [series], as its
    index in the chain. *)
Fixpoint lookupLabels (series : Labels) (entries : list activeSeriesEntry)
  : option nat :=
  match entries with
  | [] => None
  | entry :: rest =>
      if decide (lbs entry = series) then Some 0%nat
      else S <$> lookupLabels series rest
  end.

(** [for i, ok := range ms { if ok { counters[i]++ } }], from index [i]. *)
Fixpoint addMatches (i : nat) (ms : list bool) (counters : slice.t)
  : option slice.t :=
  match ms with
  | [] => Some counters
  | ok :: ms' =>
      if ok then
        a ← slice.get counters i;
        counters' ← slice.set counters i (a + 1);
        addMatches (S i) ms' counters'
      else addMatches (S i) ms' counters
  end.

(** ** Stripes *)
Module Stripe.

Record activeSeriesStripe := mk {
  matchers : Matchers;
  oldestEntryTs : Z;
  refs : gmap N (list activeSeriesEntry);
  active : Z;
  activeMatching : slice.t
}.

(** [s.refs[fp]]: a missing key reads as the empty chain. *)
Definition chain (s : activeSeriesStripe) (fp : N) : list activeSeriesEntry :=
  default [] (refs s !! fp).

(** The cell of an entry is addressed by the fingerprint and the index of
    the entry in its chain. *)
Definition load (s : activeSeriesStripe) (fp : N) (e : nat) : option Z :=
  nanos <$> chain s fp !! e.

Definition cas (s : activeSeriesStripe) (fp : N) (e : nat) (old new : Z)
  : option (activeSeriesStripe * bool) :=
  entry ← chain s fp !! e;
  let '(v, ok) := CAS (nanos entry) old new in
  if ok then
    Some (mk (matchers s) (oldestEntryTs s)
            (<[fp := <[e := mkEntry (lbs entry) v (matches entry)]> (chain s fp)]>
               (refs s))
            (active s) (activeMatching s), true)
  else Some (s, false).

Definition getTotalAndUpdateMatching (s : activeSeriesStripe)
  (matching : slice.t) : option (Z * slice.t) :=
  matching' ←
    forEach (λ (ia : nat * Z) (m : slice.t),
               v ← slice.get m ia.1; slice.set m ia.1 (v + ia.2))
      (imap (λ i a, (i, a)) (slice.vals (activeMatching s))) matching;
  Some (active s, matching').

Definition findEntryForSeries (fingerprint : N) (series : Labels)
  (s : activeSeriesStripe) : option nat :=
  lookupLabels series (chain s fingerprint).

Definition findOrCreateEntryForSeries (fingerprint : N) (series : Labels)
  (nowNanos : Z) (labelsCopy : Labels → Labels) (s : activeSeriesStripe)
  : option (activeSeriesStripe * nat * bool) :=
  match lookupLabels series (chain s fingerprint) with
  | Some e => Some (s, e, false)
  | None =>
      let ms := Matches (matchers s) series in
      counters ← addMatches 0 ms (activeMatching s);
      let e := mkEntry (labelsCopy series) nowNanos ms in
      Some (mk (matchers s) (oldestEntryTs s)
              (<[fingerprint := chain s fingerprint ++ [e]]> (refs s))
              (active s + 1) counters,
            length (chain s fingerprint), true)
  end.

Definition updateSeriesTimestamp (now : time.Time) (series : Labels)
  (fingerprint : N) (labelsCopy : Labels → Labels) (s : activeSeriesStripe)
  : option activeSeriesStripe :=
  let nowNanos := time.UnixNano now in
  found ←
    match findEntryForSeries fingerprint series s with
    | Some e => Some (s, e, false)
    | None => findOrCreateEntryForSeries fingerprint series nowNanos labelsCopy s
    end;
  let '(s1, e, entryTimeSet) := found in
  set ←
    (if (entryTimeSet : bool) then Some (s1, true)
     else
       prev ← load s1 fingerprint e;
       if decide (prev < nowNanos) then cas s1 fingerprint e prev nowNanos
       else Some (s1, false));
  let '(s2, entryTimeSet) := set in
  if (entryTimeSet : bool) then
    let prevOldest := oldestEntryTs s2 in
    if decide (nowNanos < prevOldest) then
      (* the CAS on the value just loaded succeeds, the loop ends *)
      Some (mk (matchers s2) (CAS (oldestEntryTs s2) prevOldest 0).1 (refs s2)
              (active s2) (activeMatching s2))
    else Some s2
  else Some s2.

Definition reinitialize (asm : Matchers) (s : activeSeriesStripe)
  : option activeSeriesStripe :=
  counters ← resizeAndClear (length (MatcherNames asm)) (activeMatching s);
  Some (mk asm 0 ∅ 0 counters).

(** The loop state of [purge]: the map being edited and the three
    accumulators. *)
Record purgeState := mkPurge {
  p_refs : gmap N (list activeSeriesEntry);
  p_active : Z;
  p_matching : slice.t;
  p_oldest : Z
}.

(** The filter loop over a collision chain,
    [for i := 0; i < len(entries); { ... }]: an entry older than the cut-off
    is cut out of the slice, the others are stepped over.  Each iteration
    shortens the slice or advances [i], so [len(entries) - i] iterations are
    enough. *)
Fixpoint purgeChain (fuel : nat) (keepUntilNanos : Z) (i : nat)
  (entries : list activeSeriesEntry) (oldest : Z)
  : list activeSeriesEntry * Z :=
  match fuel with
  | O => (entries, oldest)
  | S fuel' =>
      match entries !! i with
      | None => (entries, oldest)
      | Some entry =>
          let ts := nanos entry in
          if decide (ts < keepUntilNanos) then
            purgeChain fuel' keepUntilNanos i
              (take i entries ++ drop (S i) entries) oldest
          else
            purgeChain fuel' keepUntilNanos (S i) entries
              (if decide (ts < oldest) then ts else oldest)
      end
  end.

(** One iteration of [for fp, entries := range s.refs].  The loop variable
    [entries] shares its array with the slice stored in the map, and the
    filter loop moves entries inside that array; the iteration ends by
    deleting the key or storing the filtered slice, so the map never shows
    the intermediate content and the chain is edited as a value. *)
Definition purgeStep (keepUntilNanos : Z)
  (kv : N * list activeSeriesEntry) (st : purgeState) : option purgeState :=
  let '(fp, entries) := kv in
  if decide (length entries = 1%nat) then
    entry ← entries !! 0%nat;
    let ts := nanos entry in
    if decide (ts < keepUntilNanos) then
      Some (mkPurge (delete fp (p_refs st)) (p_active st) (p_matching st)
              (p_oldest st))
    else
      counters ← addMatches 0 (matches entry) (p_matching st);
      Some (mkPurge (p_refs st) (p_active st + 1) counters
              (if decide (ts < p_oldest st) then ts else p_oldest st))
  else
    let '(entries', oldest) :=
      purgeChain (length entries) keepUntilNanos 0 entries (p_oldest st) in
    let cnt := length entries' in
    if decide (cnt = 0%nat) then
      Some (mkPurge (delete fp (p_refs st)) (p_active st) (p_matching st)
              oldest)
    else
      counters ←
        forEach (λ entry c, addMatches 0 (matches entry) c) entries'
          (p_matching st);
      Some (mkPurge (<[fp := entries']> (p_refs st))
              (p_active st + Z.of_nat cnt) counters oldest).

(** The part of [purge] that runs under the lock.  Go ranges over the map
    in an unspecified order; [order] is the order of one run. *)
Definition purgeLocked (order : list (N * list activeSeriesEntry))
  (keepUntilNanos : Z) (s : activeSeriesStripe) : option activeSeriesStripe :=
  counters ← resizeAndClear (slice.len (activeMatching s)) (activeMatching s);
  st ← forEach (purgeStep keepUntilNanos) order
         (mkPurge (refs s) 0 counters MaxInt64);
  Some (mk (matchers s)
          (if decide (p_oldest st = MaxInt64) then 0 else p_oldest st)
          (p_refs st) (p_active st) (p_matching st)).

(** The test of the shortcut at the head of [purge]. *)
Definition nothingToDo (keepUntilNanos : Z) (s : activeSeriesStripe) : bool :=
  bool_decide (0 < oldestEntryTs s) && bool_decide (keepUntilNanos ≤ oldestEntryTs s).

Definition purge (keepUntil : time.Time) (s : activeSeriesStripe)
  : option activeSeriesStripe :=
  let keepUntilNanos := time.UnixNano keepUntil in
  if nothingToDo keepUntilNanos s then Some s
  else purgeLocked (map_to_list (refs s)) keepUntilNanos s.

End Stripe.

(** ** The tracker *)

Definition numActiveSeriesStripes : nat := 512.

Record ActiveSeries := mkActiveSeries {
  stripes : list Stripe.activeSeriesStripe;
  matchers : Matchers;
  lastMatchersUpdate : time.Time;
  timeout : time.Duration
}.

Fixpoint newStripes (n : nat) (asm : Matchers)
  : option (list Stripe.activeSeriesStripe) :=
  match n with
  | O => Some []
  | S n' =>
      counters ← resizeAndClear (length (MatcherNames asm)) slice.nil;
      rest ← newStripes n' asm;
      Some (Stripe.mk asm 0 ∅ 0 counters :: rest)
  end.

Definition NewActiveSeries (asm : Matchers) (idleTimeout : time.Duration)
  : option ActiveSeries :=
  ss ← newStripes numActiveSeriesStripes asm;
  Some (mkActiveSeries ss asm time.zero idleTimeout).

Definition ReloadMatchers (asm : Matchers) (clock : time.Time)
  (c : ActiveSeries) : option ActiveSeries :=
  ss ← mapM (Stripe.reinitialize asm) (stripes c);
  Some (mkActiveSeries ss asm clock (timeout c)).

Definition purge (keepUntil : time.Time) (c : ActiveSeries)
  : option ActiveSeries :=
  ss ← mapM (Stripe.purge keepUntil) (stripes c);
  Some (mkActiveSeries ss (matchers c) (lastMatchersUpdate c) (timeout c)).

(** [c.now().Add(-c.timeout)]. *)
Definition purgeTime (clock : time.Time) (c : ActiveSeries) : time.Time :=
  time.Add clock (time.neg (timeout c)).

(** [total += c.stripes[s].getTotalAndUpdateMatching(totalMatching)], the
    body of the summing loop of [Active]. *)
Definition addStripe (s : Stripe.activeSeriesStripe) (acc : Z * slice.t)
  : option (Z * slice.t) :=
  '(a, matching') ← Stripe.getTotalAndUpdateMatching s acc.2;
  Some (acc.1 + a, matching').

Definition Active (clock : time.Time) (c : ActiveSeries)
  : option (ActiveSeries * (Z * slice.t * bool)) :=
  let purgeTime := purgeTime clock c in
  c' ← purge purgeTime c;
  totalMatching ← resizeAndClear (length (MatcherNames (matchers c'))) slice.nil;
  '(total, totalMatching) ← forEach addStripe (stripes c') (0, totalMatching);
  Some (c', (total, totalMatching,
             time.After purgeTime (lastMatchersUpdate c'))).

(** [fp % numActiveSeriesStripes], as an index into the array of stripes. *)
Definition stripeID (fp : N) : nat :=
  N.to_nat (fp `mod` N.of_nat numActiveSeriesStripes)%N.

Section Tracker.

(** [labels.Labels.Hash], a 64-bit hash that is not part of these sources. *)
Variable Hash : Labels → N.

Definition UpdateSeries (series : Labels) (now : time.Time)
  (labelsCopy : Labels → Labels) (c : ActiveSeries) : option ActiveSeries :=
  let fp := Hash series in
  let stripeID := stripeID fp in
  s ← stripes c !! stripeID;
  s' ← Stripe.updateSeriesTimestamp now series fp labelsCopy s;
  Some (mkActiveSeries (<[stripeID := s']> (stripes c)) (matchers c)
          (lastMatchersUpdate c) (timeout c)).

End Tracker.

(** * Derived notions and invariants *)

(** The contribution of one [matches] vector to counter [i]. *)
Definition tally (ms : list bool) (i : nat) : Z :=
  match ms !! i with Some true => 1 | _ => 0 end.

(** The number of entries whose [matches[i]] is true. *)
Definition hits (i : nat) (es : list activeSeriesEntry) : Z :=
  Z.of_nat (length (filter (λ e, matches e !! i = Some true) es)).

(** The least timestamp among [o] and the entries of [es]. *)
Definition minNanos (o : Z) (es : list activeSeriesEntry) : Z :=
  foldr (λ e acc, Z.min (nanos e) acc) o es.

(** What [purge] keeps of a chain. *)
Definition kept (keepUntilNanos : Z) (es : list activeSeriesEntry)
  : list activeSeriesEntry :=
  filter (λ e, keepUntilNanos ≤ nanos e) es.

(** A chain as a map value: an empty chain has no key. *)
Definition nonEmpty (es : list activeSeriesEntry)
  : option (list activeSeriesEntry) :=
  match es with [] => None | _ => Some es end.

(** All the entries of a map of chains. *)
Definition entriesOf (m : gmap N (list activeSeriesEntry))
  : list activeSeriesEntry :=
  map_to_list m ≫= snd.

(** What iterations of the loop of [purge] over the chains [es] add to the
    accumulators. *)
Definition stepped (k : Z) (es : list activeSeriesEntry)
  (st st' : Stripe.purgeState) : Prop :=
  Stripe.p_active st' = Stripe.p_active st + Z.of_nat (length (kept k es)) ∧
  Stripe.p_oldest st' = minNanos (Stripe.p_oldest st) (kept k es) ∧
  slice.room (Stripe.p_matching st') = slice.room (Stripe.p_matching st) ∧
  slice.len (Stripe.p_matching st') = slice.len (Stripe.p_matching st) ∧
  ∀ j, slice.vals (Stripe.p_matching st') !! j
       = (λ a, a + hits j (kept k es)) <$> slice.vals (Stripe.p_matching st) !! j.

(** The value of the hint that the locked part of [purge] stores when the
    loop ends with [o]. *)
Definition storedOldest (o : Z) : Z := if decide (o = MaxInt64) then 0 else o.

(** The state after the timestamp of an entry is written. *)
Definition withNanos (s : Stripe.activeSeriesStripe) (fp : N) (i : nat)
  (e : activeSeriesEntry) (v : Z) : Stripe.activeSeriesStripe :=
  Stripe.mk (Stripe.matchers s) (Stripe.oldestEntryTs s)
    (<[fp := <[i := mkEntry (lbs e) v (matches e)]> (Stripe.chain s fp)]>
       (Stripe.refs s))
    (Stripe.active s) (Stripe.activeMatching s).

(** The state after the hint is dropped because of a write at [v]. *)
Definition withHint (s : Stripe.activeSeriesStripe) (v : Z)
  : Stripe.activeSeriesStripe :=
  Stripe.mk (Stripe.matchers s)
    (if decide (v < Stripe.oldestEntryTs s) then 0 else Stripe.oldestEntryTs s)
    (Stripe.refs s) (Stripe.active s) (Stripe.activeMatching s).

(** The state after a new entry is appended. *)
Definition withEntry (s : Stripe.activeSeriesStripe) (fp : N)
  (e : activeSeriesEntry) (counters : slice.t) : Stripe.activeSeriesStripe :=
  Stripe.mk (Stripe.matchers s) (Stripe.oldestEntryTs s)
    (<[fp := Stripe.chain s fp ++ [e]]> (Stripe.refs s))
    (Stripe.active s + 1) counters.

Module Inv.

Definition entries (s : Stripe.activeSeriesStripe) : list activeSeriesEntry :=
  entriesOf (Stripe.refs s).

(** (I1) [active] is the number of entries, that is the sum of the lengths
    of the chains ([length_entriesOf]). *)
Definition I1 (s : Stripe.activeSeriesStripe) : Prop :=
  Stripe.active s = Z.of_nat (length (entries s)).

(** (I2) [activeMatching[i]] is the number of entries that match matcher [i]. *)
Definition I2 (s : Stripe.activeSeriesStripe) : Prop :=
  ∀ i a, slice.vals (Stripe.activeMatching s) !! i = Some a →
         a = hits i (entries s).

(** (I3) the hint is 0 or a lower bound of all timestamps. *)
Definition I3 (s : Stripe.activeSeriesStripe) : Prop :=
  Stripe.oldestEntryTs s = 0 ∨
  Forall (λ e, Stripe.oldestEntryTs s ≤ nanos e) (entries s).

(** (I4) no key maps to an empty chain. *)
Definition I4 (s : Stripe.activeSeriesStripe) : Prop :=
  map_Forall (λ _ es, es ≠ []) (Stripe.refs s).

(** (I5) the label sets of a chain are pairwise different. *)
Definition I5 (s : Stripe.activeSeriesStripe) : Prop :=
  map_Forall (λ _ es, NoDup (lbs <$> es)) (Stripe.refs s).

(** (I6) every [matches] vector, and the one the matchers produce, has the
    length of [activeMatching]. *)
Definition I6 (s : Stripe.activeSeriesStripe) : Prop :=
  length (MatcherNames (Stripe.matchers s))
  = slice.len (Stripe.activeMatching s) ∧
  Forall (λ e, length (matches e) = slice.len (Stripe.activeMatching s))
    (entries s).

(** The entries fit the counter slice: what keeps the code from indexing
    out of range. *)
Definition fits (s : Stripe.activeSeriesStripe) : Prop :=
  Forall (λ e, length (matches e) ≤ slice.len (Stripe.activeMatching s))%nat
    (entries s).

End Inv.

(** ** The tracker *)

(** The sum of the cached [active] counters of a list of stripes. *)
Definition sumActive (ss : list Stripe.activeSeriesStripe) : Z :=
  foldr (λ s acc, Stripe.active s + acc) 0 ss.

(** The sum of the cached counters of matcher [j]. *)
Definition sumMatching (j : nat) (ss : list Stripe.activeSeriesStripe) : Z :=
  foldr (λ s acc, default 0 (slice.vals (Stripe.activeMatching s) !! j) + acc)
    0 ss.

(** All the entries of a tracker. *)
Definition allEntries (c : ActiveSeries) : list activeSeriesEntry :=
  stripes c ≫= Inv.entries.

(** Every stripe runs on the matchers of the tracker, with vectors of their
    length. *)
Definition wfStripes (c : ActiveSeries) : Prop :=
  Forall (λ s, Inv.I6 s ∧ Stripe.matchers s = matchers c) (stripes c).

(** A tracker is well formed when, moreover, it has its 512 stripes. *)
Definition wf (c : ActiveSeries) : Prop :=
  length (stripes c) = numActiveSeriesStripes ∧ wfStripes c.

(** The stripe state that [reinitialize] leaves for the matchers [asm]. *)
Definition reinitialized (asm : Matchers) (s : Stripe.activeSeriesStripe)
  : Prop :=
  Stripe.matchers s = asm ∧ Stripe.oldestEntryTs s = 0 ∧ Stripe.refs s = ∅ ∧
  Stripe.active s = 0 ∧
  slice.vals (Stripe.activeMatching s) = replicate (length (MatcherNames asm)) 0.

Section Stored.
Variable Hash : Labels → N.

(** The timestamp that the tracker holds for a series: the cell that
    [findEntryForSeries] returns in the stripe of the series. *)
Definition stored (c : ActiveSeries) (series : Labels) : option Z :=
  s ← stripes c !! stripeID (Hash series);
  e ← Stripe.findEntryForSeries (Hash series) series s;
  Stripe.load s (Hash series) e.

(** The hint of the stripe of a series. *)
Definition hintOf (c : ActiveSeries) (series : Labels) : option Z :=
  Stripe.oldestEntryTs <$> stripes c !! stripeID (Hash series).

End Stored.

Section Counting.
Variable Hash : Labels → N.

(** A run of [UpdateSeries] calls, each with its label set and its time. *)
Definition updateAll (labelsCopy : Labels → Labels)
  (calls : list (Labels * time.Time)) (c : ActiveSeries)
  : option ActiveSeries :=
  forEach (λ call c, UpdateSeries Hash call.1 call.2 labelsCopy c) calls c.

(** What is known of an entry of the chain at [fp] while the calls of a run
    are made at times that are not before [K]. *)
Definition placedEntry (K : Z) (asm : Matchers) (fp : N)
  (e : activeSeriesEntry) : Prop :=
  Hash (lbs e) = fp ∧ matches e = Matches asm (lbs e) ∧ K ≤ nanos e.

(** Every chain is in the stripe of its fingerprint and holds entries of
    that fingerprint. *)
Definition placed (K : Z) (c : ActiveSeries) : Prop :=
  ∀ sid s fp es,
    stripes c !! sid = Some s → Stripe.refs s !! fp = Some es →
    sid = stripeID fp ∧ Forall (placedEntry K (matchers c) fp) es.

(** The tracker holds one entry for each label set of [seen], and nothing
    else. *)
Definition Rep (K : Z) (c : ActiveSeries) (seen : list Labels) : Prop :=
  wf c ∧ Forall (λ s, Inv.I1 s ∧ Inv.I2 s) (stripes c) ∧ placed K c ∧
  NoDup (lbs <$> allEntries c) ∧
  ∀ l, l ∈ lbs <$> allEntries c ↔ l ∈ seen.

End Counting.

(** The number of label sets of [ls] that matcher [i] of [asm] matches. *)
Definition matching (asm : Matchers) (i : nat) (ls : list Labels) : Z :=
  Z.of_nat (length (filter (λ l, Matches asm l !! i = Some true) ls)).

(** ** Reachable trackers *)

(** The six invariants of a stripe. *)
Definition stripeInv (s : Stripe.activeSeriesStripe) : Prop :=
  Inv.I1 s ∧ Inv.I2 s ∧ Inv.I3 s ∧ Inv.I4 s ∧ Inv.I5 s ∧ Inv.I6 s.

(** The trackers that calls of the public methods produce, one call after
    the other, when [labelsCopy] returns a copy of its argument. *)
Inductive reachable (Hash : Labels → N) : ActiveSeries → Prop :=
  | reach_new asm idleTimeout c :
      NewActiveSeries asm idleTimeout = Some c → reachable Hash c
  | reach_update c series now labelsCopy c' :
      reachable Hash c → labelsCopy series = series →
      UpdateSeries Hash series now labelsCopy c = Some c' →
      reachable Hash c'
  | reach_active c clock c' r :
      reachable Hash c → Active clock c = Some (c', r) → reachable Hash c'
  | reach_reload c asm clock c' :
      reachable Hash c → ReloadMatchers asm clock c = Some c' →
      reachable Hash c'.

(** ** Concrete inputs *)
Module Ex.

(** A hash function to run the tracker on: the number of labels. *)
Definition hash (l : Labels) : N := N.of_nat (length l).

Definition seriesA : Labels := [("job", "api")]%string.
Definition seriesB : Labels := [("job", "db")]%string.

(** One matcher, which matches [seriesA] only. *)
Definition onlyA : Matchers :=
  [("a"%string, λ l, bool_decide (l = seriesA))].

(** An empty stripe, and a tracker made of 512 of them. *)
Definition emptyStripe : Stripe.activeSeriesStripe :=
  Stripe.mk onlyA 0 ∅ 0 (slice.mk [0] [0]).

Definition emptyTracker : ActiveSeries :=
  mkActiveSeries (replicate numActiveSeriesStripes emptyStripe) onlyA
    time.zero 10.

(** A stripe with a collision chain of two entries and a single entry. *)
Definition twoChains : Stripe.activeSeriesStripe :=
  Stripe.mk onlyA 5
    {[ 1%N := [mkEntry seriesA 5 [true]; mkEntry seriesB 20 [false]];
       513%N := [mkEntry [("x", "y")]%string 9 [false]] ]}
    3 (slice.mk [1] [0]).

(** A backward clock after a purge: the series [first] is seen at 50,
    [Active] runs with cut-off 50, then [seriesA] is seen at 100 and at 90.
    The result is the stored timestamp of [seriesA] and the hint of its
    stripe.  With [first = seriesB] the call at 100 inserts [seriesA]; with
    [first = seriesA] it advances it. *)
Definition backwardClock (first : Labels) : option (Z * Z) :=
  c ← NewActiveSeries [] 0;
  c ← UpdateSeries hash first 50 id c;
  r ← Active 50 c;
  c ← UpdateSeries hash seriesA 100 id r.1;
  c ← UpdateSeries hash seriesA 90 id c;
  ts ← stored hash c seriesA;
  hint ← hintOf hash c seriesA;
  Some (ts, hint).

(** A stripe whose only entry carries the largest [int64] timestamp, as
    [updateSeriesTimestamp] leaves it when called at that time on an empty
    stripe. *)
Definition lastInstant : Stripe.activeSeriesStripe :=
  Stripe.mk [] 0 {[ 1%N := [mkEntry seriesA MaxInt64 []] ]} 1 slice.nil.

(** A run with a repeated series. *)
Definition calls : list (Labels * time.Time) :=
  [(seriesA, 0); (seriesB, 1); (seriesA, 5)].

(** A slice of length 3 and capacity 5, and the heap that holds its array. *)
Definition prev : mem.slice := mem.mk (Some 0%nat) 3 5.
Definition heap : gmap nat (list Z) := {[ 0%nat := [1; 2; 3; 4; 5] ]}.

End Ex.

(** * The other methods of the file *)

(** ** [activeSeriesStripe.clear] *)
Module StripeClear.

(** [for i := range counters { counters[i] = 0 }], with [n] the iterations
    left. *)
Fixpoint zeroLoop (n i : nat) (counters : slice.t) : option slice.t :=
  match n with
  | O => Some counters
  | S n' => counters' ← slice.set counters i 0; zeroLoop n' (S i) counters'
  end.

Definition clear (s : Stripe.activeSeriesStripe)
  : option Stripe.activeSeriesStripe :=
  counters ←
    zeroLoop (slice.len (Stripe.activeMatching s)) 0 (Stripe.activeMatching s);
  Some (Stripe.mk (Stripe.matchers s) 0 ∅ 0 counters).

End StripeClear.

(** ** [ActiveSeries.clear] and [ActiveSeries.CurrentMatcherNames] *)
Module Tracker.

Definition clear (c : ActiveSeries) : option ActiveSeries :=
  ss ← mapM StripeClear.clear (stripes c);
  Some (mkActiveSeries ss (matchers c) (lastMatchersUpdate c) (timeout c)).

Definition CurrentMatcherNames (c : ActiveSeries) : list string :=
  MatcherNames (matchers c).

End Tracker.

(** ** Notions for the properties of these methods *)

(** The entry that [findEntryForSeries] points to. *)
Definition foundEntry (series : Labels) (es : list activeSeriesEntry)
  : option activeSeriesEntry :=
  i ← lookupLabels series es; es !! i.

(** What [Active] leaves of a stored timestamp when it purges at [K]. *)
Definition survives (K : Z) (ts : option Z) : option Z :=
  ts ≫= (λ t, if decide (K ≤ t) then Some t else None).

(** The stripe that the locked part of [purge] leaves at cut-off [k]. *)
Definition purged (k : Z) (s : Stripe.activeSeriesStripe)
  : Stripe.activeSeriesStripe :=
  Stripe.mk (Stripe.matchers s)
    (storedOldest (minNanos MaxInt64 (kept k (Inv.entries s))))
    (omap (λ es, nonEmpty (kept k es)) (Stripe.refs s))
    (Z.of_nat (length (kept k (Inv.entries s))))
    (slice.mk
       ((λ j, hits j (kept k (Inv.entries s)))
          <$> seq 0 (slice.len (Stripe.activeMatching s)))
       (slice.room (Stripe.activeMatching s))).

(** The chain of a fingerprint after an update of [series] at [nowNanos]:
    the timestamp of its entry is advanced, or an entry is appended. *)
Definition chainAfter (series : Labels) (nowNanos : Z)
  (labelsCopy : Labels → Labels) (ms : list bool)
  (es : list activeSeriesEntry) : list activeSeriesEntry :=
  match foundEntry series es, lookupLabels series es with
  | Some e, Some i =>
      if decide (nanos e < nowNanos)
      then <[i := mkEntry (lbs e) nowNanos (matches e)]> es else es
  | _, _ => es ++ [mkEntry (labelsCopy series) nowNanos ms]
  end.

(** Whether an update of [series] at [nowNanos] writes a timestamp. *)
Definition touched (series : Labels) (nowNanos : Z)
  (es : list activeSeriesEntry) : bool :=
  match foundEntry series es with
  | Some e => bool_decide (nanos e < nowNanos)
  | None => true
  end.

(** The body of the loop of [purge] past the shortcut for chains of one
    entry: the filter loop and what follows it, as every chain would be
    handled without the shortcut. *)
Definition purgeCollision (keepUntilNanos : Z)
  (kv : N * list activeSeriesEntry) (st : Stripe.purgeState)
  : option Stripe.purgeState :=
  let '(fp, entries) := kv in
  let '(entries', oldest) :=
    Stripe.purgeChain (length entries) keepUntilNanos 0 entries
      (Stripe.p_oldest st) in
  let cnt := length entries' in
  if decide (cnt = 0%nat) then
    Some (Stripe.mkPurge (delete fp (Stripe.p_refs st)) (Stripe.p_active st)
            (Stripe.p_matching st) oldest)
  else
    counters ←
      forEach (λ entry c, addMatches 0 (matches entry) c) entries'
        (Stripe.p_matching st);
    Some (Stripe.mkPurge (<[fp := entries']> (Stripe.p_refs st))
            (Stripe.p_active st + Z.of_nat cnt) counters oldest).

Module Ex2.

(** A tracker that holds three series in its stripe 1. *)
Definition busyTracker : ActiveSeries :=
  mkActiveSeries
    (<[1%nat := Ex.twoChains]> (replicate numActiveSeriesStripes Ex.emptyStripe))
    Ex.onlyA time.zero 10.

(** A hash under which the series of [Ex.twoChains] are where they are. *)
Definition hash (l : Labels) : N :=
  if decide (l = [("x", "y")]%string) then 513%N else 1%N.

(** A series of another stripe. *)
Definition seriesC : Labels := [("job", "web"); ("zone", "a")]%string.

End Ex2.

(** * Facts about loops *)

Lemma forEach_cons {A B} (f : B → A → option A) x l a :
  forEach f (x :: l) a = f x a ≫= forEach f l.
Proof. done. Qed.

Lemma forEach_app {A B} (f : B → A → option A) l1 l2 a :
  forEach f (l1 ++ l2) a = forEach f l1 a ≫= forEach f l2.
Proof.
  revert a. induction l1 as [|x l1 IH]; intros a; simpl; [done|].
  destruct (f x a); simpl; [apply IH|done].
Qed.

(** * Facts about slices and [resizeAndClear] *)

Section mem_facts.
Implicit Types (h : gmap nat (list Z)) (p : mem.slice).

Lemma mem_clearLoop_spec n : ∀ i p h a cells,
  mem.arr p = Some a → h !! a = Some cells →
  (i + n ≤ mem.len p)%nat → (mem.len p ≤ length cells)%nat →
  mem.clearLoop n i p h
  = Some (<[a := take i cells ++ replicate n 0 ++ drop (i + n) cells]> h).
Proof.
  induction n as [|n IH]; intros i p h a cells Ha Hh Hin Hlen; simpl.
  - rewrite Nat.add_0_r, take_drop. by rewrite insert_id.
  - unfold mem.set. rewrite decide_True by lia. rewrite Ha. simpl. rewrite Hh. simpl.
    rewrite (IH (S i) p _ a (<[i:=0]> cells)); try done.
    + rewrite insert_insert_eq. f_equal. f_equal.
      assert (Hi : (i < length cells)%nat) by lia.
      rewrite (take_S_r _ _ 0) by (by apply list_lookup_insert_eq).
      rewrite take_insert_ge by lia.
      rewrite drop_insert_lt by lia.
      rewrite <- app_assoc. simpl. by replace (i + S n)%nat with (S (i + n)) by lia.
    + by rewrite lookup_insert_eq.
    + lia.
    + rewrite length_insert. lia.
Qed.

Lemma mem_resizeAndClear_reuse l p h a cells :
  mem.arr p = Some a → h !! a = Some cells → length cells = mem.cap p →
  (l ≤ mem.cap p)%nat →
  mem.resizeAndClear l p h
  = Some (mem.mk (Some a) l (mem.cap p),
          <[a := replicate l 0 ++ drop l cells]> h).
Proof.
  intros Ha Hh Hc Hl. unfold mem.resizeAndClear, mem.upto.
  rewrite decide_False by lia. rewrite decide_True by lia. simpl.
  rewrite (mem_clearLoop_spec l 0 _ h a cells); simpl; try done; try lia.
  by rewrite Ha.
Qed.

Lemma mem_resizeAndClear_nil l p h :
  mem.arr p = None → mem.cap p = 0%nat → l = 0%nat →
  mem.resizeAndClear l p h = Some (mem.mk None 0 0, h).
Proof.
  intros Ha Hc ->. unfold mem.resizeAndClear, mem.upto.
  rewrite decide_False by lia. rewrite decide_True by lia. simpl.
  by rewrite Ha, Hc.
Qed.

Lemma mem_resizeAndClear_grow l p h :
  (mem.cap p < l)%nat →
  mem.resizeAndClear l p h
  = Some (mem.mk (Some (fresh (dom h))) l (l * 2),
          <[fresh (dom h) := replicate (l * 2) 0]> h).
Proof.
  intros Hl. unfold mem.resizeAndClear, mem.make.
  rewrite decide_True by lia. by rewrite decide_False by lia.
Qed.
End mem_facts.


Lemma slice_cap_0 (s : slice.t) :
  slice.cap s = 0%nat → s = slice.nil.
Proof.
  destruct s as [v r]. unfold slice.cap. simpl. intros H.
  destruct v, r; simpl in *; try lia. done.
Qed.

(** What [resizeAndClear] returns for a slice held by its owner. *)
Lemma resizeAndClear_owned (l : nat) (prev : slice.t) :
  resizeAndClear l prev
  = Some (if decide (slice.cap prev < l)%nat
          then slice.mk (replicate l 0) (replicate l 0)
          else slice.mk (replicate l 0)
                 (drop l (slice.vals prev ++ slice.room prev))).
Proof.
  unfold resizeAndClear, slice.place.
  destruct (decide (slice.cap prev = 0%nat)) as [H0|H0].
  - destruct (decide (slice.cap prev < l)%nat) as [Hlt|Hge].
    + rewrite mem_resizeAndClear_grow by (simpl; lia). simpl.
      unfold slice.fetch. simpl. rewrite lookup_insert_eq. simpl.
      rewrite take_replicate, drop_replicate. do 3 f_equal; lia.
    + assert (l = 0%nat) as -> by lia.
      rewrite mem_resizeAndClear_nil by done. simpl.
      by rewrite (slice_cap_0 prev).
  - destruct (decide (slice.cap prev < l)%nat) as [Hlt|Hge].
    + rewrite mem_resizeAndClear_grow by (simpl; lia). simpl.
      unfold slice.fetch. simpl. rewrite lookup_insert_eq. simpl.
      rewrite take_replicate, drop_replicate. do 3 f_equal; lia.
    + rewrite (mem_resizeAndClear_reuse l _ _ 0%nat (slice.vals prev ++ slice.room prev));
        simpl; try done; try lia.
      * unfold slice.fetch. simpl. rewrite lookup_insert_eq. simpl.
        rewrite take_app_length' by (by rewrite length_replicate).
        by rewrite drop_app_length' by (by rewrite length_replicate).
      * rewrite length_app. done.
Qed.

Lemma resizeAndClear_vals l prev r :
  resizeAndClear l prev = Some r → slice.vals r = replicate l 0.
Proof.
  rewrite resizeAndClear_owned. intros [= <-]. by case_decide.
Qed.

Lemma resizeAndClear_same_len (s : slice.t) :
  resizeAndClear (slice.len s) s
  = Some (slice.mk (replicate (slice.len s) 0) (slice.room s)).
Proof.
  rewrite resizeAndClear_owned. unfold slice.cap, slice.len.
  rewrite decide_False by lia. by rewrite drop_app_length.
Qed.

(** * Facts about chains of entries *)

Lemma tally_range ms i : 0 ≤ tally ms i ≤ 1.
Proof. unfold tally. destruct (ms !! i) as [[]|]; lia. Qed.

Lemma tally_ge ms i : (length ms ≤ i)%nat → tally ms i = 0.
Proof. intros H. unfold tally. by rewrite lookup_ge_None_2. Qed.

Lemma hits_nil i : hits i [] = 0.
Proof. done. Qed.

Lemma hits_cons i e es : hits i (e :: es) = tally (matches e) i + hits i es.
Proof.
  unfold hits, tally. rewrite filter_cons.
  destruct (decide (matches e !! i = Some true)) as [->|Hne]; simpl; [lia|].
  destruct (matches e !! i) as [[]|]; try done; lia.
Qed.

Lemma hits_app i es1 es2 : hits i (es1 ++ es2) = hits i es1 + hits i es2.
Proof.
  induction es1 as [|e es1 IH]; simpl; [by rewrite hits_nil|].
  rewrite !hits_cons, IH. lia.
Qed.

#[global] Instance hits_perm i : Proper ((≡ₚ) ==> (=)) (hits i).
Proof. intros es1 es2 H. unfold hits. by rewrite H. Qed.

Lemma minNanos_min a o es : minNanos (Z.min a o) es = Z.min a (minNanos o es).
Proof. induction es as [|e es IH]; simpl; [done|]. rewrite IH. lia. Qed.

Lemma minNanos_app o es1 es2 :
  minNanos o (es1 ++ es2) = minNanos (minNanos o es1) es2.
Proof.
  induction es1 as [|e es1 IH]; simpl; [done|].
  by rewrite IH, minNanos_min.
Qed.

#[global] Instance minNanos_perm o : Proper ((≡ₚ) ==> (=)) (minNanos o).
Proof.
  intros es1 es2 H. induction H; simpl; solve [lia|congruence].
Qed.

Lemma minNanos_le o es : minNanos o es ≤ o.
Proof. induction es; simpl; lia. Qed.

Lemma minNanos_lower o es : Forall (λ e, minNanos o es ≤ nanos e) es.
Proof.
  induction es as [|e es IH]; simpl; constructor; [lia|].
  eapply Forall_impl; [exact IH|]. simpl. intros. lia.
Qed.

Lemma minNanos_attained o es :
  minNanos o es = o ∨ ∃ e, e ∈ es ∧ minNanos o es = nanos e.
Proof.
  induction es as [|e es IH]; simpl; [by left|].
  destruct (Z.min_spec (nanos e) (minNanos o es)) as [[_ ->]|[_ ->]].
  - right. exists e. split; [left|done].
  - destruct IH as [?|(e' & ? & ?)]; [by left|].
    right. exists e'. split; [by right|done].
Qed.

Lemma minNanos_below o es :
  Exists (λ e, nanos e < o) es →
  minNanos o es < o ∧ Forall (λ e, minNanos o es ≤ nanos e) es ∧
  Exists (λ e, nanos e = minNanos o es) es.
Proof.
  intros (e & He & Hlt)%Exists_exists.
  pose proof (minNanos_lower o es) as Hlow.
  assert (minNanos o es ≤ nanos e) by (rewrite Forall_forall in Hlow; auto).
  split; [lia|]. split; [done|].
  destruct (minNanos_attained o es) as [?|(e' & He' & Heq)]; [lia|].
  apply Exists_exists. by exists e'.
Qed.

Lemma minNanos_all o es : Forall (λ e, nanos e = o) es → minNanos o es = o.
Proof. induction 1 as [|e es He _ IH]; simpl; [done|]. rewrite IH. lia. Qed.

Lemma kept_app k es1 es2 : kept k (es1 ++ es2) = kept k es1 ++ kept k es2.
Proof. apply filter_app. Qed.

#[global] Instance kept_perm k : Proper ((≡ₚ) ==> (≡ₚ)) (kept k).
Proof. intros ???. unfold kept. by apply filter_Permutation. Qed.

Lemma kept_all k es : Forall (λ e, k ≤ nanos e) es → kept k es = es.
Proof.
  induction 1 as [|e es He _ IH]; [done|].
  unfold kept in *. rewrite filter_cons, decide_True by done. by rewrite IH.
Qed.

Lemma elem_of_kept k e es : e ∈ kept k es ↔ e ∈ es ∧ k ≤ nanos e.
Proof. unfold kept. rewrite list_elem_of_filter. tauto. Qed.

Lemma Forall_kept (P : activeSeriesEntry → Prop) k es :
  Forall P es → Forall P (kept k es).
Proof.
  rewrite !Forall_forall. intros H e [He _]%elem_of_kept. auto.
Qed.

(** ** [addMatches] *)

Lemma addMatches_spec ms : ∀ i c c',
  addMatches i ms c = Some c' →
  slice.room c' = slice.room c ∧ slice.len c' = slice.len c ∧
  ∀ j, slice.vals c' !! j
       = (λ a, a + (if decide (i ≤ j)%nat then tally ms (j - i) else 0))
           <$> slice.vals c !! j.
Proof.
  induction ms as [|ok ms IH]; intros i c c' H; simpl in H.
  - injection H as <-. split; [done|]. split; [done|]. intros j.
    destruct (slice.vals c !! j); simpl; [|done]. f_equal.
    case_decide; [|lia]. unfold tally. rewrite lookup_nil. lia.
  - destruct ok.
    + unfold slice.get, slice.set in H.
      destruct (slice.vals c !! i) as [a|] eqn:Ha; simpl in H; [|done].
      apply lookup_lt_Some in Ha as Hi. unfold slice.len in H.
      rewrite decide_True in H by done. simpl in H.
      apply IH in H as (Hr & Hl & Hv). simpl in *.
      split; [done|]. split; [by unfold slice.len in *; simpl in *; rewrite Hl, length_insert|].
      intros j. rewrite Hv. destruct (decide (i = j)) as [<-|Hne].
      * rewrite list_lookup_insert_eq by done. rewrite Ha. simpl. f_equal.
        rewrite decide_False by lia. rewrite decide_True by lia.
        rewrite Nat.sub_diag. unfold tally. simpl. lia.
      * rewrite list_lookup_insert_ne by done.
        destruct (slice.vals c !! j); simpl; [|done]. f_equal.
        destruct (decide (S i ≤ j)%nat).
        { rewrite decide_True by lia. unfold tally.
          replace (j - i)%nat with (S (j - S i)) by lia. done. }
        { rewrite decide_False by lia. lia. }
    + apply IH in H as (Hr & Hl & Hv). split; [done|]. split; [done|].
      intros j. rewrite Hv. destruct (slice.vals c !! j); simpl; [|done]. f_equal.
      destruct (decide (S i ≤ j)%nat).
      { rewrite decide_True by lia. unfold tally.
        replace (j - i)%nat with (S (j - S i)) by lia. done. }
      { case_decide; [|done]. assert (j = i) as -> by lia.
        rewrite Nat.sub_diag. unfold tally. simpl. lia. }
Qed.

Lemma addMatches_total ms : ∀ i c,
  (i + length ms ≤ slice.len c)%nat → is_Some (addMatches i ms c).
Proof.
  induction ms as [|ok ms IH]; intros i c H; simpl in *; [by eexists|].
  destruct ok; [|apply IH; lia].
  unfold slice.get, slice.set.
  destruct (lookup_lt_is_Some_2 (slice.vals c) i) as [a Ha]; [unfold slice.len in H; lia|].
  rewrite Ha. simpl. rewrite decide_True by lia. simpl.
  apply IH. unfold slice.len in *. simpl. rewrite length_insert. lia.
Qed.

Lemma addMatches_0 ms c c' :
  addMatches 0 ms c = Some c' →
  slice.room c' = slice.room c ∧ slice.len c' = slice.len c ∧
  ∀ j, slice.vals c' !! j = (λ a, a + tally ms j) <$> slice.vals c !! j.
Proof.
  intros H. apply addMatches_spec in H as (Hr & Hl & Hv).
  split; [done|]. split; [done|]. intros j. rewrite Hv.
  destruct (slice.vals c !! j); simpl; [|done].
  by rewrite Nat.sub_0_r.
Qed.

(** Adding the vectors of a list of entries, one after the other. *)
Lemma addAll_spec es : ∀ c c',
  forEach (λ entry c, addMatches 0 (matches entry) c) es c = Some c' →
  slice.room c' = slice.room c ∧ slice.len c' = slice.len c ∧
  ∀ j, slice.vals c' !! j = (λ a, a + hits j es) <$> slice.vals c !! j.
Proof.
  induction es as [|e es IH]; intros c c' H; simpl in H.
  - injection H as <-. split; [done|]. split; [done|]. intros j.
    destruct (slice.vals c !! j); simpl; [|done]. f_equal. rewrite hits_nil. lia.
  - destruct (addMatches 0 (matches e) c) as [c1|] eqn:H1; simpl in H; [|done].
    apply addMatches_0 in H1 as (Hr1 & Hl1 & Hv1).
    apply IH in H as (Hr & Hl & Hv).
    split; [congruence|]. split; [congruence|]. intros j.
    rewrite Hv, Hv1. destruct (slice.vals c !! j); simpl; [|done]. f_equal.
    rewrite hits_cons. lia.
Qed.

Lemma addAll_total es : ∀ c,
  Forall (λ e, length (matches e) ≤ slice.len c)%nat es →
  is_Some (forEach (λ entry c, addMatches 0 (matches entry) c) es c).
Proof.
  induction es as [|e es IH]; intros c H; simpl; [by eexists|].
  inversion H as [|?? He Hes]; subst.
  destruct (addMatches_total (matches e) 0 c) as [c1 H1]; [simpl; lia|].
  rewrite H1. simpl. apply IH.
  apply addMatches_0 in H1 as (_ & Hl & _). by rewrite Hl.
Qed.

(** ** The filter loop of [purge] *)

Lemma purgeChain_spec k n : ∀ i es o,
  n = length (drop i es) →
  Stripe.purgeChain n k i es o
  = (take i es ++ kept k (drop i es), minNanos o (kept k (drop i es))).
Proof.
  induction n as [|n IH]; intros i es o Hn; simpl.
  - symmetry in Hn. apply length_zero_iff_nil in Hn. rewrite Hn. simpl.
    by rewrite app_nil_r, <- (take_drop i es) at 1; rewrite Hn, app_nil_r.
  - destruct (es !! i) as [e|] eqn:He.
    2:{ apply lookup_ge_None in He. rewrite length_drop in Hn. exfalso; lia. }
    rewrite (drop_S _ _ _ He) in *. simpl in Hn. injection Hn as Hn.
    unfold kept at 1 2. rewrite filter_cons. fold (kept k (drop (S i) es)).
    apply lookup_lt_Some in He as Hi.
    destruct (decide (nanos e < k)) as [Hlt|Hge].
    + rewrite (decide_False (P := k ≤ nanos e)) by lia.
      rewrite IH.
      * rewrite take_app_length' by (rewrite length_take; lia).
        by rewrite drop_app_length' by (rewrite length_take; lia).
      * rewrite drop_app_length' by (rewrite length_take; lia). done.
    + rewrite (decide_True (P := k ≤ nanos e)) by lia. rewrite IH by done.
      rewrite (take_S_r _ _ _ He), <- app_assoc. simpl. f_equal.
      rewrite <- minNanos_min. f_equal. case_decide; lia.
Qed.

Lemma purgeChain_all k es o :
  Stripe.purgeChain (length es) k 0 es o = (kept k es, minNanos o (kept k es)).
Proof. by rewrite (purgeChain_spec k (length es) 0 es o). Qed.

(** * Facts about maps of chains *)

Section entriesOf.
Implicit Types (m : gmap N (list activeSeriesEntry)).

Lemma entriesOf_empty : entriesOf ∅ = [].
Proof. unfold entriesOf. by rewrite map_to_list_empty. Qed.

Lemma entriesOf_insert_fresh m fp es :
  m !! fp = None → entriesOf (<[fp := es]> m) ≡ₚ es ++ entriesOf m.
Proof.
  intros H. unfold entriesOf. by rewrite map_to_list_insert.
Qed.

Lemma entriesOf_delete m fp es :
  m !! fp = Some es → entriesOf m ≡ₚ es ++ entriesOf (delete fp m).
Proof.
  intros H. rewrite <- (entriesOf_insert_fresh (delete fp m) fp es)
    by apply lookup_delete_eq.
  by rewrite insert_delete_id.
Qed.

Lemma entriesOf_insert m fp es :
  entriesOf (<[fp := es]> m) ≡ₚ es ++ entriesOf (delete fp m).
Proof.
  rewrite <- insert_delete_eq.
  apply entriesOf_insert_fresh, lookup_delete_eq.
Qed.

Lemma length_entriesOf m :
  length (entriesOf m) = sum_list ((λ kv, length kv.2) <$> map_to_list m).
Proof.
  unfold entriesOf. induction (map_to_list m) as [|[fp es] l IH]; [done|].
  rewrite bind_cons, length_app, IH. done.
Qed.

Lemma elem_of_entriesOf m e :
  e ∈ entriesOf m ↔ ∃ fp es, m !! fp = Some es ∧ e ∈ es.
Proof.
  unfold entriesOf. rewrite list_elem_of_bind. split.
  - intros ([fp es] & He & Hm). apply elem_of_map_to_list in Hm. eauto.
  - intros (fp & es & Hm & He). exists (fp, es).
    split; [done|]. by apply elem_of_map_to_list.
Qed.

Lemma Forall_entriesOf (P : activeSeriesEntry → Prop) m :
  Forall P (entriesOf m) ↔ map_Forall (λ _ es, Forall P es) m.
Proof.
  rewrite Forall_forall. split.
  - intros H fp es Hm. apply Forall_forall. intros e He.
    apply H, elem_of_entriesOf. eauto.
  - intros H e (fp & es & Hm & He)%elem_of_entriesOf.
    specialize (H fp es Hm). simpl in H. rewrite Forall_forall in H. auto.
Qed.

Lemma nonEmpty_Some es es' : nonEmpty es = Some es' → es' = es ∧ es ≠ [].
Proof. destruct es; simpl; [done|]. by intros [= <-]. Qed.

Lemma entriesOf_purged k m :
  entriesOf (omap (λ es, nonEmpty (kept k es)) m) ≡ₚ kept k (entriesOf m).
Proof.
  induction m as [|fp es m Hfp IH] using map_ind.
  - by rewrite omap_empty, entriesOf_empty.
  - rewrite entriesOf_insert_fresh by done. rewrite kept_app, <- IH.
    destruct (nonEmpty (kept k es)) as [es'|] eqn:Hne.
    + rewrite (omap_insert_Some _ _ _ _ es') by done.
      apply nonEmpty_Some in Hne as [-> _].
      apply entriesOf_insert_fresh. by rewrite lookup_omap, Hfp.
    + rewrite omap_insert_None by done.
      rewrite delete_id by (by rewrite lookup_omap, Hfp).
      destruct (kept k es); [done|discriminate].
Qed.
End entriesOf.

(** ** One iteration and the whole loop of [purge] *)

Lemma partial_alter_nonEmpty (m : gmap N (list activeSeriesEntry)) fp es :
  partial_alter (λ _, nonEmpty es) fp m
  = match es with [] => delete fp m | _ => <[fp := es]> m end.
Proof. by destruct es. Qed.

Section purge_loop.
Variable k : Z.
Implicit Types (st : Stripe.purgeState).

Lemma purgeStep_spec fp es st :
  Stripe.p_refs st !! fp = Some es →
  Forall (λ e, length (matches e) ≤ slice.len (Stripe.p_matching st))%nat es →
  ∃ st', Stripe.purgeStep k (fp, es) st = Some st' ∧
    Stripe.p_refs st'
    = partial_alter (λ _, nonEmpty (kept k es)) fp (Stripe.p_refs st) ∧
    stepped k es st st'.
Proof.
  intros Hfp Hfit. unfold Stripe.purgeStep, stepped.
  destruct (decide (length es = 1%nat)) as [H1|H1].
  - destruct es as [|e [|??]]; try done. simpl.
    unfold kept. rewrite filter_cons, filter_nil.
    destruct (decide (nanos e < k)) as [Hlt|Hge].
    + rewrite (decide_False (P := k ≤ nanos e)) by lia. eexists. split; [done|]. simpl.
      split; [done|]. split; [lia|]. split; [done|]. split; [done|].
      split; [done|]. intros j. rewrite hits_nil.
      destruct (slice.vals _ !! j); simpl; [f_equal; lia|done].
    + rewrite (decide_True (P := k ≤ nanos e)) by lia.
      inversion Hfit as [|?? He _]; subst.
      destruct (addMatches_total (matches e) 0 (Stripe.p_matching st))
        as [c Hc]; [simpl; lia|].
      rewrite Hc. simpl. eexists. split; [done|]. simpl.
      apply addMatches_0 in Hc as (Hr & Hl & Hv).
      split.
      { transitivity (<[fp := [e]]> (Stripe.p_refs st));
          [by rewrite insert_id|done]. }
      split; [lia|]. split; [case_decide; lia|]. split; [done|].
      split; [done|]. intros j. rewrite Hv, hits_cons, hits_nil.
      destruct (slice.vals _ !! j); simpl; [f_equal; lia|done].
  - rewrite purgeChain_all.
    destruct (decide (length (kept k es) = 0%nat)) as [H0|H0].
    + apply length_zero_iff_nil in H0. rewrite H0. simpl.
      eexists. split; [done|]. simpl. split; [done|]. split; [lia|].
      split; [done|]. split; [done|]. split; [done|]. intros j.
      rewrite hits_nil. destruct (slice.vals _ !! j); simpl; [f_equal; lia|done].
    + destruct (addAll_total (kept k es) (Stripe.p_matching st)) as [c Hc].
      { by apply Forall_kept. }
      rewrite Hc. simpl. eexists. split; [done|]. simpl.
      apply addAll_spec in Hc as (Hr & Hl & Hv).
      split; [|done].
      rewrite partial_alter_nonEmpty. by destruct (kept k es).
Qed.

Lemma purgeLoop_spec kv : ∀ st,
  NoDup kv.*1 →
  (∀ fp es, (fp, es) ∈ kv → Stripe.p_refs st !! fp = Some es) →
  Forall (λ e, length (matches e) ≤ slice.len (Stripe.p_matching st))%nat
    (kv ≫= snd) →
  ∃ st', forEach (Stripe.purgeStep k) kv st = Some st' ∧
    (∀ fp, Stripe.p_refs st' !! fp
           = if decide (fp ∈ kv.*1)
             then Stripe.p_refs st !! fp ≫= (λ es, nonEmpty (kept k es))
             else Stripe.p_refs st !! fp) ∧
    stepped k (kv ≫= snd) st st'.
Proof.
  induction kv as [|[fp es] kv IH]; intros st Hnd Hsnap Hfit.
  - exists st. split; [done|]. split.
    + intros fp. rewrite decide_False; [done|]. simpl. apply not_elem_of_nil.
    + unfold stepped. simpl. split; [lia|]. split; [done|]. split; [done|].
      split; [done|]. intros j. rewrite hits_nil.
      destruct (slice.vals _ !! j); simpl; [f_equal; lia|done].
  - simpl in Hnd. apply NoDup_cons in Hnd as [Hfp Hnd].
    rewrite bind_cons in Hfit. apply Forall_app in Hfit as [Hfit1 Hfit2].
    destruct (purgeStep_spec fp es st) as (st1 & Hst1 & Hrefs1 & Hs1);
      [apply Hsnap; left|done|].
    destruct Hs1 as (Ha1 & Ho1 & Hr1 & Hl1 & Hv1).
    destruct (IH st1) as (st' & Hst' & Hrefs' & Hs'); [done| |by rewrite Hl1|].
    { intros fp' es' Hin. rewrite Hrefs1.
      rewrite lookup_partial_alter_ne.
      - apply Hsnap. by right.
      - intros <-. apply Hfp. apply list_elem_of_fmap. by exists (fp, es'). }
    destruct Hs' as (Ha' & Ho' & Hr' & Hl' & Hv').
    exists st'. split; [by rewrite forEach_cons, Hst1|]. split.
    + intros x. rewrite Hrefs'. simpl. destruct (decide (x = fp)) as [->|Hne].
      * rewrite decide_False by done. rewrite decide_True by left.
        rewrite Hrefs1, lookup_partial_alter_eq.
        rewrite (Hsnap fp es) by left. done.
      * rewrite Hrefs1, lookup_partial_alter_ne by done.
        destruct (decide (x ∈ kv.*1)).
        { rewrite decide_True; [done|by right]. }
        { rewrite decide_False; [done|]. rewrite elem_of_cons. tauto. }
    + unfold stepped. rewrite bind_cons. simpl. rewrite kept_app, length_app.
      split; [lia|]. split; [by rewrite minNanos_app, <- Ho1|].
      split; [congruence|]. split; [congruence|]. intros j.
      rewrite Hv', Hv1, hits_app.
      destruct (slice.vals _ !! j); simpl; [f_equal; lia|done].
Qed.
End purge_loop.

(** * [purge] on a stripe *)

Section stripe_purge.
Implicit Types (s : Stripe.activeSeriesStripe).

Lemma entries_split s fp :
  Inv.entries s ≡ₚ Stripe.chain s fp ++ entriesOf (delete fp (Stripe.refs s)).
Proof.
  unfold Inv.entries, Stripe.chain.
  destruct (Stripe.refs s !! fp) as [es|] eqn:H; simpl.
  - by apply entriesOf_delete.
  - by rewrite delete_id.
Qed.

Lemma purgeLocked_spec kv k s :
  kv ≡ₚ map_to_list (Stripe.refs s) →
  Forall (λ e, length (matches e) ≤ slice.len (Stripe.activeMatching s))%nat
    (Inv.entries s) →
  ∃ s', Stripe.purgeLocked kv k s = Some s' ∧
    Stripe.matchers s' = Stripe.matchers s ∧
    Stripe.refs s' = omap (λ es, nonEmpty (kept k es)) (Stripe.refs s) ∧
    Stripe.active s' = Z.of_nat (length (kept k (Inv.entries s))) ∧
    Stripe.oldestEntryTs s'
    = storedOldest (minNanos MaxInt64 (kept k (Inv.entries s))) ∧
    slice.room (Stripe.activeMatching s') = slice.room (Stripe.activeMatching s) ∧
    slice.vals (Stripe.activeMatching s')
    = (λ j, hits j (kept k (Inv.entries s)))
        <$> seq 0 (slice.len (Stripe.activeMatching s)).
Proof.
  intros Hkv Hfit. unfold Stripe.purgeLocked.
  rewrite resizeAndClear_same_len. simpl.
  assert (Hent : kv ≫= snd ≡ₚ Inv.entries s).
  { unfold Inv.entries, entriesOf. by rewrite Hkv. }
  destruct (purgeLoop_spec k kv
              (Stripe.mkPurge (Stripe.refs s) 0
                 (slice.mk (replicate (slice.len (Stripe.activeMatching s)) 0)
                    (slice.room (Stripe.activeMatching s))) MaxInt64))
    as (st & Hst & Hrefs & Ha & Ho & Hr & Hl & Hv);
    cbn [Stripe.p_active Stripe.p_oldest Stripe.p_matching Stripe.p_refs
           slice.vals slice.room] in *.
  - rewrite Hkv. apply NoDup_fst_map_to_list.
  - intros fp es Hin. rewrite Hkv in Hin. by apply elem_of_map_to_list in Hin.
  - rewrite Hent. unfold slice.len at 1. simpl. by rewrite length_replicate.
  - rewrite Hst. eexists. split; [done|].
    cbn [Stripe.matchers Stripe.refs Stripe.active Stripe.oldestEntryTs
           Stripe.activeMatching].
    split; [done|]. split.
    { apply map_eq. intros fp. rewrite Hrefs, lookup_omap.
      case_decide as Hin; [done|].
      destruct (Stripe.refs s !! fp) as [es|] eqn:Hfp; [|done].
      exfalso. apply Hin. apply list_elem_of_fmap. exists (fp, es).
      split; [done|]. rewrite Hkv. by apply elem_of_map_to_list. }
    assert (Hk : kept k (kv ≫= snd) ≡ₚ kept k (Inv.entries s))
      by (by apply kept_perm).
    split; [rewrite Ha, Hk; lia|].
    split; [by rewrite Ho, (minNanos_perm _ _ _ Hk)|].
    split; [done|].
    apply list_eq. intros j. rewrite Hv, list_lookup_fmap.
    unfold slice.len in *. simpl in *.
    destruct (decide (j < length (slice.vals (Stripe.activeMatching s)))%nat).
    + rewrite lookup_replicate_2, lookup_seq_lt by done. simpl.
      by rewrite Hk.
    + rewrite (proj1 (lookup_replicate_None _ _ _)) by lia.
      by rewrite lookup_seq_ge by lia.
Qed.

(** The order in which the map is ranged over does not show in the result. *)
Lemma purgeLocked_order kv k s :
  kv ≡ₚ map_to_list (Stripe.refs s) →
  Forall (λ e, length (matches e) ≤ slice.len (Stripe.activeMatching s))%nat
    (Inv.entries s) →
  Stripe.purgeLocked kv k s
  = Stripe.purgeLocked (map_to_list (Stripe.refs s)) k s.
Proof.
  intros Hkv Hfit.
  destruct (purgeLocked_spec kv k s Hkv Hfit)
    as ([m1 o1 r1 a1 c1] & -> & E1).
  destruct (purgeLocked_spec (map_to_list (Stripe.refs s)) k s
              (reflexivity _) Hfit)
    as ([m2 o2 r2 a2 c2] & -> & E2).
  simpl in *. destruct E1 as (-> & -> & -> & -> & Hr1 & Hv1).
  destruct E2 as (-> & -> & -> & -> & Hr2 & Hv2).
  destruct c1, c2; simpl in *. by subst.
Qed.

Lemma I6_fits s : Inv.I6 s → Inv.fits s.
Proof.
  intros [_ H]. eapply Forall_impl; [exact H|]. simpl. intros. lia.
Qed.

Lemma nothingToDo_true k s :
  Stripe.nothingToDo k s = true ↔
  0 < Stripe.oldestEntryTs s ∧ k ≤ Stripe.oldestEntryTs s.
Proof.
  unfold Stripe.nothingToDo.
  rewrite andb_true_iff, !bool_decide_eq_true. done.
Qed.

Lemma purge_fast keepUntil s :
  Stripe.nothingToDo (time.UnixNano keepUntil) s = true →
  Stripe.purge keepUntil s = Some s.
Proof. unfold Stripe.purge. by intros ->. Qed.

Lemma purge_slow keepUntil s :
  Stripe.nothingToDo (time.UnixNano keepUntil) s = false →
  Stripe.purge keepUntil s
  = Stripe.purgeLocked (map_to_list (Stripe.refs s)) (time.UnixNano keepUntil) s.
Proof. unfold Stripe.purge. by intros ->. Qed.

(** Nothing is older than the cut-off when the shortcut is taken from a
    state where the hint is a lower bound. *)
Lemma nothingToDo_kept k s :
  Inv.I3 s → Stripe.nothingToDo k s = true →
  Forall (λ e, k ≤ nanos e) (Inv.entries s).
Proof.
  intros [H0|H] [Hpos Hk]%nothingToDo_true; [lia|].
  eapply Forall_impl; [exact H|]. simpl. intros. lia.
Qed.

Lemma purge_total keepUntil s :
  Inv.fits s → is_Some (Stripe.purge keepUntil s).
Proof.
  intros Hfit.
  destruct (Stripe.nothingToDo (time.UnixNano keepUntil) s) eqn:Hn.
  - rewrite purge_fast by done. by eexists.
  - rewrite purge_slow by done.
    destruct (purgeLocked_spec (map_to_list (Stripe.refs s))
                (time.UnixNano keepUntil) s) as (s' & -> & _); [done|done|].
    by eexists.
Qed.

(** The chains after [purge]. *)
Lemma purge_refs keepUntil s s' :
  Inv.I3 s → Inv.I4 s → Inv.fits s →
  Stripe.purge keepUntil s = Some s' →
  Stripe.refs s'
  = omap (λ es, nonEmpty (kept (time.UnixNano keepUntil) es)) (Stripe.refs s).
Proof.
  intros H3 H4 Hfit Hp.
  destruct (Stripe.nothingToDo (time.UnixNano keepUntil) s) eqn:Hn.
  - rewrite purge_fast in Hp by done. injection Hp as <-.
    apply map_eq. intros fp. rewrite lookup_omap.
    destruct (Stripe.refs s !! fp) as [es|] eqn:Hfp; [|done]. simpl.
    rewrite kept_all.
    + specialize (H4 fp es Hfp). simpl in H4. by destruct es.
    + pose proof (nothingToDo_kept _ _ H3 Hn) as Hall.
      apply Forall_entriesOf in Hall. by apply (Hall fp es).
  - rewrite purge_slow in Hp by done.
    destruct (purgeLocked_spec (map_to_list (Stripe.refs s))
                (time.UnixNano keepUntil) s) as (s1 & Hs1 & _ & Hr & _);
      [done|done|]. congruence.
Qed.

(** The entries after [purge] are the entries that are not older than the
    cut-off, in both paths. *)
Lemma purge_entries keepUntil s s' :
  Inv.I3 s → Inv.fits s →
  Stripe.purge keepUntil s = Some s' →
  Inv.entries s' ≡ₚ kept (time.UnixNano keepUntil) (Inv.entries s).
Proof.
  intros H3 Hfit Hp.
  destruct (Stripe.nothingToDo (time.UnixNano keepUntil) s) eqn:Hn.
  - rewrite purge_fast in Hp by done. injection Hp as <-.
    by rewrite kept_all by (by apply nothingToDo_kept).
  - rewrite purge_slow in Hp by done.
    destruct (purgeLocked_spec (map_to_list (Stripe.refs s))
                (time.UnixNano keepUntil) s) as (s1 & Hs1 & _ & Hr & _);
      [done|done|].
    assert (s1 = s') as -> by congruence.
    unfold Inv.entries. rewrite Hr. apply entriesOf_purged.
Qed.

Lemma purge_shape keepUntil s s' :
  Inv.fits s → Stripe.purge keepUntil s = Some s' →
  Stripe.matchers s' = Stripe.matchers s ∧
  slice.len (Stripe.activeMatching s') = slice.len (Stripe.activeMatching s) ∧
  slice.room (Stripe.activeMatching s') = slice.room (Stripe.activeMatching s).
Proof.
  intros Hfit Hp.
  destruct (Stripe.nothingToDo (time.UnixNano keepUntil) s) eqn:Hn.
  - rewrite purge_fast in Hp by done. by injection Hp as <-.
  - rewrite purge_slow in Hp by done.
    destruct (purgeLocked_spec (map_to_list (Stripe.refs s))
                (time.UnixNano keepUntil) s)
      as (s1 & Hs1 & Hm & _ & _ & _ & Hroom & Hv); [done|done|].
    assert (s1 = s') as -> by congruence.
    split; [done|]. split; [|done].
    unfold slice.len at 1. by rewrite Hv, length_fmap, length_seq.
Qed.

Lemma purge_I1_I2 keepUntil s s' :
  Inv.I1 s → Inv.I2 s → Inv.fits s →
  Stripe.purge keepUntil s = Some s' → Inv.I1 s' ∧ Inv.I2 s'.
Proof.
  intros H1 H2 Hfit Hp.
  destruct (Stripe.nothingToDo (time.UnixNano keepUntil) s) eqn:Hn.
  - rewrite purge_fast in Hp by done. by injection Hp as <-.
  - rewrite purge_slow in Hp by done.
    destruct (purgeLocked_spec (map_to_list (Stripe.refs s))
                (time.UnixNano keepUntil) s)
      as (s1 & Hs1 & _ & Hr & Ha & _ & _ & Hv); [done|done|].
    assert (s1 = s') as -> by congruence.
    assert (He : Inv.entries s' ≡ₚ kept (time.UnixNano keepUntil) (Inv.entries s)).
    { unfold Inv.entries. rewrite Hr. apply entriesOf_purged. }
    split.
    + unfold Inv.I1. by rewrite Ha, He.
    + intros i a. rewrite Hv, list_lookup_fmap.
      intros (j & Hj & ->)%fmap_Some.
      apply lookup_seq in Hj as [-> _]. by rewrite He.
Qed.

Lemma purge_I3 keepUntil s s' :
  Inv.I3 s → Inv.fits s →
  Stripe.purge keepUntil s = Some s' → Inv.I3 s'.
Proof.
  intros H3 Hfit Hp.
  destruct (Stripe.nothingToDo (time.UnixNano keepUntil) s) eqn:Hn.
  - rewrite purge_fast in Hp by done. by injection Hp as <-.
  - pose proof (purge_entries _ _ _ H3 Hfit Hp) as He.
    rewrite purge_slow in Hp by done.
    destruct (purgeLocked_spec (map_to_list (Stripe.refs s))
                (time.UnixNano keepUntil) s)
      as (s1 & Hs1 & _ & _ & _ & Ho & _); [done|done|].
    assert (s1 = s') as -> by congruence.
    unfold Inv.I3. rewrite Ho. unfold storedOldest.
    case_decide; [by left|]. right. rewrite He. apply minNanos_lower.
Qed.

Lemma purge_I4 keepUntil s s' :
  Inv.I4 s → Inv.fits s →
  Stripe.purge keepUntil s = Some s' → Inv.I4 s'.
Proof.
  intros H4 Hfit Hp.
  destruct (Stripe.nothingToDo (time.UnixNano keepUntil) s) eqn:Hn.
  - rewrite purge_fast in Hp by done. by injection Hp as <-.
  - rewrite purge_slow in Hp by done.
    destruct (purgeLocked_spec (map_to_list (Stripe.refs s))
                (time.UnixNano keepUntil) s)
      as (s1 & Hs1 & _ & Hr & _); [done|done|].
    assert (s1 = s') as -> by congruence.
    intros fp es. rewrite Hr, lookup_omap.
    destruct (Stripe.refs s !! fp) as [es0|]; simpl; [|done].
    by intros [-> ?]%nonEmpty_Some.
Qed.

Lemma purge_I6 keepUntil s s' :
  Inv.I6 s → Stripe.purge keepUntil s = Some s' → Inv.I6 s'.
Proof.
  intros H6 Hp. pose proof (I6_fits _ H6) as Hfit.
  destruct (Stripe.nothingToDo (time.UnixNano keepUntil) s) eqn:Hn.
  - rewrite purge_fast in Hp by done. by injection Hp as <-.
  - destruct (purge_shape _ _ _ Hfit Hp) as (Hm & Hl & _).
    rewrite purge_slow in Hp by done.
    destruct (purgeLocked_spec (map_to_list (Stripe.refs s))
                (time.UnixNano keepUntil) s)
      as (s1 & Hs1 & _ & Hr & _); [done|done|].
    assert (s1 = s') as -> by congruence.
    destruct H6 as [Hnames Hall]. split; [congruence|].
    unfold Inv.entries at 1. rewrite Hr, entriesOf_purged, Hl.
    by apply Forall_kept.
Qed.

Lemma purge_I5 keepUntil s s' :
  Inv.I5 s → Inv.fits s →
  Stripe.purge keepUntil s = Some s' → Inv.I5 s'.
Proof.
  intros H5 Hfit Hp.
  destruct (Stripe.nothingToDo (time.UnixNano keepUntil) s) eqn:Hn.
  - rewrite purge_fast in Hp by done. by injection Hp as <-.
  - rewrite purge_slow in Hp by done.
    destruct (purgeLocked_spec (map_to_list (Stripe.refs s))
                (time.UnixNano keepUntil) s)
      as (s1 & Hs1 & _ & Hr & _); [done|done|].
    assert (s1 = s') as -> by congruence.
    intros fp es. rewrite Hr, lookup_omap.
    destruct (Stripe.refs s !! fp) as [es0|] eqn:Hfp; simpl; [|done].
    intros [-> _]%nonEmpty_Some.
    specialize (H5 fp es0 Hfp). simpl in H5.
    eapply sublist_NoDup; [exact H5|].
    apply fmap_sublist, sublist_filter.
Qed.
End stripe_purge.

(** * [updateSeriesTimestamp] on a stripe *)

Section stripe_update.
Implicit Types (s : Stripe.activeSeriesStripe) (es : list activeSeriesEntry).

Lemma lookupLabels_Some l es i :
  lookupLabels l es = Some i →
  ∃ e, es !! i = Some e ∧ lbs e = l.
Proof.
  revert i. induction es as [|e es IH]; intros i; simpl; [done|].
  case_decide as He.
  - intros [= <-]. by exists e.
  - destruct (lookupLabels l es) as [j|]; simpl; [|done].
    intros [= <-]. by apply IH.
Qed.

Lemma lookupLabels_None l es :
  lookupLabels l es = None ↔ l ∉ lbs <$> es.
Proof.
  induction es as [|e es IH]; simpl.
  - split; [intros _; apply not_elem_of_nil|done].
  - rewrite not_elem_of_cons. case_decide as He.
    + split; [done|]. intros [? _]. by subst.
    + destruct (lookupLabels l es) as [j|]; simpl.
      * split; [done|]. intros [_ H]. by apply IH in H.
      * split; [|done]. intros _. split; [done|]. by apply IH.
Qed.

Lemma lookupLabels_is_Some l es :
  l ∈ lbs <$> es → is_Some (lookupLabels l es).
Proof.
  intros H. destruct (lookupLabels l es) eqn:E; [by eexists|].
  by apply lookupLabels_None in E.
Qed.

(** Writing the timestamp of an entry does not move it. *)
Lemma lookupLabels_insert l es i e v :
  es !! i = Some e →
  lookupLabels l (<[i := mkEntry (lbs e) v (matches e)]> es)
  = lookupLabels l es.
Proof.
  revert i. induction es as [|e0 es IH]; intros i Hi; [done|].
  destruct i as [|i]; simpl in *.
  - by injection Hi as ->.
  - by rewrite (IH i).
Qed.

Lemma lookupLabels_snoc l es e :
  lookupLabels l es = None → lbs e = l →
  lookupLabels l (es ++ [e]) = Some (length es).
Proof.
  intros Hn He. induction es as [|e0 es IH]; simpl in *.
  - by rewrite decide_True.
  - case_decide; [done|].
    destruct (lookupLabels l es); [done|]. by rewrite IH.
Qed.

Lemma update_found now series fp copy s i e :
  lookupLabels series (Stripe.chain s fp) = Some i →
  Stripe.chain s fp !! i = Some e →
  Stripe.updateSeriesTimestamp now series fp copy s
  = Some (if decide (nanos e < time.UnixNano now)
          then withHint (withNanos s fp i e (time.UnixNano now))
                 (time.UnixNano now)
          else s).
Proof.
  intros Hl He. unfold Stripe.updateSeriesTimestamp, Stripe.findEntryForSeries.
  rewrite Hl. simpl. unfold Stripe.load. rewrite He. simpl.
  case_decide as Hlt; [|done].
  unfold Stripe.cas. rewrite He. simpl. unfold CAS.
  rewrite decide_True by done. simpl.
  unfold withHint, withNanos. simpl. unfold CAS.
  case_decide; [|done]. by rewrite decide_True.
Qed.

Lemma update_new now series fp copy s counters :
  lookupLabels series (Stripe.chain s fp) = None →
  addMatches 0 (Matches (Stripe.matchers s) series) (Stripe.activeMatching s)
  = Some counters →
  Stripe.updateSeriesTimestamp now series fp copy s
  = Some (withHint
            (withEntry s fp
               (mkEntry (copy series) (time.UnixNano now)
                  (Matches (Stripe.matchers s) series)) counters)
            (time.UnixNano now)).
Proof.
  intros Hl Hc. unfold Stripe.updateSeriesTimestamp, Stripe.findEntryForSeries,
    Stripe.findOrCreateEntryForSeries.
  rewrite Hl, Hc. simpl.
  unfold withHint, withEntry. simpl. unfold CAS.
  case_decide; [|done]. by rewrite decide_True.
Qed.

Lemma update_inv now series fp copy s s' :
  Stripe.updateSeriesTimestamp now series fp copy s = Some s' →
  (∃ i e, lookupLabels series (Stripe.chain s fp) = Some i ∧
          Stripe.chain s fp !! i = Some e ∧ lbs e = series ∧
          s' = if decide (nanos e < time.UnixNano now)
               then withHint (withNanos s fp i e (time.UnixNano now))
                      (time.UnixNano now)
               else s) ∨
  (∃ counters,
      lookupLabels series (Stripe.chain s fp) = None ∧
      addMatches 0 (Matches (Stripe.matchers s) series)
        (Stripe.activeMatching s) = Some counters ∧
      s' = withHint
             (withEntry s fp
                (mkEntry (copy series) (time.UnixNano now)
                   (Matches (Stripe.matchers s) series)) counters)
             (time.UnixNano now)).
Proof.
  intros H.
  destruct (lookupLabels series (Stripe.chain s fp)) as [i|] eqn:Hl.
  - destruct (lookupLabels_Some _ _ _ Hl) as (e & He & Hlbs).
    rewrite (update_found _ _ _ _ _ i e) in H by done.
    left. exists i, e. by injection H as <-.
  - destruct (addMatches 0 (Matches (Stripe.matchers s) series)
                (Stripe.activeMatching s)) as [counters|] eqn:Hc.
    + rewrite (update_new _ _ _ _ _ counters) in H by done.
      right. exists counters. by injection H as <-.
    + unfold Stripe.updateSeriesTimestamp, Stripe.findEntryForSeries,
        Stripe.findOrCreateEntryForSeries in H. by rewrite Hl, Hc in H.
Qed.

Lemma length_Matches (m : list (string * (list (string * string) → bool))) series :
  length (Matches m series) = length (MatcherNames m).
Proof. unfold Matches, MatcherNames. by rewrite !length_fmap. Qed.

Lemma update_total now series fp copy s :
  Inv.I6 s → is_Some (Stripe.updateSeriesTimestamp now series fp copy s).
Proof.
  intros [Hn _].
  destruct (lookupLabels series (Stripe.chain s fp)) as [i|] eqn:Hl.
  - destruct (lookupLabels_Some _ _ _ Hl) as (e & He & _).
    rewrite (update_found _ _ _ _ _ i e) by done. by eexists.
  - destruct (addMatches_total (Matches (Stripe.matchers s) series) 0
                (Stripe.activeMatching s)) as [counters Hc].
    { rewrite length_Matches. simpl. lia. }
    rewrite (update_new _ _ _ _ _ counters) by done. by eexists.
Qed.

(** ** The entries of the states that an update can produce *)

Lemma entries_withHint s v : Inv.entries (withHint s v) = Inv.entries s.
Proof. done. Qed.

Lemma entries_withNanos s fp i e v :
  Inv.entries (withNanos s fp i e v)
  ≡ₚ <[i := mkEntry (lbs e) v (matches e)]> (Stripe.chain s fp)
     ++ entriesOf (delete fp (Stripe.refs s)).
Proof. unfold Inv.entries, withNanos. simpl. apply entriesOf_insert. Qed.

Lemma entries_withEntry s fp e counters :
  Inv.entries (withEntry s fp e counters) ≡ₚ e :: Inv.entries s.
Proof.
  unfold Inv.entries at 1. unfold withEntry. simpl.
  rewrite entriesOf_insert, (entries_split s fp).
  rewrite <- app_assoc. simpl.
  by rewrite <- Permutation_middle.
Qed.

Lemma chain_nonempty s fp i e :
  Stripe.chain s fp !! i = Some e →
  Stripe.refs s !! fp = Some (Stripe.chain s fp).
Proof.
  unfold Stripe.chain. destruct (Stripe.refs s !! fp); simpl; [done|].
  by rewrite lookup_nil.
Qed.

Lemma hits_insert j es i e e' :
  es !! i = Some e → matches e' = matches e →
  hits j (<[i := e']> es) = hits j es.
Proof.
  intros Hi Hm. rewrite <- (take_drop_middle es i e Hi) at 2.
  rewrite (insert_take_drop es i e') by (by eapply lookup_lt_Some).
  rewrite !hits_app, !hits_cons. by rewrite Hm.
Qed.

Lemma update_I1_I2 now series fp copy s s' :
  Inv.I1 s → Inv.I2 s →
  Stripe.updateSeriesTimestamp now series fp copy s = Some s' →
  Inv.I1 s' ∧ Inv.I2 s'.
Proof.
  intros H1 H2 [(i & e & Hl & He & _ & ->)|(c & Hl & Hc & ->)]%update_inv.
  - case_decide; [|done].
    unfold Inv.I1, Inv.I2 in *. rewrite entries_withHint. simpl.
    pose proof (entries_split s fp) as Hs. split.
    + rewrite entries_withNanos, H1, Hs, !length_app, length_insert. done.
    + intros j a Hj. rewrite (H2 j a Hj), entries_withNanos, Hs, !hits_app.
      by rewrite (hits_insert _ _ _ e).
  - unfold Inv.I1, Inv.I2 in *. rewrite entries_withHint. simpl.
    apply addMatches_0 in Hc as (_ & _ & Hv). split.
    + rewrite entries_withEntry, H1. simpl. lia.
    + intros j a. rewrite Hv, entries_withEntry, hits_cons. simpl.
      intros (a0 & Ha0 & ->)%fmap_Some. rewrite (H2 j a0 Ha0). lia.
Qed.

Lemma update_I3 now series fp copy s s' :
  Inv.I3 s →
  Stripe.updateSeriesTimestamp now series fp copy s = Some s' →
  Inv.I3 s'.
Proof.
  intros H3 [(i & e & Hl & He & _ & ->)|(c & Hl & Hc & ->)]%update_inv.
  - case_decide as Hlt; [|done].
    unfold Inv.I3 in *. rewrite entries_withHint. simpl.
    case_decide as Ho; [by left|].
    destruct H3 as [H0|H3]; [by left|]. right.
    rewrite entries_withNanos.
    rewrite (entries_split s fp) in H3.
    apply Forall_app in H3 as [Hc Hr]. apply Forall_app. split; [|done].
    apply Forall_insert; [done|]. simpl. lia.
  - unfold Inv.I3 in *. rewrite entries_withHint. simpl.
    case_decide as Ho; [by left|].
    destruct H3 as [H0|H3]; [by left|]. right.
    rewrite entries_withEntry. constructor; [simpl; lia|done].
Qed.

Lemma update_I4 now series fp copy s s' :
  Inv.I4 s →
  Stripe.updateSeriesTimestamp now series fp copy s = Some s' →
  Inv.I4 s'.
Proof.
  intros H4 [(i & e & Hl & He & _ & ->)|(c & Hl & Hc & ->)]%update_inv.
  - case_decide as Hlt; [|done].
    unfold Inv.I4, withHint, withNanos. simpl.
    apply map_Forall_insert_2; [|done].
    intros Hnil. apply (f_equal length) in Hnil.
    rewrite length_insert in Hnil. apply lookup_lt_Some in He. simpl in *. lia.
  - unfold Inv.I4, withHint, withEntry. simpl.
    apply map_Forall_insert_2; [|done]. by destruct (Stripe.chain s fp).
Qed.

Lemma update_I5 now series fp copy s s' :
  Inv.I5 s → copy series = series →
  Stripe.updateSeriesTimestamp now series fp copy s = Some s' →
  Inv.I5 s'.
Proof.
  intros H5 Hcopy [(i & e & Hl & He & _ & ->)|(c & Hl & Hc & ->)]%update_inv.
  - case_decide as Hlt; [|done].
    unfold Inv.I5, withHint, withNanos. simpl.
    apply map_Forall_insert_2; [|done].
    rewrite list_fmap_insert. simpl.
    rewrite list_insert_id by (by rewrite list_lookup_fmap, He).
    apply (H5 fp). by eapply chain_nonempty.
  - unfold Inv.I5, withHint, withEntry. simpl.
    apply map_Forall_insert_2; [|done].
    rewrite fmap_app. simpl. rewrite Hcopy.
    apply NoDup_app. split; [|split].
    + unfold Stripe.chain. destruct (Stripe.refs s !! fp) as [es|] eqn:Hfp;
        simpl; [by apply (H5 fp)|constructor].
    + intros l Hin ->%list_elem_of_singleton.
      by apply lookupLabels_None in Hl.
    + apply NoDup_singleton.
Qed.

Lemma update_I6 now series fp copy s s' :
  Inv.I6 s →
  Stripe.updateSeriesTimestamp now series fp copy s = Some s' →
  Inv.I6 s'.
Proof.
  intros [Hn H6] [(i & e & Hl & He & _ & ->)|(c & Hl & Hc & ->)]%update_inv.
  - case_decide as Hlt; [|done].
    unfold Inv.I6 in *. rewrite entries_withHint. simpl. split; [done|].
    rewrite entries_withNanos.
    rewrite (entries_split s fp) in H6.
    apply Forall_app in H6 as [H6c H6r]. apply Forall_app. split; [|done].
    apply Forall_insert; [done|]. simpl.
    rewrite Forall_forall in H6c. apply H6c. by eapply list_elem_of_lookup_2.
  - unfold Inv.I6 in *. rewrite entries_withHint. simpl.
    apply addMatches_0 in Hc as (_ & Hlen & _). split; [congruence|].
    rewrite entries_withEntry, Hlen. constructor; [|done]. simpl.
    by rewrite length_Matches.
Qed.

Lemma update_matchers now series fp copy s s' :
  Stripe.updateSeriesTimestamp now series fp copy s = Some s' →
  Stripe.matchers s' = Stripe.matchers s.
Proof.
  intros [(i & e & Hl & He & _ & ->)|(c & Hl & Hc & ->)]%update_inv; [|done].
  by case_decide.
Qed.
End stripe_update.

(** * The tracker *)

Section tracker_facts.
Implicit Types (c : ActiveSeries) (s : Stripe.activeSeriesStripe).

(** ** [getTotalAndUpdateMatching] and the summing loop of [Active] *)

Lemma addInto_spec (l : list Z) : ∀ (i0 : nat) (m : slice.t),
  (i0 + length l ≤ slice.len m)%nat →
  ∃ m',
    forEach (λ (ia : nat * Z) (m : slice.t),
               v ← slice.get m ia.1; slice.set m ia.1 (v + ia.2))
      (imap (λ i a, ((i0 + i)%nat, a)) l) m = Some m' ∧
    slice.room m' = slice.room m ∧ slice.len m' = slice.len m ∧
    ∀ j, slice.vals m' !! j
         = (λ v, v + (if decide (i0 ≤ j)%nat then default 0 (l !! (j - i0)%nat)
                      else 0)) <$> slice.vals m !! j.
Proof.
  induction l as [|a l IH]; intros i0 m Hlen; simpl in *.
  - exists m. split; [done|]. split; [done|]. split; [done|]. intros j.
    destruct (slice.vals m !! j); simpl; [|done]. f_equal.
    case_decide; rewrite ?lookup_nil; simpl; lia.
  - rewrite Nat.add_0_r.
    destruct (lookup_lt_is_Some_2 (slice.vals m) i0) as [v Hv];
      [unfold slice.len in Hlen; lia|].
    assert (Hstep : slice.get m i0 ≫= (λ v, slice.set m i0 (v + a))
                    = Some (slice.mk (<[i0 := v + a]> (slice.vals m))
                              (slice.room m))).
    { unfold slice.get, slice.set. rewrite Hv. simpl.
      rewrite decide_True; [done|]. by eapply lookup_lt_Some. }
    rewrite Hstep. simpl.
    destruct (IH (S i0) (slice.mk (<[i0 := v + a]> (slice.vals m)) (slice.room m)))
      as (m' & Hm' & Hr & Hl & Hvals).
    { unfold slice.len in *. simpl. rewrite length_insert. lia. }
    exists m'. split.
    { rewrite <- Hm'. f_equal. apply imap_ext. intros. simpl. f_equal. lia. }
    split; [done|].
    split; [rewrite Hl; unfold slice.len; simpl; by rewrite length_insert|].
    intros j. rewrite Hvals. simpl.
    destruct (decide (i0 = j)) as [<-|Hne].
    + rewrite list_lookup_insert_eq by (by eapply lookup_lt_Some).
      rewrite Hv. simpl. f_equal. rewrite decide_False by lia.
      rewrite decide_True by lia. rewrite Nat.sub_diag. simpl. lia.
    + rewrite list_lookup_insert_ne by done.
      destruct (slice.vals m !! j); simpl; [|done]. f_equal.
      destruct (decide (S i0 ≤ j)%nat).
      * rewrite decide_True by lia.
        replace (j - i0)%nat with (S (j - S i0)) by lia. done.
      * rewrite decide_False by lia. done.
Qed.

Lemma getTotal_spec s (m : slice.t) :
  (slice.len (Stripe.activeMatching s) ≤ slice.len m)%nat →
  ∃ m', Stripe.getTotalAndUpdateMatching s m = Some (Stripe.active s, m') ∧
    slice.room m' = slice.room m ∧ slice.len m' = slice.len m ∧
    ∀ j, slice.vals m' !! j
         = (λ v, v + default 0 (slice.vals (Stripe.activeMatching s) !! j))
             <$> slice.vals m !! j.
Proof.
  intros Hlen. unfold Stripe.getTotalAndUpdateMatching.
  destruct (addInto_spec (slice.vals (Stripe.activeMatching s)) 0 m)
    as (m' & Hm' & Hr & Hl & Hv); [simpl; unfold slice.len in *; lia|].
  simpl in Hm'. rewrite Hm'. simpl. exists m'. split; [done|].
  split; [done|]. split; [done|]. intros j. rewrite Hv.
  destruct (slice.vals m !! j); simpl; [|done]. by rewrite Nat.sub_0_r.
Qed.

Lemma getTotal_active s (m : slice.t) a m' :
  Stripe.getTotalAndUpdateMatching s m = Some (a, m') → a = Stripe.active s.
Proof.
  unfold Stripe.getTotalAndUpdateMatching.
  destruct (forEach _ _ _); simpl; [|done]. by intros [= <- _].
Qed.

Lemma sumLoop_total_is ss : ∀ acc t m,
  forEach addStripe ss acc = Some (t, m) → t = acc.1 + sumActive ss.
Proof.
  induction ss as [|s ss IH]; intros acc t m; simpl.
  - intros [= ->]. simpl. lia.
  - destruct (addStripe s acc) as [[t1 m1]|] eqn:Hs; simpl; [|done].
    intros H. apply IH in H. simpl in H. unfold addStripe in Hs.
    destruct (Stripe.getTotalAndUpdateMatching s acc.2) as [[a m2]|] eqn:Hg;
      simpl in Hs; [|done].
    apply getTotal_active in Hg as ->. injection Hs as <- _. lia.
Qed.

Lemma sumLoop_spec ss : ∀ (acc : Z * slice.t),
  Forall (λ s, slice.len (Stripe.activeMatching s) ≤ slice.len acc.2)%nat ss →
  ∃ m', forEach addStripe ss acc = Some (acc.1 + sumActive ss, m') ∧
    slice.room m' = slice.room acc.2 ∧ slice.len m' = slice.len acc.2 ∧
    ∀ j, slice.vals m' !! j
         = (λ v, v + sumMatching j ss) <$> slice.vals acc.2 !! j.
Proof.
  induction ss as [|s ss IH]; intros [t m] Hall.
  - exists m. simpl. split; [do 2 f_equal; lia|]. split; [done|].
    split; [done|]. intros j.
    destruct (slice.vals m !! j); simpl; [f_equal; lia|done].
  - inversion Hall as [|?? Hs Hss]; subst. simpl in Hs.
    destruct (getTotal_spec s m Hs) as (m1 & Hm1 & Hr1 & Hl1 & Hv1).
    assert (Hstep : addStripe s (t, m) = Some (t + Stripe.active s, m1)).
    { unfold addStripe. simpl. by rewrite Hm1. }
    destruct (IH (t + Stripe.active s, m1)) as (m' & Hm' & Hr & Hl & Hv).
    { simpl in *. by rewrite Hl1. }
    exists m'. rewrite forEach_cons, Hstep. simpl in *. split.
    { rewrite Hm'. do 2 f_equal. lia. }
    split; [congruence|]. split; [congruence|]. intros j.
    rewrite Hv, Hv1. destruct (slice.vals m !! j); simpl; [f_equal; lia|done].
Qed.

(** ** [purge], [Active], [ReloadMatchers] and [UpdateSeries] *)

Lemma wfStripes_fits c : wfStripes c → Forall Inv.fits (stripes c).
Proof.
  intros H. eapply Forall_impl; [exact H|]. simpl.
  intros s [H6 _]. by apply I6_fits.
Qed.

Lemma tracker_purge_spec keepUntil c :
  Forall Inv.fits (stripes c) →
  ∃ ss, purge keepUntil c
        = Some (mkActiveSeries ss (matchers c) (lastMatchersUpdate c) (timeout c)) ∧
        Forall2 (λ s s', Stripe.purge keepUntil s = Some s') (stripes c) ss.
Proof.
  intros Hfit. unfold purge.
  destruct (mapM (Stripe.purge keepUntil) (stripes c)) as [ss|] eqn:Hm.
  - exists ss. split; [done|]. by apply mapM_Some.
  - exfalso. assert (is_Some (mapM (Stripe.purge keepUntil) (stripes c))) as [? ?].
    { apply mapM_is_Some. eapply Forall_impl; [exact Hfit|].
      intros s Hs. by apply purge_total. }
    congruence.
Qed.

Lemma tracker_purge_inv keepUntil c c' :
  purge keepUntil c = Some c' →
  matchers c' = matchers c ∧ lastMatchersUpdate c' = lastMatchersUpdate c ∧
  timeout c' = timeout c ∧
  Forall2 (λ s s', Stripe.purge keepUntil s = Some s') (stripes c) (stripes c').
Proof.
  unfold purge.
  destruct (mapM (Stripe.purge keepUntil) (stripes c)) as [ss|] eqn:Hm;
    simpl; [|done].
  intros [= <-]. simpl. by apply mapM_Some in Hm.
Qed.

Lemma tracker_purge_length keepUntil c c' :
  purge keepUntil c = Some c' → length (stripes c') = length (stripes c).
Proof.
  intros (_ & _ & _ & H2)%tracker_purge_inv.
  by rewrite <- (Forall2_length _ _ _ H2).
Qed.

Lemma tracker_purge_wfStripes keepUntil c c' :
  wfStripes c → purge keepUntil c = Some c' → wfStripes c'.
Proof.
  unfold wfStripes. intros Hall (Hm & _ & _ & H2)%tracker_purge_inv.
  rewrite Hm. induction H2 as [|s s' ss ss' Hs _ IH]; [constructor|].
  inversion Hall as [|?? [H6 Hms] Hall']; subst. constructor; [|by apply IH].
  split; [by eapply purge_I6|].
  destruct (purge_shape _ _ _ (I6_fits _ H6) Hs) as (-> & _). done.
Qed.

Lemma tracker_purge_wf keepUntil c c' :
  wf c → purge keepUntil c = Some c' → wf c'.
Proof.
  intros [Hlen Hall] Hp. split.
  - by rewrite (tracker_purge_length _ _ _ Hp).
  - by eapply tracker_purge_wfStripes.
Qed.

(** Stripe by stripe: what holds before [purge] for every stripe and is
    kept by the [purge] of a stripe holds after it. *)
Lemma Forall2_purge_preserves (P : Stripe.activeSeriesStripe → Prop)
    keepUntil ss ss' :
  (∀ s s', P s → Inv.fits s → Stripe.purge keepUntil s = Some s' → P s') →
  Forall P ss → Forall Inv.fits ss →
  Forall2 (λ s s', Stripe.purge keepUntil s = Some s') ss ss' →
  Forall P ss'.
Proof.
  intros Hstep HP Hfit H2.
  induction H2 as [|s s' ss ss' Hs _ IH]; [constructor|].
  inversion HP; inversion Hfit; subst. constructor; eauto.
Qed.

Lemma Active_inv clock c c' total tm valid :
  Active clock c = Some (c', (total, tm, valid)) →
  purge (purgeTime clock c) c = Some c' ∧
  total = sumActive (stripes c') ∧
  valid = time.After (purgeTime clock c) (lastMatchersUpdate c).
Proof.
  unfold Active.
  destruct (purge (purgeTime clock c) c) as [c1|] eqn:Hp; simpl; [|done].
  destruct (resizeAndClear _ _) as [tm0|]; simpl; [|done].
  destruct (forEach addStripe (stripes c1) (0, tm0)) as [[t m]|] eqn:Hl;
    simpl; [|done].
  intros [= <- <- <- <-]. split; [done|].
  apply sumLoop_total_is in Hl. simpl in Hl. split; [lia|].
  by apply tracker_purge_inv in Hp as (_ & -> & _).
Qed.

Lemma Active_spec clock c :
  wfStripes c →
  ∃ c' tm,
    Active clock c
    = Some (c', (sumActive (stripes c'), tm,
                 time.After (purgeTime clock c) (lastMatchersUpdate c))) ∧
    purge (purgeTime clock c) c = Some c' ∧ wfStripes c' ∧
    slice.vals tm
    = (λ j, sumMatching j (stripes c'))
        <$> seq 0 (length (MatcherNames (matchers c))).
Proof.
  intros Hwf.
  destruct (tracker_purge_spec (purgeTime clock c) c (wfStripes_fits _ Hwf))
    as (ss & Hp & H2).
  pose proof (tracker_purge_wfStripes _ _ _ Hwf Hp) as Hwf'.
  unfold Active. rewrite Hp. simpl.
  set (n := length (MatcherNames (matchers c))).
  destruct (resizeAndClear n slice.nil) as [tm0|] eqn:Htm0;
    [|by rewrite resizeAndClear_owned in Htm0].
  apply resizeAndClear_vals in Htm0 as Hv0. simpl.
  destruct (sumLoop_spec ss (0, tm0)) as (m' & Hm' & _ & Hl & Hv).
  { pose proof Hwf' as Hall. unfold wfStripes in Hall. simpl in *.
    eapply Forall_impl; [exact Hall|]. simpl. intros s [[Hn _] Hm].
    unfold slice.len at 2. rewrite Hv0, length_replicate.
    rewrite <- Hn, Hm. unfold n. lia. }
  simpl in *. rewrite Hm'. simpl.
  exists (mkActiveSeries ss (matchers c) (lastMatchersUpdate c) (timeout c)), m'.
  split; [done|]. split; [done|]. split; [done|]. simpl.
  apply list_eq. intros j. rewrite Hv, Hv0, list_lookup_fmap.
  destruct (decide (j < n)%nat).
  - by rewrite lookup_replicate_2, lookup_seq_lt by done.
  - rewrite (proj1 (lookup_replicate_None _ _ _)) by lia.
    by rewrite lookup_seq_ge by lia.
Qed.

Lemma stripeID_lt fp : (stripeID fp < numActiveSeriesStripes)%nat.
Proof.
  unfold stripeID, numActiveSeriesStripes.
  pose proof (N.mod_upper_bound fp (N.of_nat 512)). lia.
Qed.

Lemma reinitialize_spec asm s :
  ∃ s', Stripe.reinitialize asm s = Some s' ∧ reinitialized asm s'.
Proof.
  unfold Stripe.reinitialize. rewrite resizeAndClear_owned. simpl.
  eexists. split; [done|]. unfold reinitialized. simpl.
  repeat split. by case_decide.
Qed.

Lemma reinitialized_inv asm s :
  reinitialized asm s →
  Inv.I1 s ∧ Inv.I2 s ∧ Inv.I3 s ∧ Inv.I4 s ∧ Inv.I5 s ∧ Inv.I6 s.
Proof.
  intros (Hm & Ho & Hr & Ha & Hv).
  unfold Inv.I1, Inv.I2, Inv.I3, Inv.I4, Inv.I5, Inv.I6, Inv.entries.
  rewrite Hr, entriesOf_empty, Ha, Ho, Hv, Hm. unfold slice.len. rewrite Hv.
  split; [done|]. split.
  { intros i a [-> _]%lookup_replicate. by rewrite hits_nil. }
  split; [by left|]. split; [apply map_Forall_empty|].
  split; [apply map_Forall_empty|]. split; [by rewrite length_replicate|].
  constructor.
Qed.

Lemma ReloadMatchers_spec asm clock c :
  ∃ ss, ReloadMatchers asm clock c
        = Some (mkActiveSeries ss asm clock (timeout c)) ∧
        length ss = length (stripes c) ∧ Forall (reinitialized asm) ss.
Proof.
  unfold ReloadMatchers.
  destruct (mapM (Stripe.reinitialize asm) (stripes c)) as [ss|] eqn:Hm.
  - exists ss. split; [done|]. apply mapM_Some in Hm.
    split; [by rewrite (Forall2_length _ _ _ Hm)|].
    induction Hm as [|s s' l l' Hs _ IH]; constructor; [|done].
    destruct (reinitialize_spec asm s) as (s1 & Hs1 & Hr). congruence.
  - exfalso.
    assert (is_Some (mapM (Stripe.reinitialize asm) (stripes c))) as [? ?];
      [|congruence].
    apply mapM_is_Some, Forall_forall. intros s _. simpl.
    destruct (reinitialize_spec asm s) as (s1 & -> & _). by eexists.
Qed.

Lemma newStripes_spec asm n :
  ∃ ss, newStripes n asm = Some ss ∧ length ss = n ∧
        Forall (reinitialized asm) ss.
Proof.
  induction n as [|n (ss & Hss & Hl & Hall)]; simpl.
  - exists []. split; [done|]. split; [done|]. constructor.
  - rewrite resizeAndClear_owned, Hss. simpl. eexists. split; [done|].
    split; [simpl; by rewrite Hl|]. constructor; [|done].
    unfold reinitialized. simpl. repeat split. by case_decide.
Qed.

Lemma NewActiveSeries_spec asm idleTimeout :
  ∃ ss, NewActiveSeries asm idleTimeout
        = Some (mkActiveSeries ss asm time.zero idleTimeout) ∧
        length ss = numActiveSeriesStripes ∧ Forall (reinitialized asm) ss.
Proof.
  unfold NewActiveSeries.
  destruct (newStripes_spec asm numActiveSeriesStripes) as (ss & -> & Hl & H).
  by exists ss.
Qed.

Lemma reinitialized_wf ss asm last idle :
  length ss = numActiveSeriesStripes → Forall (reinitialized asm) ss →
  wf (mkActiveSeries ss asm last idle).
Proof.
  intros Hl Hall. split; [done|]. unfold wfStripes. simpl.
  eapply Forall_impl; [exact Hall|]. simpl. intros s Hs.
  split; [by apply (reinitialized_inv asm)|]. by destruct Hs.
Qed.

Section update_series.
Variable Hash : list (string * string) → N.

Lemma UpdateSeries_inv series now copy c c' :
  UpdateSeries Hash series now copy c = Some c' →
  ∃ s s', stripes c !! stripeID (Hash series) = Some s ∧
    Stripe.updateSeriesTimestamp now series (Hash series) copy s = Some s' ∧
    c' = mkActiveSeries (<[stripeID (Hash series) := s']> (stripes c))
           (matchers c) (lastMatchersUpdate c) (timeout c).
Proof.
  unfold UpdateSeries.
  destruct (stripes c !! stripeID (Hash series)) as [s|]; simpl; [|done].
  destruct (Stripe.updateSeriesTimestamp _ _ _ _ s) as [s'|] eqn:Hs;
    simpl; [|done].
  intros [= <-]. by exists s, s'.
Qed.

Lemma UpdateSeries_total series now copy c :
  wf c → is_Some (UpdateSeries Hash series now copy c).
Proof.
  intros [Hlen Hall]. unfold UpdateSeries.
  destruct (lookup_lt_is_Some_2 (stripes c) (stripeID (Hash series)))
    as [s Hs]; [rewrite Hlen; apply stripeID_lt|].
  rewrite Hs. simpl. unfold wfStripes in Hall.
  rewrite Forall_forall in Hall.
  destruct (Hall s) as [H6 _]; [by eapply list_elem_of_lookup_2|].
  destruct (update_total now series (Hash series) copy s H6) as [s' ->].
  by eexists.
Qed.

(** What a stripe-wise property needs to survive [UpdateSeries]. *)
Lemma UpdateSeries_preserves (P : Stripe.activeSeriesStripe → Prop)
    series now copy c c' :
  (∀ s s', P s →
     Stripe.updateSeriesTimestamp now series (Hash series) copy s = Some s' →
     P s') →
  Forall P (stripes c) →
  UpdateSeries Hash series now copy c = Some c' →
  Forall P (stripes c').
Proof.
  intros Hstep HP (s & s' & Hs & Hu & ->)%UpdateSeries_inv. simpl.
  apply Forall_insert; [done|]. eapply Hstep; [|done].
  rewrite Forall_forall in HP. apply HP. by eapply list_elem_of_lookup_2.
Qed.

Lemma UpdateSeries_wf series now copy c c' :
  wf c → UpdateSeries Hash series now copy c = Some c' → wf c'.
Proof.
  intros [Hlen Hall] Hu. split.
  - apply UpdateSeries_inv in Hu as (s & s' & _ & _ & ->). simpl.
    by rewrite length_insert.
  - unfold wfStripes in *. assert (matchers c' = matchers c) as ->.
    { by apply UpdateSeries_inv in Hu as (s & s' & _ & _ & ->). }
    eapply UpdateSeries_preserves; [|exact Hall|exact Hu].
    intros s s' [H6 Hm] Hs. split; [by eapply update_I6|].
    by rewrite (update_matchers _ _ _ _ _ _ Hs).
Qed.
End update_series.

(** ** After a reload *)

Lemma purge_reinitialized asm keepUntil s :
  reinitialized asm s →
  ∃ s', Stripe.purge keepUntil s = Some s' ∧ reinitialized asm s'.
Proof.
  intros (Hm & Ho & Hr & Ha & Hv).
  assert (Hn : Stripe.nothingToDo (time.UnixNano keepUntil) s = false).
  { unfold Stripe.nothingToDo. rewrite Ho. by rewrite bool_decide_eq_false_2. }
  assert (He : Inv.entries s = []).
  { unfold Inv.entries. by rewrite Hr, entriesOf_empty. }
  rewrite purge_slow by done.
  destruct (purgeLocked_spec (map_to_list (Stripe.refs s))
              (time.UnixNano keepUntil) s)
    as (s' & Hs' & Hm' & Hr' & Ha' & Ho' & _ & Hv'); [done| |].
  { unfold Inv.fits. rewrite He. constructor. }
  exists s'. split; [done|]. unfold reinitialized.
  rewrite Hm', Hm, Ho', Hr', Ha', Hv', Hr, He, omap_empty.
  split; [done|]. split; [done|]. split; [done|]. split; [done|].
  unfold slice.len. rewrite Hv, length_replicate.
  apply list_eq. intros j. rewrite list_lookup_fmap.
  destruct (decide (j < length (MatcherNames asm))%nat).
  - by rewrite lookup_replicate_2, lookup_seq_lt by done.
  - rewrite (proj1 (lookup_replicate_None _ _ _)) by lia.
    by rewrite lookup_seq_ge by lia.
Qed.

Lemma sumActive_reinitialized asm ss :
  Forall (reinitialized asm) ss → sumActive ss = 0.
Proof.
  induction 1 as [|s ss (_ & _ & _ & Ha & _) _ IH]; simpl; [done|].
  rewrite Ha, IH. done.
Qed.

Lemma sumMatching_reinitialized asm j ss :
  Forall (reinitialized asm) ss → sumMatching j ss = 0.
Proof.
  induction 1 as [|s ss (_ & _ & _ & _ & Hv) _ IH]; simpl; [done|].
  rewrite Hv, IH.
  destruct (replicate _ _ !! j) as [a|] eqn:E; simpl; [|done].
  apply lookup_replicate in E as [-> _]. done.
Qed.


(** ** Calling [UpdateSeries] again *)

Lemma chain_withNanos s fp i e v :
  Stripe.chain (withHint (withNanos s fp i e v) v) fp
  = <[i := mkEntry (lbs e) v (matches e)]> (Stripe.chain s fp).
Proof. unfold Stripe.chain at 1. simpl. by rewrite lookup_insert_eq. Qed.

Lemma chain_withEntry s fp e counters v :
  Stripe.chain (withHint (withEntry s fp e counters) v) fp
  = Stripe.chain s fp ++ [e].
Proof. unfold Stripe.chain at 1. simpl. by rewrite lookup_insert_eq. Qed.

(** After an update the series has an entry, first of its labels in the
    chain, and its timestamp is not before the time of the update. *)
Lemma update_entry now series fp copy s s' :
  copy series = series →
  Stripe.updateSeriesTimestamp now series fp copy s = Some s' →
  ∃ i e, lookupLabels series (Stripe.chain s' fp) = Some i ∧
         Stripe.chain s' fp !! i = Some e ∧ time.UnixNano now ≤ nanos e.
Proof.
  intros Hcopy [(i & e & Hl & He & _ & ->)|(c & Hl & Hc & ->)]%update_inv.
  - case_decide as Hlt.
    + rewrite chain_withNanos. eexists i, _.
      rewrite (lookupLabels_insert _ _ _ e) by done.
      split; [done|].
      split; [apply list_lookup_insert_eq; by eapply lookup_lt_Some|].
      simpl. lia.
    + exists i, e. split; [done|]. split; [done|]. lia.
  - rewrite chain_withEntry. eexists _, _.
    split; [by apply lookupLabels_snoc|].
    split; [by apply list_lookup_middle|simpl; lia].
Qed.

(** An update at a time that is not after the stored timestamp changes
    nothing. *)
Lemma update_stale now series fp copy s i e :
  lookupLabels series (Stripe.chain s fp) = Some i →
  Stripe.chain s fp !! i = Some e → time.UnixNano now ≤ nanos e →
  Stripe.updateSeriesTimestamp now series fp copy s = Some s.
Proof.
  intros Hl He Hle. rewrite (update_found _ _ _ _ _ i e) by done.
  by rewrite decide_False by lia.
Qed.

Lemma update_twice now series fp copy s s' :
  copy series = series →
  Stripe.updateSeriesTimestamp now series fp copy s = Some s' →
  Stripe.updateSeriesTimestamp now series fp copy s' = Some s'.
Proof.
  intros Hcopy Hs.
  destruct (update_entry _ _ _ _ _ _ Hcopy Hs) as (i & e & Hl & He & Hle).
  by eapply update_stale.
Qed.
End tracker_facts.

Section stored_facts.
Variable Hash : list (string * string) → N.

Lemma stored_Some c series ts :
  stored Hash c series = Some ts ↔
  ∃ s i e, stripes c !! stripeID (Hash series) = Some s ∧
           lookupLabels series (Stripe.chain s (Hash series)) = Some i ∧
           Stripe.chain s (Hash series) !! i = Some e ∧ nanos e = ts.
Proof.
  unfold stored, Stripe.findEntryForSeries, Stripe.load. split.
  - destruct (stripes c !! _) as [s|] eqn:Hs; simpl; [|done].
    destruct (lookupLabels _ _) as [i|] eqn:Hl; simpl; [|done].
    destruct (Stripe.chain s _ !! i) as [e|] eqn:He; simpl; [|done].
    intros [= <-]. by exists s, i, e.
  - intros (s & i & e & -> & Hl & He & <-). simpl. rewrite Hl. simpl.
    by rewrite He.
Qed.

Lemma stored_insert c series s' ts :
  (stripeID (Hash series) < length (stripes c))%nat →
  stored Hash
    (mkActiveSeries (<[stripeID (Hash series) := s']> (stripes c))
       (matchers c) (lastMatchersUpdate c) (timeout c)) series = Some ts ↔
  ∃ i e, lookupLabels series (Stripe.chain s' (Hash series)) = Some i ∧
         Stripe.chain s' (Hash series) !! i = Some e ∧ nanos e = ts.
Proof.
  intros Hlt. rewrite stored_Some. simpl.
  rewrite list_lookup_insert_eq by done. split.
  - intros (s & i & e & [= <-] & ?). by exists i, e.
  - intros (i & e & ?). by exists s', i, e.
Qed.

(** The stored timestamp after an update of a series that has an entry. *)
Lemma stored_advance c series now copy prev :
  stored Hash c series = Some prev →
  ∃ c', UpdateSeries Hash series now copy c = Some c' ∧
        stored Hash c' series = Some (Z.max prev (time.UnixNano now)).
Proof.
  intros (s & i & e & Hs & Hl & He & <-)%stored_Some.
  unfold UpdateSeries. rewrite Hs. simpl.
  rewrite (update_found _ _ _ _ _ i e) by done. simpl.
  eexists. split; [done|]. apply stored_insert; [by eapply lookup_lt_Some|].
  case_decide as Hlt.
  - rewrite chain_withNanos. eexists i, _.
    rewrite (lookupLabels_insert _ _ _ e) by done. split; [done|].
    split; [apply list_lookup_insert_eq; by eapply lookup_lt_Some|].
    simpl. lia.
  - exists i, e. split; [done|]. split; [done|]. lia.
Qed.

Lemma UpdateSeries_stored c series now copy c' :
  copy series = series →
  UpdateSeries Hash series now copy c = Some c' →
  ∃ ts, stored Hash c' series = Some ts ∧ time.UnixNano now ≤ ts.
Proof.
  intros Hcopy (s & s' & Hs & Hu & ->)%UpdateSeries_inv.
  destruct (update_entry _ _ _ _ _ _ Hcopy Hu) as (i & e & Hl & He & Hle).
  exists (nanos e). split; [|done].
  apply stored_insert; [by eapply lookup_lt_Some|]. by exists i, e.
Qed.

Lemma UpdateSeries_stale c series now copy ts :
  stored Hash c series = Some ts → time.UnixNano now ≤ ts →
  UpdateSeries Hash series now copy c = Some c.
Proof.
  intros (s & i & e & Hs & Hl & He & <-)%stored_Some Hle.
  unfold UpdateSeries. rewrite Hs. simpl.
  rewrite (update_stale _ _ _ _ _ i e) by done. simpl.
  rewrite list_insert_id by done. by destruct c.
Qed.
End stored_facts.


(** * Counting the series of a run *)

Section counting_stripe.
Implicit Types (s : Stripe.activeSeriesStripe).

Lemma update_refs_ne now series fp copy s s' fp0 :
  Stripe.updateSeriesTimestamp now series fp copy s = Some s' →
  fp0 ≠ fp → Stripe.refs s' !! fp0 = Stripe.refs s !! fp0.
Proof.
  intros [(i & e & Hl & He & _ & ->)|(c & Hl & Hc & ->)]%update_inv Hne.
  - case_decide; [|done]. simpl. by rewrite lookup_insert_ne.
  - simpl. by rewrite lookup_insert_ne.
Qed.

Lemma update_refs_eq now series fp copy s s' :
  Stripe.updateSeriesTimestamp now series fp copy s = Some s' →
  Stripe.refs s' !! fp = Some (Stripe.chain s' fp).
Proof.
  intros [(i & e & Hl & He & _ & ->)|(c & Hl & Hc & ->)]%update_inv.
  - case_decide.
    + rewrite chain_withNanos. simpl. by rewrite lookup_insert_eq.
    + by eapply chain_nonempty.
  - rewrite chain_withEntry. simpl. by rewrite lookup_insert_eq.
Qed.

Lemma update_chain_Forall (Q : activeSeriesEntry → Prop)
    now series fp copy s s' :
  Stripe.updateSeriesTimestamp now series fp copy s = Some s' →
  Forall Q (Stripe.chain s fp) →
  (∀ e, Q e → Q (mkEntry (lbs e) (time.UnixNano now) (matches e))) →
  Q (mkEntry (copy series) (time.UnixNano now)
       (Matches (Stripe.matchers s) series)) →
  Forall Q (Stripe.chain s' fp).
Proof.
  intros [(i & e & Hl & He & _ & ->)|(c & Hl & Hc & ->)]%update_inv
    Hall Hadv Hnew.
  - case_decide; [|done]. rewrite chain_withNanos.
    apply Forall_insert; [done|]. apply Hadv.
    rewrite Forall_forall in Hall. apply Hall. by eapply list_elem_of_lookup_2.
  - rewrite chain_withEntry. apply Forall_app. split; [done|].
    by constructor.
Qed.

(** The labels of a stripe after an update: the same when the series had an
    entry, one more when it had none. *)
Lemma update_labels now series fp copy s s' :
  copy series = series →
  Stripe.updateSeriesTimestamp now series fp copy s = Some s' →
  (series ∈ lbs <$> Stripe.chain s fp ∧
   lbs <$> Inv.entries s' ≡ₚ lbs <$> Inv.entries s) ∨
  ((series ∉ lbs <$> Stripe.chain s fp) ∧
   lbs <$> Inv.entries s' ≡ₚ series :: (lbs <$> Inv.entries s)).
Proof.
  intros Hcopy [(i & e & Hl & He & Hlbs & ->)|(c & Hl & Hc & ->)]%update_inv.
  - left. split.
    { apply list_elem_of_fmap. exists e.
      split; [done|]. by eapply list_elem_of_lookup_2. }
    case_decide; [|done]. rewrite entries_withHint, entries_withNanos.
    rewrite (entries_split s fp), !fmap_app, list_fmap_insert.
    simpl. by rewrite list_insert_id by (by rewrite list_lookup_fmap, He).
  - right. split; [by apply lookupLabels_None|].
    rewrite entries_withHint, entries_withEntry. simpl. by rewrite Hcopy.
Qed.
End counting_stripe.

Section counting_lists.
Context {A B : Type}.

(** Replacing an element of a list, under a flattening map. *)
Lemma bind_insert_perm (f : A → list B) (l : list A) i x :
  l !! i = Some x →
  ∃ rest, l ≫= f ≡ₚ f x ++ rest ∧
          ∀ y, <[i := y]> l ≫= f ≡ₚ f y ++ rest.
Proof.
  intros Hi. exists ((take i l ≫= f) ++ (drop (S i) l ≫= f)). split.
  - rewrite <- (take_drop_middle l i x Hi) at 1.
    rewrite bind_app, bind_cons.
    by rewrite Permutation_app_swap_app.
  - intros y. rewrite insert_take_drop by (by eapply lookup_lt_Some).
    rewrite bind_app, bind_cons.
    by rewrite Permutation_app_swap_app.
Qed.

Lemma bind_Forall2_perm (f : A → list B) (l l' : list A) :
  Forall2 (λ x y, f y ≡ₚ f x) l l' → l' ≫= f ≡ₚ l ≫= f.
Proof.
  induction 1 as [|x y l l' Hxy _ IH]; [done|].
  by rewrite !bind_cons, Hxy, IH.
Qed.
End counting_lists.

Section counting_tracker.
Variable Hash : list (string * string) → N.
Variable K : Z.
Implicit Types (c : ActiveSeries) (s : Stripe.activeSeriesStripe).

Lemma entries_reinitialized asm ss :
  Forall (reinitialized asm) ss → ss ≫= Inv.entries = [].
Proof.
  induction 1 as [|s ss (_ & _ & Hr & _) _ IH]; [done|].
  rewrite bind_cons, IH. unfold Inv.entries. by rewrite Hr, entriesOf_empty.
Qed.

Lemma Rep_init asm idleTimeout :
  ∃ c0, NewActiveSeries asm idleTimeout = Some c0 ∧ Rep Hash K c0 [] ∧
        matchers c0 = asm ∧ timeout c0 = idleTimeout.
Proof.
  destruct (NewActiveSeries_spec asm idleTimeout) as (ss & Hc0 & Hl & Hall).
  eexists. split; [exact Hc0|]. split; [|done].
  split; [by apply reinitialized_wf|]. simpl. split.
  { eapply Forall_impl; [exact Hall|]. intros s Hs.
    by destruct (reinitialized_inv asm s Hs) as (? & ? & _). }
  split.
  { intros sid s fp es Hs Hes. simpl in Hs.
    rewrite Forall_forall in Hall.
    destruct (Hall s) as (_ & _ & Hr & _); [by eapply list_elem_of_lookup_2|].
    by rewrite Hr in Hes. }
  unfold allEntries. simpl. rewrite (entries_reinitialized asm) by done.
  split; [constructor|]. done.
Qed.

Lemma chain_placed c sid s fp :
  placed Hash K c → stripes c !! sid = Some s →
  Forall (placedEntry Hash K (matchers c) fp) (Stripe.chain s fp).
Proof.
  intros Hpl Hs. unfold Stripe.chain.
  destruct (Stripe.refs s !! fp) as [es|] eqn:Hes; simpl; [|constructor].
  by apply (Hpl sid s).
Qed.

Lemma Rep_step c seen series now copy :
  Rep Hash K c seen → copy series = series → K ≤ time.UnixNano now →
  ∃ c', UpdateSeries Hash series now copy c = Some c' ∧
        Rep Hash K c' (seen ++ [series]) ∧
        matchers c' = matchers c ∧ timeout c' = timeout c.
Proof.
  intros (Hwf & Hinv & Hpl & Hnd & Hseen) Hcopy HK.
  destruct (UpdateSeries_total Hash series now copy c Hwf) as [c' Hc'].
  exists c'. split; [done|].
  pose proof Hc' as (s & s' & Hs & Hu & Heq)%UpdateSeries_inv.
  assert (Hm : matchers c' = matchers c) by (by subst).
  assert (Hsm : Stripe.matchers s = matchers c).
  { destruct Hwf as [_ Hws]. unfold wfStripes in Hws.
    rewrite Forall_forall in Hws.
    by destruct (Hws s) as [_ ?]; [by eapply list_elem_of_lookup_2|]. }
  split; [|by subst]. split; [by eapply UpdateSeries_wf|]. split.
  { eapply UpdateSeries_preserves; [|exact Hinv|exact Hc'].
    intros s0 s0' [H1 H2] Hs0. by eapply update_I1_I2. }
  split.
  { intros sid0 s0 fp0 es0 Hs0 Hes0. rewrite Hm. subst c'. simpl in Hs0.
    destruct (decide (sid0 = stripeID (Hash series))) as [->|Hne].
    - rewrite list_lookup_insert_eq in Hs0 by (by eapply lookup_lt_Some).
      injection Hs0 as <-.
      destruct (decide (fp0 = Hash series)) as [->|Hfp].
      + split; [done|].
        rewrite (update_refs_eq _ _ _ _ _ _ Hu) in Hes0. injection Hes0 as <-.
        eapply update_chain_Forall; [exact Hu| | |].
        * by eapply chain_placed.
        * intros e (H1 & H2 & H3). split; [done|]. split; [done|]. simpl. lia.
        * split; [simpl; by rewrite Hcopy|].
          split; [simpl; by rewrite Hcopy, Hsm|simpl; lia].
      + rewrite (update_refs_ne _ _ _ _ _ _ _ Hu Hfp) in Hes0.
        by apply (Hpl _ s).
    - rewrite list_lookup_insert_ne in Hs0 by done. by apply (Hpl _ s0). }
  destruct (bind_insert_perm Inv.entries (stripes c) _ s Hs)
    as (rest & Hall & Hall').
  assert (Hc : allEntries c ≡ₚ Inv.entries s ++ rest) by done.
  assert (Hc2 : allEntries c' ≡ₚ Inv.entries s' ++ rest)
    by (subst c'; apply Hall').
  destruct (update_labels _ _ _ _ _ _ Hcopy Hu) as [[Hin Hl]|[Hnin Hl]].
  - assert (Hsame : lbs <$> allEntries c' ≡ₚ lbs <$> allEntries c).
    { by rewrite Hc2, Hc, !fmap_app, Hl. }
    assert (Hold : series ∈ lbs <$> allEntries c).
    { rewrite Hc, fmap_app, (entries_split s (Hash series)), fmap_app.
      apply elem_of_app. left. apply elem_of_app. by left. }
    split; [by rewrite Hsame|]. intros l.
    rewrite Hsame, elem_of_app, list_elem_of_singleton, Hseen.
    split; [tauto|]. intros [?| ->]; [done|]. by apply Hseen.
  - assert (Hmore : lbs <$> allEntries c' ≡ₚ series :: (lbs <$> allEntries c)).
    { by rewrite Hc2, Hc, !fmap_app, Hl. }
    assert (Hfresh : series ∉ lbs <$> allEntries c).
    { intros (e0 & He0 & Hin0)%list_elem_of_fmap.
      unfold allEntries in Hin0.
      apply list_elem_of_bind in Hin0 as (s0 & Hin_s0 & Hs0in).
      apply list_elem_of_lookup in Hs0in as [sid0 Hsid0].
      apply elem_of_entriesOf in Hin_s0 as (fp0 & es0 & Hes0 & He0in).
      destruct (Hpl _ _ _ _ Hsid0 Hes0) as [-> Hall0].
      rewrite Forall_forall in Hall0.
      destruct (Hall0 e0 He0in) as (Hfp0 & _). rewrite <- He0 in Hfp0.
      subst fp0. rewrite Hs in Hsid0. injection Hsid0 as <-.
      apply Hnin. unfold Stripe.chain. rewrite Hes0. simpl.
      apply list_elem_of_fmap. by exists e0. }
    split; [rewrite Hmore; by constructor|]. intros l.
    rewrite Hmore, elem_of_cons, elem_of_app, list_elem_of_singleton, Hseen.
    tauto.
Qed.

Lemma Rep_run copy calls : ∀ c seen,
  Rep Hash K c seen →
  (∀ series now, (series, now) ∈ calls →
     copy series = series ∧ K ≤ time.UnixNano now) →
  ∃ c', updateAll Hash copy calls c = Some c' ∧
        Rep Hash K c' (seen ++ calls.*1) ∧
        matchers c' = matchers c ∧ timeout c' = timeout c.
Proof.
  induction calls as [|[series now] calls IH]; intros c seen Hrep Hcalls.
  - exists c. simpl. rewrite app_nil_r. done.
  - destruct (Hcalls series now) as [Hcopy HK]; [left|].
    destruct (Rep_step c seen series now copy Hrep Hcopy HK)
      as (c1 & Hc1 & Hrep1 & Hm1 & Ht1).
    destruct (IH c1 (seen ++ [series]) Hrep1) as (c' & Hc' & Hrep' & Hm' & Ht').
    { intros ?? Hin. apply Hcalls. by right. }
    exists c'. split.
    { unfold updateAll in *. rewrite forEach_cons. simpl. by rewrite Hc1. }
    split; [|split; congruence].
    by rewrite <- app_assoc in Hrep'.
Qed.
End counting_tracker.

(** ** The counts that [Active] returns *)

Lemma purge_keeps_all keepUntil (s s' : Stripe.activeSeriesStripe) :
  Forall (λ e, time.UnixNano keepUntil ≤ nanos e) (Inv.entries s) →
  Inv.fits s → Stripe.purge keepUntil s = Some s' →
  Inv.entries s' ≡ₚ Inv.entries s.
Proof.
  intros Hall Hfit Hp.
  destruct (Stripe.nothingToDo (time.UnixNano keepUntil) s) eqn:Hn.
  - rewrite purge_fast in Hp by done. by injection Hp as <-.
  - rewrite purge_slow in Hp by done.
    destruct (purgeLocked_spec (map_to_list (Stripe.refs s))
                (time.UnixNano keepUntil) s) as (s1 & Hs1 & _ & Hr & _);
      [done|done|].
    assert (s1 = s') as -> by congruence.
    unfold Inv.entries at 1. by rewrite Hr, entriesOf_purged, kept_all.
Qed.

Lemma sumActive_I1 (ss : list Stripe.activeSeriesStripe) :
  Forall Inv.I1 ss → sumActive ss = Z.of_nat (length (ss ≫= Inv.entries)).
Proof.
  induction 1 as [|s ss H1 _ IH]; [done|].
  rewrite bind_cons, length_app. simpl. fold (sumActive ss).
  rewrite IH, H1. lia.
Qed.

Lemma sumMatching_I2 j (ss : list Stripe.activeSeriesStripe) :
  Forall (λ s, Inv.I2 s ∧ (j < slice.len (Stripe.activeMatching s))%nat) ss →
  sumMatching j ss = hits j (ss ≫= Inv.entries).
Proof.
  induction 1 as [|s ss [H2 Hj] _ IH]; [done|].
  rewrite bind_cons, hits_app. simpl. fold (sumMatching j ss). rewrite IH.
  destruct (lookup_lt_is_Some_2 (slice.vals (Stripe.activeMatching s)) j)
    as [a Ha]; [done|].
  rewrite Ha. simpl. by rewrite (H2 j a Ha).
Qed.

Lemma hits_matching asm j es :
  Forall (λ e, matches e = Matches asm (lbs e)) es →
  hits j es = matching asm j (lbs <$> es).
Proof.
  unfold hits, matching. induction 1 as [|e es He _ IH]; [done|].
  rewrite fmap_cons, !filter_cons, He.
  destruct (decide (Matches asm (lbs e) !! j = Some true)); simpl; lia.
Qed.

#[global] Instance matching_perm asm j : Proper ((≡ₚ) ==> (=)) (matching asm j).
Proof. intros l1 l2 H. unfold matching. by rewrite H. Qed.

Lemma Rep_counts Hash clock c seen :
  Rep Hash (time.UnixNano (purgeTime clock c)) c seen →
  ∃ c' tm valid,
    Active clock c
    = Some (c', (Z.of_nat (length (remove_dups seen)), tm, valid)) ∧
    slice.vals tm
    = (λ i, matching (matchers c) i (remove_dups seen))
        <$> seq 0 (length (MatcherNames (matchers c))) ∧
    length (stripes c') = numActiveSeriesStripes ∧
    sumActive (stripes c') = Z.of_nat (length (remove_dups seen)).
Proof.
  intros (Hwf & Hinv & Hpl & Hnd & Hseen).
  assert (Hlabels : lbs <$> allEntries c ≡ₚ remove_dups seen).
  { apply NoDup_Permutation; [done|apply NoDup_remove_dups|].
    intros l. by rewrite Hseen, elem_of_remove_dups. }
  destruct Hwf as [Hlen Hws].
  destruct (Active_spec clock c Hws) as (c' & tm & Ha & Hp & Hws' & Hv).
  pose proof (tracker_purge_length _ _ _ Hp) as Hlen'.
  apply tracker_purge_inv in Hp as (Hm' & _ & _ & H2).
  assert (Hkeep : Forall2 (λ s s', Inv.entries s' ≡ₚ Inv.entries s)
                    (stripes c) (stripes c')).
  { apply Forall2_same_length_lookup_2; [by eapply Forall2_length|].
    intros sid s s' Hs Hs'.
    pose proof (Forall2_lookup_lr _ _ _ _ _ _ H2 Hs Hs') as Hps.
    eapply purge_keeps_all; [| |exact Hps].
    - apply Forall_entriesOf. intros fp es Hes. simpl.
      destruct (Hpl sid s fp es Hs Hes) as [_ Hall].
      eapply Forall_impl; [exact Hall|]. by intros e (_ & _ & ?).
    - pose proof (wfStripes_fits _ Hws) as Hfit. rewrite Forall_forall in Hfit.
      apply Hfit. by eapply list_elem_of_lookup_2. }
  assert (Hall' : stripes c' ≫= Inv.entries ≡ₚ allEntries c)
    by (by apply bind_Forall2_perm).
  assert (Hinv' : Forall (λ s, Inv.I1 s ∧ Inv.I2 s) (stripes c')).
  { eapply (Forall2_purge_preserves (λ s, Inv.I1 s ∧ Inv.I2 s));
      [|exact Hinv|by apply wfStripes_fits|exact H2].
    intros s s' [H1 H2'] Hfit Hs. by eapply purge_I1_I2. }
  assert (Htotal : sumActive (stripes c')
                   = Z.of_nat (length (remove_dups seen))).
  { rewrite sumActive_I1.
    - by rewrite Hall', <- Hlabels, length_fmap.
    - eapply Forall_impl; [exact Hinv'|]. by intros s [? _]. }
  exists c', tm, (time.After (purgeTime clock c) (lastMatchersUpdate c)).
  split; [by rewrite Ha, Htotal|]. split; [|split; [congruence|done]].
  rewrite Hv. apply list_eq. intros j. rewrite !list_lookup_fmap.
  destruct (seq 0 (length (MatcherNames (matchers c))) !! j) as [i|] eqn:Hj;
    simpl; [|done].
  apply lookup_seq in Hj as [-> Hj]. simpl. f_equal.
  rewrite sumMatching_I2.
  - rewrite Hall', <- Hlabels. apply hits_matching.
    unfold allEntries. apply Forall_forall. intros e He.
    apply list_elem_of_bind in He as (s & He & Hs).
    apply list_elem_of_lookup in Hs as [sid Hs].
    apply elem_of_entriesOf in He as (fp & es & Hes & He).
    destruct (Hpl sid s fp es Hs Hes) as [_ Hall].
    rewrite Forall_forall in Hall. by destruct (Hall e He) as (_ & ? & _).
  - unfold wfStripes in Hws'. rewrite Forall_forall in Hws', Hinv'.
    apply Forall_forall. intros s Hs.
    destruct (Hws' s Hs) as [[Hn _] Hms]. destruct (Hinv' s Hs) as [_ ?].
    split; [done|]. rewrite <- Hn, Hms, Hm'. done.
Qed.


(** * The invariants hold in every reachable tracker *)

Lemma reinitialized_stripeInv asm ss :
  Forall (reinitialized asm) ss → Forall stripeInv ss.
Proof.
  intros H. eapply Forall_impl; [exact H|]. intros s Hs.
  by apply (reinitialized_inv asm).
Qed.

Lemma update_stripeInv now series fp copy s s' :
  copy series = series → stripeInv s →
  Stripe.updateSeriesTimestamp now series fp copy s = Some s' →
  stripeInv s'.
Proof.
  intros Hcopy (H1 & H2 & H3 & H4 & H5 & H6) Hu.
  destruct (update_I1_I2 _ _ _ _ _ _ H1 H2 Hu) as [? ?].
  repeat split; try done.
  - by eapply update_I3.
  - by eapply update_I4.
  - by eapply update_I5.
  - by eapply update_I6.
  - by eapply update_I6.
Qed.

Lemma purge_stripeInv keepUntil s s' :
  stripeInv s → Stripe.purge keepUntil s = Some s' → stripeInv s'.
Proof.
  intros (H1 & H2 & H3 & H4 & H5 & H6) Hp.
  pose proof (I6_fits _ H6) as Hfit.
  destruct (purge_I1_I2 _ _ _ H1 H2 Hfit Hp) as [? ?].
  repeat split; try done.
  - by eapply purge_I3.
  - by eapply purge_I4.
  - by eapply purge_I5.
  - by eapply purge_I6.
  - by eapply purge_I6.
Qed.

Lemma reachable_invariants Hash c :
  reachable Hash c → wf c ∧ Forall stripeInv (stripes c).
Proof.
  induction 1 as [asm idle c Hc|c series now copy c' _ [Hwf Hinv] Hcopy Hu
                  |c clock c' r _ [Hwf Hinv] Ha|c asm clock c' _ [Hwf Hinv] Hr].
  - destruct (NewActiveSeries_spec asm idle) as (ss & Hc0 & Hl & Hall).
    rewrite Hc0 in Hc. injection Hc as <-.
    split; [by apply reinitialized_wf|]. by eapply reinitialized_stripeInv.
  - split; [by eapply UpdateSeries_wf|].
    eapply UpdateSeries_preserves; [|exact Hinv|exact Hu].
    intros s s' Hs Hs'. by eapply update_stripeInv.
  - destruct r as [[total tm] valid].
    apply Active_inv in Ha as (Hp & _).
    split; [by eapply tracker_purge_wf|].
    apply tracker_purge_inv in Hp as (_ & _ & _ & H2).
    eapply (Forall2_purge_preserves stripeInv);
      [|exact Hinv|apply wfStripes_fits, Hwf|exact H2].
    intros s s' Hs _ Hs'. by eapply purge_stripeInv.
  - destruct (ReloadMatchers_spec asm clock c) as (ss & Hr0 & Hl & Hall).
    rewrite Hr0 in Hr. injection Hr as <-.
    split; [|by eapply reinitialized_stripeInv].
    apply reinitialized_wf; [|done]. rewrite Hl. apply Hwf.
Qed.

(** * The properties of the design document *)

(** C1: after any run of [UpdateSeries] calls on a new tracker, an [Active]
    call whose cut-off is not after any of the times used returns as total
    the number of distinct label sets of the run, and at index [i] of the
    vector the number of those label sets that matcher [i] matches; and the
    total that [Active] returns is always the sum of the [active] counters
    of the stripes, all 512 of them. *)
Theorem active_counts (Hash : list (string * string) → N)
    (labelsCopy : list (string * string) → list (string * string))
    (asm : list (string * (list (string * string) → bool)))
    (idleTimeout : Z) (calls : list (list (string * string) * Z))
    (clock : Z) :
  (∀ series now, (series, now) ∈ calls →
     labelsCopy series = series ∧
     time.UnixNano (time.Add clock (time.neg idleTimeout))
     ≤ time.UnixNano now) →
  (∃ c0 c1 c2 totalMatching valid,
     NewActiveSeries asm idleTimeout = Some c0 ∧
     updateAll Hash labelsCopy calls c0 = Some c1 ∧
     Active clock c1
     = Some (c2, (Z.of_nat (length (remove_dups calls.*1)),
                  totalMatching, valid)) ∧
     slice.vals totalMatching
     = (λ i, matching asm i (remove_dups calls.*1))
         <$> seq 0 (length (MatcherNames asm)) ∧
     length (stripes c2) = numActiveSeriesStripes ∧
     sumActive (stripes c2) = Z.of_nat (length (remove_dups calls.*1))) ∧
  (∀ c c' total totalMatching valid,
     Active clock c = Some (c', (total, totalMatching, valid)) →
     total = sumActive (stripes c') ∧
     length (stripes c') = length (stripes c)).
Proof.
  intros Hcalls. split.
  - set (K := time.UnixNano (time.Add clock (time.neg idleTimeout))).
    destruct (Rep_init Hash K asm idleTimeout) as (c0 & Hc0 & Hrep0 & Hm0 & Ht0).
    destruct (Rep_run Hash K labelsCopy calls c0 [] Hrep0 Hcalls)
      as (c1 & Hc1 & Hrep1 & Hm1 & Ht1).
    simpl in Hrep1.
    assert (HK : K = time.UnixNano (purgeTime clock c1)).
    { unfold K, purgeTime. by rewrite Ht1, Ht0. }
    rewrite HK in Hrep1.
    destruct (Rep_counts Hash clock c1 _ Hrep1)
      as (c2 & tm & valid & Ha & Hv & Hl & Hs).
    exists c0, c1, c2, tm, valid.
    rewrite Hm1, Hm0 in Hv. done.
  - intros c c' total tm valid (Hp & Ht & _)%Active_inv.
    split; [done|]. by eapply tracker_purge_length.
Qed.

(** C2: [purge] keeps exactly the entries whose timestamp is at or after
    the cut-off: an entry at the cut-off stays, an older one goes, in chains
    of one entry and in collision chains alike, and a fingerprint leaves the
    map exactly when none of its entries stays.  The order in which the map
    is ranged over makes no difference. *)
Theorem purge_keeps_exactly (s : Stripe.activeSeriesStripe) (keepUntil : Z) :
  Inv.I3 s → Inv.I4 s → Inv.fits s →
  ∃ s',
    Stripe.purge keepUntil s = Some s' ∧
    (∀ fp, Stripe.refs s' !! fp
           = Stripe.refs s !! fp ≫=
               (λ es, nonEmpty
                        (filter (λ e, time.UnixNano keepUntil ≤ nanos e) es))) ∧
    (∀ fp e, e ∈ Stripe.chain s' fp ↔
             e ∈ Stripe.chain s fp ∧ time.UnixNano keepUntil ≤ nanos e) ∧
    (∀ fp, is_Some (Stripe.refs s !! fp) →
           (Stripe.refs s' !! fp = None ↔
            ∀ e, e ∈ Stripe.chain s fp → nanos e < time.UnixNano keepUntil)) ∧
    (∀ order, order ≡ₚ map_to_list (Stripe.refs s) →
              Stripe.nothingToDo (time.UnixNano keepUntil) s = false →
              Stripe.purgeLocked order (time.UnixNano keepUntil) s = Some s').
Proof.
  intros H3 H4 Hfit.
  destruct (purge_total keepUntil s Hfit) as [s' Hs'].
  exists s'. split; [done|].
  pose proof (purge_refs _ _ _ H3 H4 Hfit Hs') as Hr.
  assert (Hlook : ∀ fp, Stripe.refs s' !! fp
            = Stripe.refs s !! fp ≫=
                (λ es, nonEmpty (kept (time.UnixNano keepUntil) es))).
  { intros fp. by rewrite Hr, lookup_omap. }
  assert (Hchain : ∀ fp, Stripe.chain s' fp
            = kept (time.UnixNano keepUntil) (Stripe.chain s fp)).
  { intros fp. unfold Stripe.chain. rewrite Hlook.
    destruct (Stripe.refs s !! fp) as [es|]; simpl; [|done].
    by destruct (kept _ es). }
  split; [exact Hlook|]. split; [|split].
  - intros fp e. rewrite Hchain. apply elem_of_kept.
  - intros fp [es Hes]. rewrite Hlook. unfold Stripe.chain. rewrite Hes. simpl.
    split.
    + intros Hn e He.
      destruct (decide (time.UnixNano keepUntil ≤ nanos e)) as [Hk|]; [|lia].
      assert (e ∈ kept (time.UnixNano keepUntil) es) as Hin
        by (by apply elem_of_kept).
      destruct (kept _ es); [by apply elem_of_nil in Hin|done].
    + intros Hall.
      destruct (kept (time.UnixNano keepUntil) es) as [|e l] eqn:Hk; [done|].
      assert (e ∈ kept (time.UnixNano keepUntil) es) as [Hin Hle]%elem_of_kept
        by (rewrite Hk; left).
      specialize (Hall e Hin). lia.
  - intros order Hperm Hslow. rewrite purgeLocked_order by done.
    by rewrite <- purge_slow.
Qed.
(** C3: invariants I1 and I2 hold after every [UpdateSeries] call and after
    every [Active] call (which purges): in every stripe, [active] is the sum
    of the lengths of the chains and [activeMatching[i]] is the number of
    entries whose [matches[i]] is true.  From a well-formed tracker where
    both hold, each of the two calls returns, and returns a well-formed
    tracker where both hold. *)
Theorem counters_consistent (Hash : list (string * string) → N)
    (c : ActiveSeries) :
  wf c → Forall (λ s, Inv.I1 s ∧ Inv.I2 s) (stripes c) →
  (∀ series now labelsCopy,
     ∃ c', UpdateSeries Hash series now labelsCopy c = Some c' ∧ wf c' ∧
           Forall (λ s, Inv.I1 s ∧ Inv.I2 s) (stripes c')) ∧
  (∀ clock,
     ∃ c' r, Active clock c = Some (c', r) ∧ wf c' ∧
             Forall (λ s, Inv.I1 s ∧ Inv.I2 s) (stripes c')).
Proof.
  intros Hwf Hinv. split.
  - intros series now copy.
    destruct (UpdateSeries_total Hash series now copy c Hwf) as [c' Hc'].
    exists c'. split; [done|]. split; [by eapply UpdateSeries_wf|].
    eapply UpdateSeries_preserves; [|exact Hinv|exact Hc'].
    intros s s' [H1 H2] Hs. by eapply update_I1_I2.
  - intros clock. destruct Hwf as [Hlen Hws].
    destruct (Active_spec clock c Hws) as (c' & tm & Ha & Hp & Hws' & _).
    eexists c', _. split; [exact Ha|]. split.
    { split; [|done]. by rewrite (tracker_purge_length _ _ _ Hp). }
    apply tracker_purge_inv in Hp as (_ & _ & _ & H2).
    eapply (Forall2_purge_preserves (λ s, Inv.I1 s ∧ Inv.I2 s));
      [|exact Hinv|by apply wfStripes_fits|exact H2].
    intros s s' [H1 H2'] Hfit Hs. by eapply purge_I1_I2.
Qed.

(** C4: invariant I3 is preserved by every operation: in every stripe,
    [oldestEntryTs] is 0 or at most the least timestamp of the entries of the
    stripe.  From a well-formed tracker where I3 holds, [UpdateSeries],
    [purge] (alone or inside [Active]) and [ReloadMatchers] return a tracker
    where I3 holds. *)
Theorem hint_conservative (Hash : list (string * string) → N)
    (c : ActiveSeries) :
  wf c → Forall Inv.I3 (stripes c) →
  (∀ series now labelsCopy,
     ∃ c', UpdateSeries Hash series now labelsCopy c = Some c' ∧
           Forall Inv.I3 (stripes c')) ∧
  (∀ keepUntil,
     ∃ c', purge keepUntil c = Some c' ∧ Forall Inv.I3 (stripes c')) ∧
  (∀ clock,
     ∃ c' r, Active clock c = Some (c', r) ∧ Forall Inv.I3 (stripes c')) ∧
  (∀ asm clock,
     ∃ c', ReloadMatchers asm clock c = Some c' ∧ Forall Inv.I3 (stripes c')).
Proof.
  intros Hwf Hinv.
  assert (Hpurge : ∀ keepUntil c', purge keepUntil c = Some c' →
                                   Forall Inv.I3 (stripes c')).
  { intros k c' (_ & _ & _ & H2)%tracker_purge_inv.
    eapply (Forall2_purge_preserves Inv.I3);
      [|exact Hinv|apply wfStripes_fits, Hwf|exact H2].
    intros s s' H3 Hfit Hs. by eapply purge_I3. }
  split; [|split; [|split]].
  - intros series now copy.
    destruct (UpdateSeries_total Hash series now copy c Hwf) as [c' Hc'].
    exists c'. split; [done|].
    eapply UpdateSeries_preserves; [|exact Hinv|exact Hc'].
    intros s s' H3 Hs. by eapply update_I3.
  - intros k.
    destruct (tracker_purge_spec k c (wfStripes_fits _ (proj2 Hwf)))
      as (ss & Hp & _).
    eexists. split; [exact Hp|]. by eapply Hpurge.
  - intros clock.
    destruct (Active_spec clock c (proj2 Hwf)) as (c' & tm & Ha & Hp & _).
    eexists c', _. split; [exact Ha|]. by eapply Hpurge.
  - intros asm clock.
    destruct (ReloadMatchers_spec asm clock c) as (ss & Hr & _ & Hall).
    eexists. split; [exact Hr|]. simpl.
    eapply Forall_impl; [exact Hall|]. intros s Hs.
    by apply (reinitialized_inv asm).
Qed.


(** C5: an update of a series that has an entry leaves max(previous, now)
    as its timestamp.  After [UpdateSeries(labels, t1)] and then
    [UpdateSeries(labels, t2)] the stored timestamp is at least [t1] and at
    least [t2]; when the clock runs backward the second call changes
    nothing, so the hint keeps the value the first call left. *)
Theorem stored_timestamp_max (Hash : list (string * string) → N)
    (c : ActiveSeries) (series : list (string * string)) (t1 t2 : Z)
    (labelsCopy : list (string * string) → list (string * string)) :
  (∀ prev, stored Hash c series = Some prev →
     ∃ c', UpdateSeries Hash series t1 labelsCopy c = Some c' ∧
           stored Hash c' series = Some (Z.max prev (time.UnixNano t1))) ∧
  (labelsCopy series = series → wf c →
     ∃ c1 c2 ts,
       UpdateSeries Hash series t1 labelsCopy c = Some c1 ∧
       UpdateSeries Hash series t2 labelsCopy c1 = Some c2 ∧
       stored Hash c2 series = Some ts ∧
       time.UnixNano t1 ≤ ts ∧ time.UnixNano t2 ≤ ts ∧
       (time.UnixNano t2 ≤ time.UnixNano t1 →
          c2 = c1 ∧ hintOf Hash c2 series = hintOf Hash c1 series)).
Proof.
  split; [intros prev; apply stored_advance|].
  intros Hcopy Hwf.
  destruct (UpdateSeries_total Hash series t1 labelsCopy c Hwf) as [c1 Hc1].
  destruct (UpdateSeries_stored Hash _ _ _ _ _ Hcopy Hc1) as (ts1 & Hts1 & Hle1).
  destruct (stored_advance Hash c1 series t2 labelsCopy ts1 Hts1)
    as (c2 & Hc2 & Hts2).
  exists c1, c2, (Z.max ts1 (time.UnixNano t2)).
  split; [done|]. split; [done|]. split; [done|].
  split; [lia|]. split; [lia|]. intros Hback.
  rewrite (UpdateSeries_stale Hash c1 series t2 labelsCopy ts1) in Hc2
    by (done || lia).
  injection Hc2 as <-. done.
Qed.

(** C5, as stated: after a purge with cut-off 50 that keeps an entry at 50,
    the series is seen at 100 and then at 90.  The stored timestamp is 100
    and the hint of the stripe is 50, which is neither at least 100 nor 0;
    so it is when the call at 100 inserts the series, and when it advances
    it. *)
Lemma backward_clock_hint :
  Ex.backwardClock Ex.seriesB = Some (100, 50) ∧
  Ex.backwardClock Ex.seriesA = Some (100, 50) ∧
  ¬ (100 ≤ 50 ∨ 50 = 0).
Proof. split; [|split]; [vm_compute; reflexivity..|lia]. Qed.
(** C6: right after [ReloadMatchers] every stripe is empty, with [refs]
    empty, [active] 0, [activeMatching] the zero vector of the new number of
    matchers and [oldestEntryTs] 0; an [Active] call that follows returns a
    total of 0 and a zero vector of the new length, whatever the tracker held
    before. *)
Theorem reload_resets (c : ActiveSeries)
    (asm : list (string * (list (string * string) → bool)))
    (clock clock' : Z) :
  ∃ c1,
    ReloadMatchers asm clock c = Some c1 ∧
    matchers c1 = asm ∧ lastMatchersUpdate c1 = clock ∧
    length (stripes c1) = length (stripes c) ∧
    Forall (λ s, Stripe.refs s = ∅ ∧ Stripe.active s = 0 ∧
                 slice.vals (Stripe.activeMatching s)
                 = replicate (length (MatcherNames asm)) 0 ∧
                 Stripe.oldestEntryTs s = 0) (stripes c1) ∧
    ∃ c2 totalMatching valid,
      Active clock' c1 = Some (c2, (0, totalMatching, valid)) ∧
      slice.vals totalMatching = replicate (length (MatcherNames asm)) 0.
Proof.
  destruct (ReloadMatchers_spec asm clock c) as (ss & Hr & Hl & Hall).
  eexists. split; [exact Hr|]. simpl. split; [done|]. split; [done|].
  split; [done|]. split.
  { eapply Forall_impl; [exact Hall|]. by intros s (_ & ? & ? & ? & ?). }
  set (c1 := mkActiveSeries ss asm clock (timeout c)).
  assert (Hws : wfStripes c1).
  { unfold wfStripes. simpl. eapply Forall_impl; [exact Hall|].
    intros s Hs. split; [by apply (reinitialized_inv asm)|by destruct Hs]. }
  destruct (Active_spec clock' c1 Hws) as (c2 & tm & Ha & Hp & _ & Hv).
  assert (Hall2 : Forall (reinitialized asm) (stripes c2)).
  { apply tracker_purge_inv in Hp as (_ & _ & _ & H2).
    eapply (Forall2_purge_preserves (reinitialized asm));
      [|exact Hall|exact (wfStripes_fits _ Hws)|exact H2].
    intros s s' Hs0 _ Hs.
    destruct (purge_reinitialized asm (purgeTime clock' c1) s Hs0)
      as (s1 & Hs1 & ?). congruence. }
  exists c2, tm, (time.After (purgeTime clock' c1) (lastMatchersUpdate c1)).
  split.
  - rewrite Ha. by rewrite (sumActive_reinitialized asm).
  - rewrite Hv. simpl. apply list_eq. intros j. rewrite list_lookup_fmap.
    destruct (decide (j < length (MatcherNames asm))%nat).
    + rewrite lookup_replicate_2, lookup_seq_lt by done. simpl.
      by rewrite (sumMatching_reinitialized asm).
    + rewrite (proj1 (lookup_replicate_None _ _ _)) by lia.
      by rewrite lookup_seq_ge by lia.
Qed.

Lemma purgeTime_sub clock c :
  MinInt64 < timeout c ≤ MaxInt64 → purgeTime clock c = clock - timeout c.
Proof.
  unfold purgeTime, time.Add, time.neg, wrap64, MinInt64, MaxInt64.
  intros H. rewrite Z.mod_small by lia. lia.
Qed.

(** C7: the flag that [Active] returns is true exactly when the purge
    cut-off, [now - timeout], is strictly after [lastMatchersUpdate]; it is
    false when the cut-off is at or before it. *)
Theorem valid_flag (c : ActiveSeries) (clock : Z) :
  (∀ c' total totalMatching valid,
     Active clock c = Some (c', (total, totalMatching, valid)) →
     (valid = true ↔ lastMatchersUpdate c < purgeTime clock c) ∧
     (valid = false ↔ purgeTime clock c ≤ lastMatchersUpdate c)) ∧
  (wf c → is_Some (Active clock c)) ∧
  (MinInt64 < timeout c ≤ MaxInt64 → purgeTime clock c = clock - timeout c).
Proof.
  split; [|split].
  - intros c' total tm valid (_ & _ & ->)%Active_inv. unfold time.After.
    rewrite bool_decide_eq_true, bool_decide_eq_false. lia.
  - intros [_ Hws]. destruct (Active_spec clock c Hws) as (c' & tm & -> & _).
    by eexists.
  - apply purgeTime_sub.
Qed.
(** C8: [UpdateSeries] is idempotent at equal time: a second call with the
    same labels and the same [now] returns the state that the first call
    returned, with every chain, timestamp, counter and hint as it was. *)
Theorem update_idempotent (Hash : list (string * string) → N)
    (c : ActiveSeries) (series : list (string * string)) (now : Z)
    (labelsCopy : list (string * string) → list (string * string)) :
  labelsCopy series = series →
  (∀ c1, UpdateSeries Hash series now labelsCopy c = Some c1 →
         UpdateSeries Hash series now labelsCopy c1 = Some c1) ∧
  (wf c → is_Some (UpdateSeries Hash series now labelsCopy c)).
Proof.
  intros Hcopy. split; [|apply UpdateSeries_total].
  intros c1 Hc1.
  destruct (UpdateSeries_stored Hash _ _ _ _ _ Hcopy Hc1) as (ts & Hts & Hle).
  by eapply UpdateSeries_stale.
Qed.
(** C9: [resizeAndClear(l, prev)] returns a slice of length [l] whose
    elements are all zero.  When [prev] has capacity for [l] elements the
    result is [prev] cut to [l] and zeroed in place: same array, same
    capacity, nothing allocated, the cells past [l] untouched.  Otherwise the
    result is a newly allocated array of capacity [2 * l].  For [l = 0] the
    result is empty, and is the nil slice when [prev] is nil. *)
Theorem resizeAndClear_spec (l : nat) (prev : mem.slice) (h : gmap nat (list Z)) :
  mem.valid prev h →
  ∃ r h',
    mem.resizeAndClear l prev h = Some (r, h') ∧
    mem.valid r h' ∧
    mem.len r = l ∧
    mem.elems r h' = Some (replicate l 0) ∧
    ((l ≤ mem.cap prev)%nat →
       mem.arr r = mem.arr prev ∧ mem.cap r = mem.cap prev ∧
       dom h' = dom h ∧
       (∀ a cells, mem.arr prev = Some a → h !! a = Some cells →
          h' !! a = Some (replicate l 0 ++ drop l cells)) ∧
       (∀ b, mem.arr prev ≠ Some b → h' !! b = h !! b)) ∧
    ((mem.cap prev < l)%nat →
       ∃ a, mem.arr r = Some a ∧ (a ∉ dom h) ∧ mem.cap r = (2 * l)%nat ∧
            h' = <[a := replicate (2 * l) 0]> h) ∧
    (l = 0%nat → mem.elems r h' = Some [] ∧ (mem.arr prev = None → r = mem.nil)).
Proof.
  intros [Hlen Harr].
  destruct (decide (mem.cap prev < l)%nat) as [Hlt|Hge].
  - rewrite mem_resizeAndClear_grow by done.
    eexists _, _. split; [done|]. simpl.
    split; [|split; [done|split; [|split; [lia|split; [|lia]]]]].
    + split; simpl; [lia|]. eexists. rewrite lookup_insert_eq.
      split; [done|]. by rewrite length_replicate.
    + unfold mem.elems. simpl. rewrite lookup_insert_eq. simpl.
      rewrite take_replicate. do 2 f_equal. lia.
    + intros _. eexists. split; [done|]. split; [apply is_fresh|].
      split; [lia|]. do 3 f_equal. lia.
  - destruct (mem.arr prev) as [a|] eqn:Ha.
    + destruct Harr as (cells & Hh & Hc).
      rewrite (mem_resizeAndClear_reuse l prev h a cells) by (first [done|lia]).
      eexists _, _. split; [done|]. simpl.
      split; [|split; [done|split; [|split; [|split; [lia|]]]]].
      * split; simpl; [lia|]. eexists. rewrite lookup_insert_eq.
        split; [done|]. rewrite length_app, length_replicate, length_drop. lia.
      * unfold mem.elems. simpl. rewrite lookup_insert_eq. simpl.
        by rewrite take_app_length' by (by rewrite length_replicate).
      * intros _. split; [done|]. split; [done|]. split.
        { apply dom_insert_lookup_L. by rewrite Hh. }
        split.
        { intros a' cells' [= <-] Hc'. rewrite lookup_insert_eq. congruence. }
        { intros b Hb. rewrite lookup_insert_ne; [done|congruence]. }
      * intros ->. split; [|done]. unfold mem.elems. simpl.
        rewrite lookup_insert_eq. done.
    + assert (l = 0%nat) as -> by lia.
      rewrite mem_resizeAndClear_nil by done.
      eexists _, _. split; [done|]. simpl.
      split; [by split|]. split; [done|]. split; [done|].
      split; [|split; [lia|done]].
      intros _. split; [done|]. split; [done|]. split; [done|]. split; [done|done].
Qed.
(** C10: after the locked part of [purge] has run, the hint is exact
    whenever a surviving entry has a timestamp below the largest [int64]: it
    is the least timestamp of the surviving entries.  It is 0 when no entry
    survives, and also when every surviving entry carries the largest
    [int64], the value the loop starts from. *)
Theorem slow_purge_hint (s : Stripe.activeSeriesStripe) (keepUntil : Z) :
  Inv.fits s →
  Stripe.nothingToDo (time.UnixNano keepUntil) s = false →
  ∃ s',
    Stripe.purge keepUntil s = Some s' ∧
    (Exists (λ e, nanos e < MaxInt64) (Inv.entries s') →
       Forall (λ e, Stripe.oldestEntryTs s' ≤ nanos e) (Inv.entries s') ∧
       Exists (λ e, nanos e = Stripe.oldestEntryTs s') (Inv.entries s')) ∧
    (Inv.entries s' = [] → Stripe.oldestEntryTs s' = 0) ∧
    (Forall (λ e, nanos e = MaxInt64) (Inv.entries s') →
       Stripe.oldestEntryTs s' = 0).
Proof.
  intros Hfit Hslow. rewrite purge_slow by done.
  destruct (purgeLocked_spec (map_to_list (Stripe.refs s))
              (time.UnixNano keepUntil) s)
    as (s' & Hs' & _ & Hr & _ & Ho & _); [done|done|].
  exists s'. split; [done|].
  assert (He : Inv.entries s'
               ≡ₚ kept (time.UnixNano keepUntil) (Inv.entries s)).
  { unfold Inv.entries at 1. rewrite Hr. apply entriesOf_purged. }
  rewrite <- (minNanos_perm _ _ _ He) in Ho. rewrite Ho. unfold storedOldest.
  assert (Hall : Forall (λ e, nanos e = MaxInt64) (Inv.entries s') →
                 (if decide (minNanos MaxInt64 (Inv.entries s') = MaxInt64)
                  then 0 else minNanos MaxInt64 (Inv.entries s')) = 0).
  { intros H. by rewrite minNanos_all, decide_True. }
  split; [|split; [|done]].
  - intros (Hlt & Hlow & Hex)%minNanos_below.
    by rewrite decide_False by lia.
  - intros Hnil. apply Hall. rewrite Hnil. constructor.
Qed.

(** C10, as stated: the stripe [Ex.lastInstant] is what an update at the
    largest [int64] time leaves of an empty stripe; [purge] takes its locked
    path on it, the entry survives, and the hint is 0, not the timestamp of
    the entry. *)
Lemma slow_purge_hint_not_exact :
  Stripe.updateSeriesTimestamp MaxInt64 Ex.seriesA 1 id (Stripe.mk [] 0 ∅ 0 slice.nil)
  = Some Ex.lastInstant ∧
  Stripe.nothingToDo (time.UnixNano 0) Ex.lastInstant = false ∧
  ∃ s', Stripe.purge 0 Ex.lastInstant = Some s' ∧
        Inv.entries s' = [mkEntry Ex.seriesA MaxInt64 []] ∧
        Stripe.oldestEntryTs s' = 0 ∧
        ¬ Exists (λ e, nanos e = Stripe.oldestEntryTs s') (Inv.entries s').
Proof.
  split; [vm_compute; reflexivity|]. split; [vm_compute; reflexivity|].
  exists Ex.lastInstant. split; [vm_compute; reflexivity|].
  split; [vm_compute; reflexivity|]. split; [reflexivity|].
  replace (Inv.entries Ex.lastInstant)
    with [mkEntry Ex.seriesA MaxInt64 []] by (vm_compute; reflexivity).
  intros H. apply Exists_cons in H as [H|H]; [discriminate H|].
  by apply Exists_nil in H.
Qed.

(** * The theorems at concrete inputs *)

Lemma emptyStripe_reinitialized : reinitialized Ex.onlyA Ex.emptyStripe.
Proof. by repeat split. Qed.

Lemma emptyTracker_wf : wf Ex.emptyTracker.
Proof.
  apply reinitialized_wf; [apply length_replicate|].
  apply Forall_replicate, emptyStripe_reinitialized.
Qed.

Lemma emptyTracker_inv :
  Forall (λ s, Inv.I1 s ∧ Inv.I2 s ∧ Inv.I3 s) (stripes Ex.emptyTracker).
Proof.
  apply Forall_replicate.
  destruct (reinitialized_inv _ _ emptyStripe_reinitialized)
    as (? & ? & ? & _). done.
Qed.

Lemma active_counts_witness :
  ∃ c0 c1 c2 totalMatching valid,
    NewActiveSeries Ex.onlyA 10 = Some c0 ∧
    updateAll Ex.hash id Ex.calls c0 = Some c1 ∧
    Active 2 c1
    = Some (c2, (Z.of_nat (length (remove_dups Ex.calls.*1)),
                 totalMatching, valid)) ∧
    slice.vals totalMatching
    = (λ i, matching Ex.onlyA i (remove_dups Ex.calls.*1))
        <$> seq 0 (length (MatcherNames Ex.onlyA)) ∧
    length (stripes c2) = numActiveSeriesStripes ∧
    sumActive (stripes c2) = Z.of_nat (length (remove_dups Ex.calls.*1)).
Proof.
  refine (proj1 (active_counts Ex.hash id Ex.onlyA 10 Ex.calls 2 _)).
  intros series now Hin. split; [reflexivity|].
  unfold Ex.calls in Hin.
  repeat (apply elem_of_cons in Hin as [Hin|Hin];
          [injection Hin as -> ->; vm_compute; discriminate|]).
  by apply elem_of_nil in Hin.
Defined.

Lemma purge_keeps_exactly_witness :
  ∃ s', Stripe.purge 9 Ex.twoChains = Some s' ∧
        ∀ fp e, e ∈ Stripe.chain s' fp ↔
                e ∈ Stripe.chain Ex.twoChains fp ∧ time.UnixNano 9 ≤ nanos e.
Proof.
  assert (H3 : Inv.I3 Ex.twoChains).
  { right. unfold Inv.entries, entriesOf.
    apply (bool_decide_unpack _). vm_compute. exact I. }
  assert (H4 : Inv.I4 Ex.twoChains).
  { unfold Inv.I4. apply (bool_decide_unpack _). vm_compute. exact I. }
  assert (Hfit : Inv.fits Ex.twoChains).
  { unfold Inv.fits. apply (bool_decide_unpack _). vm_compute. exact I. }
  destruct (purge_keeps_exactly Ex.twoChains 9 H3 H4 Hfit)
    as (s' & Hp & _ & Hc & _).
  exists s'. split; assumption.
Defined.

Lemma counters_consistent_witness :
  ∃ c', UpdateSeries Ex.hash Ex.seriesA 7 id Ex.emptyTracker = Some c' ∧
        wf c' ∧ Forall (λ s, Inv.I1 s ∧ Inv.I2 s) (stripes c').
Proof.
  assert (Hinv : Forall (λ s, Inv.I1 s ∧ Inv.I2 s) (stripes Ex.emptyTracker)).
  { eapply Forall_impl; [exact emptyTracker_inv|]. by intros s (? & ? & _). }
  exact (proj1 (counters_consistent Ex.hash Ex.emptyTracker emptyTracker_wf Hinv)
           Ex.seriesA 7 id).
Defined.

Lemma hint_conservative_witness :
  ∃ c', purge 3 Ex.emptyTracker = Some c' ∧ Forall Inv.I3 (stripes c').
Proof.
  assert (Hinv : Forall Inv.I3 (stripes Ex.emptyTracker)).
  { eapply Forall_impl; [exact emptyTracker_inv|]. by intros s (_ & _ & ?). }
  exact (proj1 (proj2 (hint_conservative Ex.hash Ex.emptyTracker
                         emptyTracker_wf Hinv)) 3).
Defined.

Lemma stored_timestamp_max_witness :
  ∃ c1 c2 ts,
    UpdateSeries Ex.hash Ex.seriesA 100 id Ex.emptyTracker = Some c1 ∧
    UpdateSeries Ex.hash Ex.seriesA 90 id c1 = Some c2 ∧
    stored Ex.hash c2 Ex.seriesA = Some ts ∧
    time.UnixNano 100 ≤ ts ∧ time.UnixNano 90 ≤ ts ∧
    (time.UnixNano 90 ≤ time.UnixNano 100 →
       c2 = c1 ∧ hintOf Ex.hash c2 Ex.seriesA = hintOf Ex.hash c1 Ex.seriesA).
Proof.
  exact (proj2 (stored_timestamp_max Ex.hash Ex.emptyTracker Ex.seriesA 100 90 id)
           eq_refl emptyTracker_wf).
Defined.

Lemma valid_flag_witness : is_Some (Active 5 Ex.emptyTracker).
Proof.
  exact (proj1 (proj2 (valid_flag Ex.emptyTracker 5)) emptyTracker_wf).
Defined.

Lemma update_idempotent_witness :
  is_Some (UpdateSeries Ex.hash Ex.seriesA 7 id Ex.emptyTracker) ∧
  ∀ c1, UpdateSeries Ex.hash Ex.seriesA 7 id Ex.emptyTracker = Some c1 →
        UpdateSeries Ex.hash Ex.seriesA 7 id c1 = Some c1.
Proof.
  destruct (update_idempotent Ex.hash Ex.emptyTracker Ex.seriesA 7 id eq_refl)
    as [Hsame Htotal].
  split; [exact (Htotal emptyTracker_wf)|exact Hsame].
Defined.

Lemma resizeAndClear_spec_witness :
  mem.valid Ex.prev Ex.heap ∧
  ∃ r h', mem.resizeAndClear 2 Ex.prev Ex.heap = Some (r, h') ∧
          mem.len r = 2%nat ∧ mem.elems r h' = Some [0; 0] ∧
          mem.arr r = mem.arr Ex.prev.
Proof.
  assert (Hv : mem.valid Ex.prev Ex.heap).
  { split; [simpl; lia|]. exists [1; 2; 3; 4; 5]. split; reflexivity. }
  split; [exact Hv|].
  destruct (resizeAndClear_spec 2 Ex.prev Ex.heap Hv)
    as (r & h' & Hr & _ & Hl & He & Hreuse & _).
  exists r, h'. split; [exact Hr|]. split; [exact Hl|]. split; [exact He|].
  apply Hreuse. simpl. lia.
Defined.

Lemma slow_purge_hint_witness :
  Stripe.nothingToDo (time.UnixNano 9) Ex.twoChains = false ∧
  ∃ s', Stripe.purge 9 Ex.twoChains = Some s' ∧
        (Inv.entries s' = [] → Stripe.oldestEntryTs s' = 0).
Proof.
  assert (Hfit : Inv.fits Ex.twoChains).
  { unfold Inv.fits. apply (bool_decide_unpack _). vm_compute. exact I. }
  assert (Hslow : Stripe.nothingToDo (time.UnixNano 9) Ex.twoChains = false)
    by reflexivity.
  split; [exact Hslow|].
  destruct (slow_purge_hint Ex.twoChains 9 Hfit Hslow) as (s' & Hp & _ & H0 & _).
  exists s'. split; assumption.
Defined.

(** * Purging again *)

Section purge_again.
Implicit Types (s : Stripe.activeSeriesStripe).

Lemma stripe_eq s1 s2 :
  Stripe.matchers s1 = Stripe.matchers s2 →
  Stripe.oldestEntryTs s1 = Stripe.oldestEntryTs s2 →
  Stripe.refs s1 = Stripe.refs s2 →
  Stripe.active s1 = Stripe.active s2 →
  slice.vals (Stripe.activeMatching s1) = slice.vals (Stripe.activeMatching s2) →
  slice.room (Stripe.activeMatching s1) = slice.room (Stripe.activeMatching s2) →
  s1 = s2.
Proof.
  destruct s1 as [m1 o1 r1 a1 [v1 rm1]], s2 as [m2 o2 r2 a2 [v2 rm2]].
  simpl. by intros -> -> -> -> -> ->.
Qed.

Lemma purgeLocked_purged k s :
  Inv.fits s →
  Stripe.purgeLocked (map_to_list (Stripe.refs s)) k s = Some (purged k s).
Proof.
  intros Hfit.
  destruct (purgeLocked_spec (map_to_list (Stripe.refs s)) k s)
    as ([m o r a [v rm]] & -> & Hm & Hr & Ha & Ho & Hrm & Hv); [done|done|].
  simpl in *. unfold purged. by subst.
Qed.

Lemma purge_cases keepUntil s :
  Inv.fits s →
  Stripe.purge keepUntil s
  = Some (if Stripe.nothingToDo (time.UnixNano keepUntil) s then s
          else purged (time.UnixNano keepUntil) s).
Proof.
  intros Hfit. unfold Stripe.purge.
  destruct (Stripe.nothingToDo _ s); [done|]. by apply purgeLocked_purged.
Qed.

Lemma entries_purged k s : Inv.entries (purged k s) ≡ₚ kept k (Inv.entries s).
Proof. unfold Inv.entries at 1. simpl. apply entriesOf_purged. Qed.

Lemma len_purged k s :
  slice.len (Stripe.activeMatching (purged k s))
  = slice.len (Stripe.activeMatching s).
Proof. unfold slice.len. simpl. by rewrite length_fmap, length_seq. Qed.

Lemma fits_purged k s : Inv.fits s → Inv.fits (purged k s).
Proof.
  unfold Inv.fits. intros H. rewrite entries_purged, len_purged.
  by apply Forall_kept.
Qed.

Lemma kept_kept_le k1 k2 es : k1 ≤ k2 → kept k2 (kept k1 es) = kept k2 es.
Proof.
  intros Hle. induction es as [|e es IH]; [done|].
  unfold kept in *. rewrite !filter_cons.
  destruct (decide (k1 ≤ nanos e)), (decide (k2 ≤ nanos e)); try lia.
  - rewrite filter_cons, decide_True by done. by rewrite IH.
  - rewrite filter_cons, decide_False by done. done.
  - done.
Qed.

Lemma kept_Forall k es : Forall (λ e, k ≤ nanos e) (kept k es).
Proof. apply Forall_forall. by intros e [_ ?]%elem_of_kept. Qed.

Lemma kept_ext k1 k2 es :
  (∀ e, e ∈ es → k1 ≤ nanos e ↔ k2 ≤ nanos e) → kept k1 es = kept k2 es.
Proof.
  induction es as [|e es IH]; intros H; [done|].
  unfold kept in *. rewrite !filter_cons.
  rewrite IH by (intros; apply H; by right).
  destruct (H e) as [H1 H2]; [left|].
  destruct (decide (k1 ≤ nanos e)), (decide (k2 ≤ nanos e)); tauto.
Qed.

(** Two cut-offs that keep the same entries of a stripe leave the same
    stripe. *)
Lemma purged_ext k1 k2 s :
  (∀ e, e ∈ Inv.entries s → k1 ≤ nanos e ↔ k2 ≤ nanos e) →
  purged k1 s = purged k2 s.
Proof.
  intros Hsame.
  assert (Hk : ∀ es, (∀ e, e ∈ es → e ∈ Inv.entries s) →
                     kept k1 es = kept k2 es).
  { intros es Hsub. apply kept_ext. intros e He. apply Hsame. by apply Hsub. }
  unfold purged. rewrite (Hk (Inv.entries s)) by done. f_equal.
  apply map_eq. intros fp. rewrite !lookup_omap.
  destruct (Stripe.refs s !! fp) as [es|] eqn:Hfp; simpl; [|done].
  rewrite (Hk es); [done|]. intros e He.
  apply elem_of_entriesOf. by exists fp, es.
Qed.

(** Purging what has been purged, at a cut-off that the entries left all
    pass, changes nothing. *)
Lemma purged_stable k1 k2 s :
  Forall (λ e, k2 ≤ nanos e) (kept k1 (Inv.entries s)) →
  purged k2 (purged k1 s) = purged k1 s.
Proof.
  intros Hall.
  assert (He : kept k2 (Inv.entries (purged k1 s))
               ≡ₚ kept k1 (Inv.entries s)).
  { rewrite entries_purged. by rewrite kept_all. }
  apply stripe_eq; simpl.
  - done.
  - by rewrite (minNanos_perm _ _ _ He).
  - apply map_eq. intros fp. rewrite !lookup_omap.
    destruct (Stripe.refs s !! fp) as [es|] eqn:Hfp; simpl; [|done].
    destruct (kept k1 es) as [|e l] eqn:Hk; simpl; [done|].
    rewrite <- Hk. rewrite kept_all; [by rewrite Hk|].
    rewrite Forall_forall in Hall. apply Forall_forall. intros e' He'.
    apply Hall. apply elem_of_kept in He' as [He' ?].
    apply elem_of_kept. split; [|done].
    apply elem_of_entriesOf. by exists fp, es.
  - by rewrite He.
  - unfold slice.len at 1. simpl. rewrite length_fmap, length_seq.
    apply list_fmap_ext. intros _ j _. by rewrite He.
  - done.
Qed.

Lemma purged_purged k1 k2 s :
  k1 ≤ k2 → purged k2 (purged k1 s) = purged k2 s.
Proof.
  intros Hle.
  assert (He : kept k2 (Inv.entries (purged k1 s))
               ≡ₚ kept k2 (Inv.entries s)).
  { by rewrite entries_purged, kept_kept_le. }
  apply stripe_eq; simpl.
  - done.
  - by rewrite (minNanos_perm _ _ _ He).
  - apply map_eq. intros fp. rewrite !lookup_omap.
    destruct (Stripe.refs s !! fp) as [es|] eqn:Hfp; simpl; [|done].
    destruct (kept k1 es) as [|e l] eqn:Hk; simpl.
    + rewrite <- (kept_kept_le k1 k2) by done. by rewrite Hk.
    + by rewrite <- Hk, kept_kept_le.
  - by rewrite He.
  - unfold slice.len at 1. simpl. rewrite length_fmap, length_seq.
    apply list_fmap_ext. intros _ j _. by rewrite He.
  - done.
Qed.
End purge_again.

Lemma nothingToDo_le k1 k2 (s : Stripe.activeSeriesStripe) :
  k2 ≤ k1 → Stripe.nothingToDo k1 s = true → Stripe.nothingToDo k2 s = true.
Proof. rewrite !nothingToDo_true. lia. Qed.

Lemma tracker_purge_settled keepUntil c c1 :
  Forall Inv.fits (stripes c) →
  purge keepUntil c = Some c1 → purge keepUntil c1 = Some c1.
Proof.
  intros Hfit (Hm & Hl & Ht & H2)%tracker_purge_inv. unfold purge.
  assert (Hsame : mapM (Stripe.purge keepUntil) (stripes c1) = Some (stripes c1)).
  { apply mapM_Some. clear Hm Hl Ht.
    induction H2 as [|s s1 ss ss1 Hs _ IH]; [constructor|].
    inversion Hfit as [|?? Hfs Hfss]; subst.
    constructor; [|by apply IH].
    rewrite purge_cases in Hs by done. injection Hs as <-.
    destruct (Stripe.nothingToDo (time.UnixNano keepUntil) s) eqn:Hn.
    - by rewrite purge_cases, Hn.
    - rewrite purge_cases by (by apply fits_purged).
      destruct (Stripe.nothingToDo _ (purged _ s)); [done|]. f_equal.
      apply purged_stable, kept_Forall. }
  rewrite Hsame. simpl. by destruct c1.
Qed.


(** * What [Active] counts and what it forgets *)

Lemma kept_bind {A} k (f : A → list activeSeriesEntry) (l : list A) :
  kept k (l ≫= f) = l ≫= (λ x, kept k (f x)).
Proof.
  induction l as [|x l IH]; [done|].
  by rewrite !bind_cons, kept_app, IH.
Qed.

Lemma purge_all_entries keepUntil (ss ss' : list Stripe.activeSeriesStripe) :
  Forall Inv.I3 ss → Forall Inv.fits ss →
  Forall2 (λ s s', Stripe.purge keepUntil s = Some s') ss ss' →
  ss' ≫= Inv.entries ≡ₚ kept (time.UnixNano keepUntil) (ss ≫= Inv.entries).
Proof.
  intros H3 Hfit H2. rewrite kept_bind.
  induction H2 as [|s s' ss ss' Hs _ IH]; [done|].
  inversion H3; inversion Hfit; subst.
  rewrite !bind_cons, IH by done.
  by rewrite (purge_entries _ _ _ ltac:(eassumption) ltac:(eassumption) Hs).
Qed.

Lemma Active_live clock c :
  wfStripes c → Forall (λ s, Inv.I1 s ∧ Inv.I2 s ∧ Inv.I3 s) (stripes c) →
  ∃ c' tm,
    Active clock c
    = Some (c', (Z.of_nat (length (kept (time.UnixNano (purgeTime clock c))
                                     (allEntries c))),
                 tm, time.After (purgeTime clock c) (lastMatchersUpdate c))) ∧
    slice.vals tm
    = (λ j, hits j (kept (time.UnixNano (purgeTime clock c)) (allEntries c)))
        <$> seq 0 (length (MatcherNames (matchers c))) ∧
    allEntries c' ≡ₚ kept (time.UnixNano (purgeTime clock c)) (allEntries c) ∧
    purge (purgeTime clock c) c = Some c'.
Proof.
  intros Hws Hinv.
  destruct (Active_spec clock c Hws) as (c' & tm & Ha & Hp & Hws' & Hv).
  pose proof Hp as (Hm' & _ & _ & H2)%tracker_purge_inv.
  pose proof (wfStripes_fits _ Hws) as Hfit.
  assert (Hall : allEntries c'
                 ≡ₚ kept (time.UnixNano (purgeTime clock c)) (allEntries c)).
  { apply purge_all_entries; [|done|done].
    eapply Forall_impl; [exact Hinv|]. by intros s (_ & _ & ?). }
  assert (Hinv' : Forall (λ s, Inv.I1 s ∧ Inv.I2 s) (stripes c')).
  { eapply (Forall2_purge_preserves (λ s, Inv.I1 s ∧ Inv.I2 s));
      [| |exact Hfit|exact H2].
    - intros s s' [H1 H2'] Hf Hs. by eapply purge_I1_I2.
    - eapply Forall_impl; [exact Hinv|]. by intros s (? & ? & _). }
  exists c', tm. split; [|split; [|done]].
  - rewrite Ha. do 3 f_equal. rewrite sumActive_I1.
    + unfold allEntries in Hall. by rewrite Hall.
    + eapply Forall_impl; [exact Hinv'|]. by intros s [? _].
  - rewrite Hv. apply list_eq. intros j. rewrite !list_lookup_fmap.
    destruct (seq 0 (length (MatcherNames (matchers c))) !! j) as [i|] eqn:Hj;
      simpl; [|done].
    apply lookup_seq in Hj as [-> Hj]. simpl. f_equal.
    rewrite sumMatching_I2; [unfold allEntries in Hall; by rewrite Hall|].
    unfold wfStripes in Hws'. rewrite Forall_forall in Hws', Hinv'.
    apply Forall_forall. intros s Hs.
    destruct (Hws' s Hs) as [[Hn _] Hms]. destruct (Hinv' s Hs) as [_ ?].
    split; [done|]. rewrite <- Hn, Hms, Hm'. done.
Qed.

(** ** The entry of a series in a chain *)

Lemma foundEntry_cons_eq l e es :
  lbs e = l → foundEntry l (e :: es) = Some e.
Proof. intros H. unfold foundEntry. simpl. by rewrite decide_True. Qed.

Lemma foundEntry_cons_ne l e es :
  lbs e ≠ l → foundEntry l (e :: es) = foundEntry l es.
Proof.
  intros H. unfold foundEntry. simpl. rewrite decide_False by done.
  by destruct (lookupLabels l es).
Qed.

Lemma foundEntry_None l es : l ∉ lbs <$> es → foundEntry l es = None.
Proof.
  intros H. unfold foundEntry. by rewrite (proj2 (lookupLabels_None l es) H).
Qed.

Lemma foundEntry_kept K l es :
  NoDup (lbs <$> es) →
  nanos <$> foundEntry l (kept K es) = survives K (nanos <$> foundEntry l es).
Proof.
  induction es as [|e es IH]; [done|].
  rewrite fmap_cons. intros [Hnin Hnd]%NoDup_cons.
  unfold kept in *. rewrite filter_cons.
  destruct (decide (lbs e = l)) as [Hl|Hl].
  - rewrite (foundEntry_cons_eq l e es) by done. simpl.
    destruct (decide (K ≤ nanos e)).
    + by rewrite foundEntry_cons_eq.
    + rewrite foundEntry_None; [done|]. subst l.
      intros (e' & He' & [_ Hin]%list_elem_of_filter)%list_elem_of_fmap.
      apply Hnin. apply list_elem_of_fmap. by exists e'.
  - rewrite (foundEntry_cons_ne l e es) by done.
    destruct (decide (K ≤ nanos e)).
    + rewrite foundEntry_cons_ne by done. by apply IH.
    + by apply IH.
Qed.

Lemma stored_foundEntry Hash c series :
  stored Hash c series
  = stripes c !! stripeID (Hash series) ≫=
      (λ s, nanos <$> foundEntry series (Stripe.chain s (Hash series))).
Proof.
  unfold stored, foundEntry, Stripe.findEntryForSeries, Stripe.load.
  destruct (stripes c !! _) as [s|]; simpl; [|done].
  by destruct (lookupLabels _ _).
Qed.

Lemma purge_chain keepUntil (s s' : Stripe.activeSeriesStripe) fp :
  Inv.I3 s → Inv.I4 s → Inv.fits s →
  Stripe.purge keepUntil s = Some s' →
  Stripe.chain s' fp = kept (time.UnixNano keepUntil) (Stripe.chain s fp).
Proof.
  intros H3 H4 Hfit Hp. unfold Stripe.chain.
  rewrite (purge_refs _ _ _ H3 H4 Hfit Hp), lookup_omap.
  destruct (Stripe.refs s !! fp) as [es|]; simpl; [|done].
  by destruct (kept _ es).
Qed.

Lemma Active_stored Hash c c' clock r series :
  Forall (λ s, Inv.I3 s ∧ Inv.I4 s ∧ Inv.I5 s ∧ Inv.fits s) (stripes c) →
  Active clock c = Some (c', r) →
  stored Hash c' series
  = survives (time.UnixNano (purgeTime clock c)) (stored Hash c series).
Proof.
  intros Hinv Ha. destruct r as [[total tm] valid].
  apply Active_inv in Ha as ((_ & _ & _ & H2)%tracker_purge_inv & _).
  rewrite !stored_foundEntry.
  destruct (stripes c !! stripeID (Hash series)) as [s|] eqn:Hs.
  - destruct (Forall2_lookup_l _ _ _ _ _ H2 Hs) as (s' & Hs' & Hp).
    rewrite Hs'. simpl.
    rewrite Forall_forall in Hinv.
    destruct (Hinv s) as (H3 & H4 & H5 & Hfit);
      [by eapply list_elem_of_lookup_2|].
    rewrite (purge_chain _ _ _ _ H3 H4 Hfit Hp).
    apply foundEntry_kept. unfold Stripe.chain.
    destruct (Stripe.refs s !! Hash series) as [es|] eqn:Hes; simpl;
      [by apply (H5 (Hash series) es)|constructor].
  - apply lookup_ge_None in Hs.
    rewrite (Forall2_length _ _ _ H2) in Hs.
    by rewrite (proj2 (lookup_ge_None _ _) Hs).
Qed.

(** * What an update leaves alone, and what it adds *)

Lemma foundEntry_insert_ne l es i e v :
  es !! i = Some e → lbs e ≠ l →
  foundEntry l (<[i := mkEntry (lbs e) v (matches e)]> es) = foundEntry l es.
Proof.
  revert i. induction es as [|e0 es IH]; intros i Hi Hne; [done|].
  destruct i as [|i]; simpl in *.
  - injection Hi as ->. by rewrite !foundEntry_cons_ne.
  - destruct (decide (lbs e0 = l)) as [H0|H0].
    + by rewrite !foundEntry_cons_eq.
    + rewrite !foundEntry_cons_ne by done. by apply IH.
Qed.

Lemma foundEntry_snoc_ne l es e :
  lbs e ≠ l → foundEntry l (es ++ [e]) = foundEntry l es.
Proof.
  intros Hne. induction es as [|e0 es IH]; simpl.
  - by rewrite foundEntry_cons_ne.
  - destruct (decide (lbs e0 = l)) as [H0|H0].
    + by rewrite !foundEntry_cons_eq.
    + by rewrite !foundEntry_cons_ne.
Qed.

Lemma update_foundEntry_other now series fp copy s s' fp0 other :
  Stripe.updateSeriesTimestamp now series fp copy s = Some s' →
  other ≠ series → other ≠ copy series →
  foundEntry other (Stripe.chain s' fp0) = foundEntry other (Stripe.chain s fp0).
Proof.
  intros Hu Hne Hnc. destruct (decide (fp0 = fp)) as [->|Hfp].
  - apply update_inv in Hu as [(i & e & Hl & He & Hlbs & ->)|(c & Hl & Hc & ->)].
    + case_decide; [|done]. rewrite chain_withNanos.
      apply foundEntry_insert_ne; [done|congruence].
    + rewrite chain_withEntry. apply foundEntry_snoc_ne. simpl. congruence.
  - unfold Stripe.chain. by rewrite (update_refs_ne _ _ _ _ _ _ _ Hu Hfp).
Qed.

Lemma sumActive_insert ss i s s' :
  ss !! i = Some s →
  sumActive (<[i := s']> ss) = sumActive ss - Stripe.active s + Stripe.active s'.
Proof.
  revert i. induction ss as [|s0 ss IH]; intros i Hi; [done|].
  destruct i as [|i]; simpl in *.
  - injection Hi as ->. lia.
  - rewrite (IH i Hi). lia.
Qed.

Lemma sumMatching_insert j ss i s s' :
  ss !! i = Some s →
  sumMatching j (<[i := s']> ss)
  = sumMatching j ss - default 0 (slice.vals (Stripe.activeMatching s) !! j)
    + default 0 (slice.vals (Stripe.activeMatching s') !! j).
Proof.
  revert i. induction ss as [|s0 ss IH]; intros i Hi; [done|].
  destruct i as [|i]; simpl in *.
  - injection Hi as ->. lia.
  - rewrite (IH i Hi). lia.
Qed.

Lemma stored_is_Some Hash c series s :
  stripes c !! stripeID (Hash series) = Some s →
  (if stored Hash c series is Some _ then true else false)
  = (if lookupLabels series (Stripe.chain s (Hash series)) is Some _ then true else false).
Proof.
  intros Hs. unfold stored, Stripe.findEntryForSeries, Stripe.load.
  rewrite Hs. simpl.
  destruct (lookupLabels _ _) as [i|] eqn:Hl; simpl; [|done].
  apply lookupLabels_Some in Hl as (e & -> & _). done.
Qed.

Lemma update_counters now series fp copy s s' :
  Inv.I6 s →
  Stripe.updateSeriesTimestamp now series fp copy s = Some s' →
  Stripe.active s'
  = Stripe.active s
    + (if lookupLabels series (Stripe.chain s fp) is Some _ then 0 else 1) ∧
  ∀ j, default 0 (slice.vals (Stripe.activeMatching s') !! j)
       = default 0 (slice.vals (Stripe.activeMatching s) !! j)
         + (if lookupLabels series (Stripe.chain s fp) is Some _ then 0
            else tally (Matches (Stripe.matchers s) series) j).
Proof.
  intros [Hn _] [(i & e & Hl & He & _ & ->)|(c & Hl & Hc & ->)]%update_inv.
  - rewrite Hl. case_decide; simpl; (split; [lia|intros j; lia]).
  - rewrite Hl. simpl. split; [done|]. intros j.
    apply addMatches_0 in Hc as (_ & _ & Hv). rewrite Hv.
    destruct (slice.vals (Stripe.activeMatching s) !! j) eqn:Hj; simpl; [done|].
    rewrite tally_ge; [done|]. rewrite length_Matches, Hn.
    by apply lookup_ge_None.
Qed.

(** * Updates of different fingerprints *)

Lemma foundEntry_lookup l es i e :
  lookupLabels l es = Some i → es !! i = Some e → foundEntry l es = Some e.
Proof. intros Hl He. unfold foundEntry. rewrite Hl. done. Qed.

Lemma update_fields now series fp copy s s' :
  Stripe.updateSeriesTimestamp now series fp copy s = Some s' →
  Stripe.matchers s' = Stripe.matchers s ∧
  Stripe.oldestEntryTs s'
  = (if touched series (time.UnixNano now) (Stripe.chain s fp)
        && bool_decide (time.UnixNano now < Stripe.oldestEntryTs s)
     then 0 else Stripe.oldestEntryTs s) ∧
  Stripe.chain s' fp
  = chainAfter series (time.UnixNano now) copy
      (Matches (Stripe.matchers s) series) (Stripe.chain s fp) ∧
  Stripe.refs s' = <[fp := Stripe.chain s' fp]> (Stripe.refs s) ∧
  Stripe.active s'
  = Stripe.active s
    + (if lookupLabels series (Stripe.chain s fp) is Some _ then 0 else 1) ∧
  slice.room (Stripe.activeMatching s') = slice.room (Stripe.activeMatching s) ∧
  ∀ j, slice.vals (Stripe.activeMatching s') !! j
       = (λ a, a + (if lookupLabels series (Stripe.chain s fp) is Some _ then 0
                    else tally (Matches (Stripe.matchers s) series) j))
           <$> slice.vals (Stripe.activeMatching s) !! j.
Proof.
  intros Hu. pose proof (update_matchers _ _ _ _ _ _ Hu) as Hm.
  pose proof (update_refs_eq _ _ _ _ _ _ Hu) as Heq.
  assert (Hrefs : Stripe.refs s' = <[fp := Stripe.chain s' fp]> (Stripe.refs s)).
  { apply map_eq. intros fp0. destruct (decide (fp0 = fp)) as [->|Hne].
    - by rewrite lookup_insert_eq.
    - rewrite lookup_insert_ne by done. by eapply update_refs_ne. }
  split; [done|].
  apply update_inv in Hu as [(i & e & Hl & He & _ & ->)|(c & Hl & Hc & ->)].
  - unfold touched, chainAfter.
    rewrite (foundEntry_lookup _ _ _ _ Hl He), Hl.
    assert (Hz : ∀ j, slice.vals (Stripe.activeMatching s) !! j
                      = (λ a, a + 0) <$> slice.vals (Stripe.activeMatching s) !! j).
    { intros j. destruct (_ !! j); simpl; [|done]. f_equal. lia. }
    case_decide as Hlt.
    + rewrite bool_decide_eq_true_2 by done. rewrite chain_withNanos. simpl.
      split; [by repeat case_decide|]. split; [done|]. split; [done|].
      split; [lia|]. done.
    + rewrite bool_decide_eq_false_2 by done. simpl.
      split; [done|]. split; [done|]. split; [done|]. split; [lia|]. done.
  - unfold touched, chainAfter, foundEntry. rewrite Hl. simpl.
    rewrite chain_withEntry in *. simpl.
    apply addMatches_0 in Hc as (Hr & _ & Hv).
    split; [by repeat case_decide|]. split; [done|]. split; [done|].
    split; [done|]. done.
Qed.

Lemma update_chain_other now series fp copy s s' fp0 :
  Stripe.updateSeriesTimestamp now series fp copy s = Some s' →
  fp0 ≠ fp → Stripe.chain s' fp0 = Stripe.chain s fp0.
Proof.
  intros Hu Hne. unfold Stripe.chain.
  by rewrite (update_refs_ne _ _ _ _ _ _ _ Hu Hne).
Qed.

Lemma update_commute s a b ta tb fpa fpb copy :
  Inv.I6 s → fpa ≠ fpb →
  Stripe.updateSeriesTimestamp ta a fpa copy s
    ≫= Stripe.updateSeriesTimestamp tb b fpb copy
  = Stripe.updateSeriesTimestamp tb b fpb copy s
    ≫= Stripe.updateSeriesTimestamp ta a fpa copy.
Proof.
  intros H6 Hne.
  destruct (update_total ta a fpa copy s H6) as [sa Ha].
  destruct (update_total tb b fpb copy s H6) as [sb Hb].
  rewrite Ha, Hb. simpl.
  destruct (update_total tb b fpb copy sa (update_I6 _ _ _ _ _ _ H6 Ha))
    as [sab Hab].
  destruct (update_total ta a fpa copy sb (update_I6 _ _ _ _ _ _ H6 Hb))
    as [sba Hba].
  rewrite Hab, Hba. f_equal.
  pose proof (update_chain_other _ _ _ _ _ _ fpb Ha ltac:(done)) as Hcb.
  pose proof (update_chain_other _ _ _ _ _ _ fpa Hb Hne) as Hca.
  apply update_fields in Ha as (Hm1 & Ho1 & Hc1 & Hr1 & Ha1 & Hrm1 & Hv1).
  apply update_fields in Hb as (Hm2 & Ho2 & Hc2 & Hr2 & Ha2 & Hrm2 & Hv2).
  apply update_fields in Hab as (Hm3 & Ho3 & Hc3 & Hr3 & Ha3 & Hrm3 & Hv3).
  apply update_fields in Hba as (Hm4 & Ho4 & Hc4 & Hr4 & Ha4 & Hrm4 & Hv4).
  rewrite Hcb, Hm1 in *. rewrite Hca, Hm2 in *.
  apply stripe_eq.
  - congruence.
  - rewrite Ho3, Ho4, Ho1, Ho2.
    destruct (touched a _ _), (touched b _ _); simpl;
      repeat case_bool_decide; try done; lia.
  - rewrite Hr3, Hr4, Hr1, Hr2, Hc3, Hc4, Hc1, Hc2.
    by apply insert_insert_ne.
  - rewrite Ha3, Ha4, Ha1, Ha2. lia.
  - apply list_eq. intros j. rewrite Hv3, Hv4, Hv1, Hv2.
    destruct (slice.vals (Stripe.activeMatching s) !! j); simpl; [|done].
    f_equal. lia.
  - congruence.
Qed.

(** * [clear] *)

Lemma zeroLoop_spec n : ∀ i c,
  (i + n = slice.len c)%nat →
  StripeClear.zeroLoop n i c
  = Some (slice.mk (take i (slice.vals c) ++ replicate n 0) (slice.room c)).
Proof.
  induction n as [|n IH]; intros i [v r]; unfold slice.len; simpl; intros Hn.
  - by rewrite app_nil_r, take_ge by lia.
  - unfold slice.set, slice.len. simpl. rewrite decide_True by lia. simpl.
    rewrite IH by (unfold slice.len; simpl; rewrite length_insert; lia).
    simpl. do 2 f_equal.
    rewrite (take_S_r _ _ 0) by (apply list_lookup_insert_eq; lia).
    rewrite take_insert_ge by lia. by rewrite <- app_assoc.
Qed.

Lemma stripe_clear_spec s :
  StripeClear.clear s
  = Some (Stripe.mk (Stripe.matchers s) 0 ∅ 0
            (slice.mk (replicate (slice.len (Stripe.activeMatching s)) 0)
               (slice.room (Stripe.activeMatching s)))).
Proof.
  unfold StripeClear.clear. by rewrite zeroLoop_spec by done.
Qed.

Lemma stripe_clear_reinitialize s :
  length (MatcherNames (Stripe.matchers s))
  = slice.len (Stripe.activeMatching s) →
  StripeClear.clear s = Stripe.reinitialize (Stripe.matchers s) s.
Proof.
  intros Hn. rewrite stripe_clear_spec. unfold Stripe.reinitialize.
  by rewrite Hn, resizeAndClear_same_len.
Qed.

Lemma mapM_fmap_total {A B} (f : A → option B) (g : A → B) (l : list A) :
  (∀ x, f x = Some (g x)) → mapM f l = Some (g <$> l).
Proof.
  intros H. induction l as [|x l IH]; simpl; [done|].
  by rewrite H, IH.
Qed.

Lemma mapM_ext_Forall {A B} (f g : A → option B) (l : list A) :
  Forall (λ x, f x = g x) l → mapM f l = mapM g l.
Proof. induction 1 as [|x l Hx _ IH]; simpl; [done|]. by rewrite Hx, IH. Qed.

(** * What [purge] takes from the counters *)

Lemma length_kept_expired k (es : list activeSeriesEntry) :
  (length (kept k es) + length (filter (λ e, (nanos e < k)%Z) es)
   = length es)%nat.
Proof.
  unfold kept. induction es as [|e es IH]; [done|].
  rewrite !filter_cons. destruct (decide (k ≤ nanos e)).
  - rewrite decide_False by lia. simpl. lia.
  - rewrite decide_True by lia. simpl. lia.
Qed.

Lemma hits_kept_expired j k (es : list activeSeriesEntry) :
  hits j (kept k es) + hits j (filter (λ e, nanos e < k) es) = hits j es.
Proof.
  unfold kept. induction es as [|e es IH]; [done|].
  rewrite !filter_cons. destruct (decide (k ≤ nanos e)).
  - rewrite decide_False by lia. rewrite !hits_cons. lia.
  - rewrite decide_True by lia. rewrite !hits_cons. lia.
Qed.

(** * Calls of [resizeAndClear] that fit the capacity *)

Lemma mem_resizeAndClear_fits l p h :
  mem.valid p h → (l ≤ mem.cap p)%nat →
  ∃ r h', mem.resizeAndClear l p h = Some (r, h') ∧ mem.valid r h' ∧
          mem.arr r = mem.arr p ∧ mem.cap r = mem.cap p ∧ mem.len r = l ∧
          dom h' = dom h ∧ (∀ b, mem.arr p ≠ Some b → h' !! b = h !! b).
Proof.
  intros [Hlen Harr] Hl. destruct (mem.arr p) as [a|] eqn:Ha.
  - destruct Harr as (cells & Hh & Hc).
    rewrite (mem_resizeAndClear_reuse l p h a cells) by done.
    eexists _, _. split; [done|]. simpl. split.
    { split; simpl; [done|]. eexists. rewrite lookup_insert_eq.
      split; [done|]. rewrite length_app, length_replicate, length_drop. lia. }
    split; [done|]. split; [done|]. split; [done|]. split.
    + apply dom_insert_lookup_L. by rewrite Hh.
    + intros b Hb. rewrite lookup_insert_ne; [done|congruence].
  - assert (l = 0%nat) as -> by lia.
    rewrite mem_resizeAndClear_nil by done.
    eexists _, _. split; [done|]. simpl. split; [by split|]. done.
Qed.

(** * Smaller facts *)

Lemma hits_le_length j (es : list activeSeriesEntry) :
  0 ≤ hits j es ≤ Z.of_nat (length es).
Proof.
  unfold hits. pose proof (length_filter (λ e, matches e !! j = Some true) es).
  lia.
Qed.

Lemma updateAll_fields Hash copy calls : ∀ c c',
  updateAll Hash copy calls c = Some c' →
  matchers c' = matchers c ∧ lastMatchersUpdate c' = lastMatchersUpdate c ∧
  timeout c' = timeout c ∧ length (stripes c') = length (stripes c).
Proof.
  unfold updateAll.
  induction calls as [|[series now] calls IH]; intros c c' H.
  - by injection H as <-.
  - rewrite forEach_cons in H. simpl in H.
    destruct (UpdateSeries Hash series now copy c) as [c1|] eqn:H1;
      simpl in H; [|done].
    apply IH in H as (-> & -> & -> & ->).
    apply UpdateSeries_inv in H1 as (s & s' & _ & _ & ->). simpl.
    by rewrite length_insert.
Qed.

Lemma lookupLabels_first l es i :
  lookupLabels l es = Some i →
  ∀ j e, (j < i)%nat → es !! j = Some e → lbs e ≠ l.
Proof.
  revert i. induction es as [|e0 es IH]; intros i; simpl; [done|].
  case_decide as He.
  - intros [= <-] j e Hj. lia.
  - destruct (lookupLabels l es) as [i0|]; simpl; [|done].
    intros [= <-] [|j] e Hj; simpl.
    + by intros [= <-].
    + apply (IH i0); [done|lia].
Qed.

Lemma purgeChain_fuel k n : ∀ i es o,
  (length (drop i es) ≤ n)%nat →
  Stripe.purgeChain n k i es o
  = (take i es ++ kept k (drop i es), minNanos o (kept k (drop i es))).
Proof.
  induction n as [|n IH]; intros i es o Hn; simpl.
  - rewrite length_drop in Hn.
    rewrite drop_ge, take_ge by lia. simpl. by rewrite app_nil_r.
  - destruct (es !! i) as [e|] eqn:He.
    2:{ apply lookup_ge_None in He.
        rewrite drop_ge, take_ge by lia. simpl. by rewrite app_nil_r. }
    rewrite (drop_S _ _ _ He) in *. simpl in Hn.
    unfold kept at 1 2. rewrite filter_cons. fold (kept k (drop (S i) es)).
    apply lookup_lt_Some in He as Hi.
    destruct (decide (nanos e < k)) as [Hlt|Hge].
    + rewrite (decide_False (P := k ≤ nanos e)) by lia.
      rewrite IH.
      * rewrite take_app_length' by (rewrite length_take; lia).
        by rewrite drop_app_length' by (rewrite length_take; lia).
      * rewrite drop_app_length' by (rewrite length_take; lia). lia.
    + rewrite (decide_True (P := k ≤ nanos e)) by lia. rewrite IH by lia.
      rewrite (take_S_r _ _ _ He), <- app_assoc. simpl. f_equal.
      rewrite <- minNanos_min. f_equal. case_decide; lia.
Qed.

(** * Where the entries of a reachable tracker are *)

Lemma wrap64_lower z : MinInt64 ≤ wrap64 z.
Proof.
  unfold wrap64, MinInt64.
  pose proof (Z.mod_pos_bound (z + 2 ^ 63) (2 ^ 64) ltac:(lia)). lia.
Qed.

Section homes.
Variable Hash : list (string * string) → N.
Variable K : Z.

Lemma Rep_self c seen : Rep Hash K c seen → Rep Hash K c (lbs <$> allEntries c).
Proof.
  intros (? & ? & ? & ? & _). split; [done|]. split; [done|].
  split; [done|]. split; done.
Qed.

Lemma Rep_reinitialized asm ss last idle :
  length ss = numActiveSeriesStripes → Forall (reinitialized asm) ss →
  Rep Hash K (mkActiveSeries ss asm last idle) [].
Proof.
  intros Hl Hall. split; [by apply reinitialized_wf|]. simpl. split.
  { eapply Forall_impl; [exact Hall|]. intros s Hs.
    by destruct (reinitialized_inv asm s Hs) as (? & ? & _). }
  split.
  { intros sid s fp es Hs Hes. simpl in Hs.
    rewrite Forall_forall in Hall.
    destruct (Hall s) as (_ & _ & Hr & _); [by eapply list_elem_of_lookup_2|].
    by rewrite Hr in Hes. }
  unfold allEntries. simpl. rewrite (entries_reinitialized asm) by done.
  split; [constructor|]. done.
Qed.

Lemma Rep_purge keepUntil c c' seen :
  Rep Hash K c seen → Forall (λ s, Inv.I3 s ∧ Inv.I4 s) (stripes c) →
  purge keepUntil c = Some c' → Rep Hash K c' (lbs <$> allEntries c').
Proof.
  intros (Hwf & Hinv & Hpl & Hnd & _) H34 Hp.
  pose proof (wfStripes_fits _ (proj2 Hwf)) as Hfit.
  pose proof Hp as (Hm & _ & _ & H2)%tracker_purge_inv.
  split; [by eapply tracker_purge_wf|]. split.
  { eapply (Forall2_purge_preserves (λ s, Inv.I1 s ∧ Inv.I2 s));
      [|exact Hinv|exact Hfit|exact H2].
    intros s s' [H1 H2'] Hf Hs. by eapply purge_I1_I2. }
  split.
  { intros sid s' fp es' Hs' Hes'. rewrite Hm.
    destruct (Forall2_lookup_r _ _ _ _ _ H2 Hs') as (s & Hs & Hps).
    rewrite Forall_forall in H34. rewrite Forall_forall in Hfit.
    destruct (H34 s) as [H3 H4]; [by eapply list_elem_of_lookup_2|].
    rewrite (purge_refs _ _ _ H3 H4 (Hfit s ltac:(by eapply list_elem_of_lookup_2))
               Hps), lookup_omap in Hes'.
    destruct (Stripe.refs s !! fp) as [es|] eqn:Hes; simpl in Hes'; [|done].
    destruct (Hpl _ _ _ _ Hs Hes) as [-> Hall]. split; [done|].
    unfold nonEmpty in Hes'. destruct (kept _ es) eqn:Hk; [done|].
    injection Hes' as <-. rewrite <- Hk. by apply Forall_kept. }
  split; [|done].
  assert (Hall : allEntries c' ≡ₚ kept (time.UnixNano keepUntil) (allEntries c)).
  { apply purge_all_entries; [|done|done].
    eapply Forall_impl; [exact H34|]. by intros s [? _]. }
  rewrite Hall. eapply sublist_NoDup; [exact Hnd|apply fmap_sublist, sublist_filter].
Qed.

End homes.

Lemma reachable_Rep Hash c :
  reachable Hash c → Rep Hash MinInt64 c (lbs <$> allEntries c).
Proof.
  induction 1 as [asm idle c Hc|c series now copy c' Hr IH Hcopy Hu
                  |c clock c' r Hr IH Ha|c asm clock c' Hr IH Hre].
  - destruct (NewActiveSeries_spec asm idle) as (ss & Hc0 & Hl & Hall).
    rewrite Hc0 in Hc. injection Hc as <-.
    by eapply Rep_self, Rep_reinitialized.
  - destruct (Rep_step Hash MinInt64 c _ series now copy IH Hcopy
                (wrap64_lower _)) as (c1 & Hc1 & Hrep & _).
    rewrite Hc1 in Hu. injection Hu as <-. by eapply Rep_self.
  - destruct r as [[total tm] valid]. apply Active_inv in Ha as (Hp & _).
    destruct (reachable_invariants _ _ Hr) as [_ Hs].
    eapply Rep_purge; [exact IH| |exact Hp].
    eapply Forall_impl; [exact Hs|]. by intros s (_ & _ & ? & ? & _).
  - destruct (ReloadMatchers_spec asm clock c) as (ss & Hr0 & Hl & Hall).
    rewrite Hr0 in Hre. injection Hre as <-.
    eapply Rep_self, Rep_reinitialized; [|done].
    rewrite Hl. apply (reachable_invariants _ _ Hr).
Qed.

Lemma foundEntry_self es e :
  NoDup (lbs <$> es) → e ∈ es → foundEntry (lbs e) es = Some e.
Proof.
  induction es as [|e0 es IH]; [by intros _ ?%elem_of_nil|].
  rewrite fmap_cons. intros [Hnin Hnd]%NoDup_cons [->|Hin]%elem_of_cons.
  - by apply foundEntry_cons_eq.
  - rewrite foundEntry_cons_ne; [by apply IH|].
    intros Heq. apply Hnin. rewrite Heq. apply list_elem_of_fmap. by exists e.
Qed.

Lemma stored_entry Hash c series ts :
  stored Hash c series = Some ts →
  ∃ e, e ∈ allEntries c ∧ lbs e = series ∧ nanos e = ts.
Proof.
  intros (s & i & e & Hs & Hl & He & <-)%stored_Some.
  apply lookupLabels_Some in Hl as (e' & He' & Hlbs).
  assert (e' = e) as -> by congruence.
  exists e. split; [|done]. unfold allEntries.
  apply list_elem_of_bind. exists s. split; [|by eapply list_elem_of_lookup_2].
  unfold Inv.entries. fold (Inv.entries s). rewrite (entries_split s (Hash series)).
  apply elem_of_app. left. by eapply list_elem_of_lookup_2.
Qed.

(** * [getTotalAndUpdateMatching] on a vector that is too short *)

Lemma getTotal_short s (m : slice.t) :
  (slice.len m < slice.len (Stripe.activeMatching s))%nat →
  Stripe.getTotalAndUpdateMatching s m = None.
Proof.
  intros Hlt. unfold Stripe.getTotalAndUpdateMatching.
  set (l := slice.vals (Stripe.activeMatching s)).
  assert (Hl : (slice.len m < length l)%nat) by done.
  rewrite <- (take_drop (slice.len m) l), imap_app, forEach_app.
  destruct (addInto_spec (take (slice.len m) l) 0 m)
    as (m1 & Hm1 & _ & Hl1 & _); [rewrite length_take; simpl; lia|].
  simpl in Hm1. rewrite Hm1. simpl.
  destruct (drop (slice.len m) l) as [|a rest] eqn:Hd.
  { apply (f_equal length) in Hd. rewrite length_drop in Hd.
    unfold slice.len in *. simpl in Hd. exfalso; lia. }
  rewrite length_take, Nat.min_l by lia. simpl.
  unfold slice.get. rewrite Nat.add_0_r.
  rewrite (proj2 (lookup_ge_None _ _)); [done|].
  unfold slice.len in *. lia.
Qed.

(** * A new tracker *)

Lemma purge_reinitialized_id asm keepUntil s :
  reinitialized asm s → Stripe.purge keepUntil s = Some s.
Proof.
  intros Hs.
  destruct (purge_reinitialized asm keepUntil s Hs) as (s' & Hp & Hs').
  rewrite Hp. f_equal.
  assert (Hfit : Inv.fits s).
  { by destruct (reinitialized_inv asm s Hs) as (_ & _ & _ & _ & _ & ?%I6_fits). }
  destruct (purge_shape _ _ _ Hfit Hp) as (_ & _ & Hroom).
  destruct Hs as (Hm & Ho & Hr & Ha & Hv), Hs' as (Hm' & Ho' & Hr' & Ha' & Hv').
  apply stripe_eq; congruence.
Qed.

Lemma tracker_purge_reinitialized asm keepUntil c :
  Forall (reinitialized asm) (stripes c) → purge keepUntil c = Some c.
Proof.
  intros Hall. unfold purge.
  rewrite (mapM_ext_Forall _ Some).
  - rewrite (mapM_fmap_total Some id) by done.
    simpl. rewrite list_fmap_id. by destruct c.
  - eapply Forall_impl; [exact Hall|]. intros s Hs.
    by eapply purge_reinitialized_id.
Qed.

Lemma newStripes_replicate asm n :
  newStripes n asm
  = Some (replicate n
            (Stripe.mk asm 0 ∅ 0
               (slice.mk (replicate (length (MatcherNames asm)) 0)
                  (replicate (length (MatcherNames asm)) 0)))).
Proof.
  induction n as [|n IH]; simpl; [done|].
  rewrite resizeAndClear_owned, IH. simpl. do 4 f_equal.
  unfold slice.cap. simpl. case_decide; [done|].
  by replace (length (MatcherNames asm)) with 0%nat by lia.
Qed.

Lemma stored_touched Hash c series s now :
  stripes c !! stripeID (Hash series) = Some s →
  touched series now (Stripe.chain s (Hash series))
  = match stored Hash c series with
    | Some prev => bool_decide (prev < now)
    | None => true
    end.
Proof.
  intros Hs. rewrite stored_foundEntry, Hs. simpl. unfold touched.
  by destruct (foundEntry _ _).
Qed.

(** * A tracker with entries *)

Lemma twoChains_inv : stripeInv Ex.twoChains.
Proof.
  split.
  { unfold Inv.I1. vm_compute. reflexivity. }
  split.
  { intros [|i] a Hi; [|done]. injection Hi as <-. vm_compute. reflexivity. }
  split.
  { right. unfold Inv.entries, entriesOf.
    apply (bool_decide_unpack _). vm_compute. exact I. }
  split.
  { unfold Inv.I4. apply (bool_decide_unpack _). vm_compute. exact I. }
  split.
  { unfold Inv.I5. apply (bool_decide_unpack _). vm_compute. exact I. }
  split; [reflexivity|].
  unfold Inv.entries, entriesOf.
  apply (bool_decide_unpack _). vm_compute. exact I.
Qed.

Lemma emptyStripe_inv : stripeInv Ex.emptyStripe.
Proof. apply (reinitialized_inv Ex.onlyA), emptyStripe_reinitialized. Qed.

Lemma busyTracker_inv : Forall stripeInv (stripes Ex2.busyTracker).
Proof.
  apply Forall_insert; [|apply twoChains_inv].
  apply Forall_replicate, emptyStripe_inv.
Qed.

Lemma busyTracker_wf : wf Ex2.busyTracker.
Proof.
  split; [vm_compute; reflexivity|].
  unfold wfStripes, Ex2.busyTracker. cbn [stripes matchers].
  apply Forall_insert.
  - apply Forall_replicate. split; [|done].
    by destruct emptyStripe_inv as (_ & _ & _ & _ & _ & ?).
  - split; [|done]. by destruct twoChains_inv as (_ & _ & _ & _ & _ & ?).
Qed.

Lemma newTracker_reachable Hash asm idleTimeout :
  ∃ c, NewActiveSeries asm idleTimeout = Some c ∧ reachable Hash c ∧
       timeout c = idleTimeout ∧ matchers c = asm.
Proof.
  destruct (NewActiveSeries_spec asm idleTimeout) as (ss & H0 & _).
  eexists. split; [exact H0|]. split; [exact (reach_new _ _ _ _ H0)|].
  split; reflexivity.
Qed.

Lemma updated_reachable Hash c series now :
  reachable Hash c →
  ∃ c', UpdateSeries Hash series now id c = Some c' ∧ reachable Hash c' ∧
        timeout c' = timeout c ∧ matchers c' = matchers c.
Proof.
  intros Hr. destruct (reachable_invariants _ _ Hr) as [Hwf _].
  destruct (UpdateSeries_total Hash series now id c Hwf) as [c' Hc'].
  exists c'. split; [done|]. split; [exact (reach_update Hash c series now id c' Hr eq_refl Hc')|].
  by apply UpdateSeries_inv in Hc' as (s & s' & _ & _ & ->).
Qed.

Lemma updateAll_total Hash copy calls : ∀ c,
  wf c → ∃ c', updateAll Hash copy calls c = Some c' ∧ wf c'.
Proof.
  unfold updateAll.
  induction calls as [|[series now] calls IH]; intros c Hwf.
  - by exists c.
  - destruct (UpdateSeries_total Hash series now copy c Hwf) as [c1 H1].
    destruct (IH c1 (UpdateSeries_wf _ _ _ _ _ _ Hwf H1)) as (c' & Hc' & Hwf').
    exists c'. split; [|done]. rewrite forEach_cons. simpl. by rewrite H1.
Qed.

(** * More properties of the code *)

(** X1: purging a stripe again, at a cut-off that is not after the one of
    the purge before, changes nothing: the second [purge] returns the stripe
    as the first one left it. *)
Theorem purge_settled (s s1 : Stripe.activeSeriesStripe) (t1 t2 : Z) :
  Inv.fits s → time.UnixNano t2 ≤ time.UnixNano t1 →
  Stripe.purge t1 s = Some s1 → Stripe.purge t2 s1 = Some s1.
Proof.
  intros Hfit Hle Hp. rewrite purge_cases in Hp by done. injection Hp as <-.
  destruct (Stripe.nothingToDo (time.UnixNano t1) s) eqn:H1.
  - rewrite purge_cases by done.
    by rewrite (nothingToDo_le _ _ _ Hle H1).
  - rewrite purge_cases by (by apply fits_purged).
    destruct (Stripe.nothingToDo _ (purged _ s)); [done|]. f_equal.
    apply purged_stable. eapply Forall_impl; [apply kept_Forall|].
    simpl. intros. lia.
Qed.

(** X2: two purges of a stripe in a row, the second at a later cut-off,
    leave the stripe that the second one alone leaves. *)
Theorem purge_twice (s : Stripe.activeSeriesStripe) (t1 t2 : Z) :
  Inv.fits s → time.UnixNano t1 ≤ time.UnixNano t2 →
  Stripe.purge t1 s ≫= Stripe.purge t2 = Stripe.purge t2 s.
Proof.
  intros Hfit Hle. rewrite (purge_cases t1), (purge_cases t2 s) by done. simpl.
  destruct (Stripe.nothingToDo (time.UnixNano t2) s) eqn:H2.
  - rewrite (nothingToDo_le _ _ _ Hle H2). by rewrite purge_cases, H2.
  - destruct (Stripe.nothingToDo (time.UnixNano t1) s) eqn:H1.
    + by rewrite purge_cases, H2.
    + rewrite purge_cases by (by apply fits_purged).
      destruct (Stripe.nothingToDo _ (purged _ s)) eqn:H3; f_equal.
      * apply purged_ext. intros e He. split; [|lia]. intros Hk1.
        apply nothingToDo_true in H3 as [Hpos Hk2]. simpl in *.
        unfold storedOldest in *. case_decide; [lia|].
        pose proof (minNanos_lower MaxInt64
                      (kept (time.UnixNano t1) (Inv.entries s))) as Hlow.
        rewrite Forall_forall in Hlow.
        specialize (Hlow e). rewrite elem_of_kept in Hlow.
        specialize (Hlow (conj He Hk1)). lia.
      * by apply purged_purged.
Qed.

(** X3: [Active] called again at the same clock reading returns the same
    total, vector and flag, and leaves the tracker as the first call left
    it. *)
Theorem Active_again (c c1 : ActiveSeries) (clock : Z)
    (r : Z * slice.t * bool) :
  Forall Inv.fits (stripes c) →
  Active clock c = Some (c1, r) → Active clock c1 = Some (c1, r).
Proof.
  intros Hfit Ha. unfold Active in *.
  destruct (purge (purgeTime clock c) c) as [c'|] eqn:Hp; simpl in Ha; [|done].
  assert (Ht : purgeTime clock c' = purgeTime clock c).
  { unfold purgeTime. by apply tracker_purge_inv in Hp as (_ & _ & -> & _). }
  pose proof (tracker_purge_settled _ _ _ Hfit Hp) as Hp'.
  assert (c' = c1) as ->.
  { destruct (resizeAndClear _ _) as [tm0|]; simpl in Ha; [|done].
    destruct (forEach addStripe _ _) as [[t m]|]; simpl in Ha; [|done].
    by injection Ha as -> _. }
  rewrite Ht, Hp'. simpl. exact Ha.
Qed.

(** X4: [Active] reports the entries that are not older than its cut-off:
    the total is their number, counter [j] of the vector the number of those
    whose [matches[j]] is true, and they are the entries that the tracker
    holds afterwards. *)
Theorem Active_counts_live (c : ActiveSeries) (clock : Z) :
  wfStripes c → Forall (λ s, Inv.I1 s ∧ Inv.I2 s ∧ Inv.I3 s) (stripes c) →
  ∃ c' totalMatching valid,
    Active clock c
    = Some (c', (Z.of_nat
                   (length (filter (λ e, time.UnixNano (purgeTime clock c)
                                         ≤ nanos e) (allEntries c))),
                 totalMatching, valid)) ∧
    slice.vals totalMatching
    = (λ j, hits j (filter (λ e, time.UnixNano (purgeTime clock c) ≤ nanos e)
                      (allEntries c)))
        <$> seq 0 (length (MatcherNames (matchers c))) ∧
    allEntries c'
    ≡ₚ filter (λ e, time.UnixNano (purgeTime clock c) ≤ nanos e) (allEntries c).
Proof.
  intros Hws Hinv.
  destruct (Active_live clock c Hws Hinv) as (c' & tm & Ha & Hv & Hall & _).
  by exists c', tm, (time.After (purgeTime clock c) (lastMatchersUpdate c)).
Qed.

(** X5: [Active] forgets exactly the series whose timestamp is before its
    cut-off: afterwards a series has the timestamp it had when that is not
    before the cut-off, and no entry otherwise. *)
Theorem Active_forgets (Hash : list (string * string) → N)
    (c c' : ActiveSeries) (clock : Z) (r : Z * slice.t * bool)
    (series : list (string * string)) :
  Forall (λ s, Inv.I3 s ∧ Inv.I4 s ∧ Inv.I5 s ∧ Inv.fits s) (stripes c) →
  Active clock c = Some (c', r) →
  stored Hash c' series
  = survives (time.UnixNano (purgeTime clock c)) (stored Hash c series).
Proof.
  intros Hinv Ha. destruct r as [[total tm] valid].
  apply Active_inv in Ha as ((_ & _ & _ & H2)%tracker_purge_inv & _).
  rewrite !stored_foundEntry.
  destruct (stripes c !! stripeID (Hash series)) as [s|] eqn:Hs.
  - destruct (Forall2_lookup_l _ _ _ _ _ H2 Hs) as (s' & Hs' & Hp).
    rewrite Hs'. simpl.
    rewrite Forall_forall in Hinv.
    destruct (Hinv s) as (H3 & H4 & H5 & Hfit);
      [by eapply list_elem_of_lookup_2|].
    rewrite (purge_chain _ _ _ _ H3 H4 Hfit Hp).
    apply foundEntry_kept. unfold Stripe.chain.
    destruct (Stripe.refs s !! Hash series) as [es|] eqn:Hes; simpl;
      [by apply (H5 (Hash series) es)|constructor].
  - apply lookup_ge_None in Hs.
    rewrite (Forall2_length _ _ _ H2) in Hs.
    by rewrite (proj2 (lookup_ge_None _ _) Hs).
Qed.

(** X6: [UpdateSeries] of one series leaves the timestamp of every other
    series as it is, also of a series with the same hash. *)
Theorem UpdateSeries_frame (Hash : list (string * string) → N)
    (c c' : ActiveSeries) (series other : list (string * string)) (now : Z)
    (labelsCopy : list (string * string) → list (string * string)) :
  other ≠ series → other ≠ labelsCopy series →
  UpdateSeries Hash series now labelsCopy c = Some c' →
  stored Hash c' other = stored Hash c other.
Proof.
  intros Hne Hnc (s & s' & Hs & Hu & ->)%UpdateSeries_inv.
  rewrite !stored_foundEntry. simpl.
  destruct (decide (stripeID (Hash other) = stripeID (Hash series))) as [Hid|Hid].
  - rewrite Hid, Hs, list_lookup_insert_eq by (by eapply lookup_lt_Some).
    simpl. by rewrite (update_foundEntry_other _ _ _ _ _ _ _ _ Hu Hne Hnc).
  - by rewrite list_lookup_insert_ne.
Qed.

(** X7: [UpdateSeries] adds one to the sum of the [active] counters, and to
    the sum of the counters of each matcher that matches the series, when
    the series has no entry, and leaves all of them as they are when it has
    one. *)
Theorem UpdateSeries_counters (Hash : list (string * string) → N)
    (c c' : ActiveSeries) (series : list (string * string)) (now : Z)
    (labelsCopy : list (string * string) → list (string * string)) :
  wfStripes c →
  UpdateSeries Hash series now labelsCopy c = Some c' →
  sumActive (stripes c')
  = sumActive (stripes c) + (if stored Hash c series is Some _ then 0 else 1) ∧
  ∀ j, sumMatching j (stripes c')
       = sumMatching j (stripes c)
         + (if stored Hash c series is Some _ then 0
            else tally (Matches (matchers c) series) j).
Proof.
  intros Hws (s & s' & Hs & Hu & ->)%UpdateSeries_inv. simpl.
  unfold wfStripes in Hws. rewrite Forall_forall in Hws.
  destruct (Hws s) as [H6 Hm]; [by eapply list_elem_of_lookup_2|].
  destruct (update_counters _ _ _ _ _ _ H6 Hu) as [Ha Hv].
  pose proof (stored_is_Some Hash c series s Hs) as Hst.
  assert (Hsame : ∀ x y : Z,
    (if stored Hash c series is Some _ then x else y)
    = (if lookupLabels series (Stripe.chain s (Hash series)) is Some _ then x else y)).
  { intros x y. destruct (stored Hash c series), (lookupLabels _ _); done. }
  split.
  - rewrite (sumActive_insert _ _ s) by done. rewrite Ha, Hsame. lia.
  - intros j. rewrite (sumMatching_insert _ _ _ s) by done.
    rewrite Hv, Hsame, Hm. lia.
Qed.

(** X8: two calls of [UpdateSeries] for series with different hashes give
    the same tracker in either order. *)
Theorem UpdateSeries_commute (Hash : list (string * string) → N)
    (c : ActiveSeries) (a b : list (string * string)) (ta tb : Z)
    (labelsCopy : list (string * string) → list (string * string)) :
  wf c → Hash a ≠ Hash b →
  UpdateSeries Hash a ta labelsCopy c ≫= UpdateSeries Hash b tb labelsCopy
  = UpdateSeries Hash b tb labelsCopy c ≫= UpdateSeries Hash a ta labelsCopy.
Proof.
  intros [Hlen Hws] Hne. unfold UpdateSeries.
  destruct (lookup_lt_is_Some_2 (stripes c) (stripeID (Hash a)))
    as [sa Hsa]; [rewrite Hlen; apply stripeID_lt|].
  destruct (lookup_lt_is_Some_2 (stripes c) (stripeID (Hash b)))
    as [sb Hsb]; [rewrite Hlen; apply stripeID_lt|].
  unfold wfStripes in Hws. rewrite Forall_forall in Hws.
  destruct (Hws sa) as [H6a _]; [by eapply list_elem_of_lookup_2|].
  destruct (Hws sb) as [H6b _]; [by eapply list_elem_of_lookup_2|].
  rewrite Hsa, Hsb. simpl.
  destruct (decide (stripeID (Hash a) = stripeID (Hash b))) as [Hid|Hid].
  - rewrite Hid in *. assert (sb = sa) as -> by congruence.
    pose proof (update_commute sa a b ta tb (Hash a) (Hash b) labelsCopy
                  H6a Hne) as Hc.
    destruct (Stripe.updateSeriesTimestamp ta a _ _ sa) as [s1|] eqn:H1;
      destruct (Stripe.updateSeriesTimestamp tb b _ _ sa) as [s2|] eqn:H2;
      simpl in *.
    + rewrite !list_lookup_insert_eq by (by eapply lookup_lt_Some). simpl.
      rewrite <- Hc.
      destruct (Stripe.updateSeriesTimestamp tb b _ _ s1); simpl; [|done].
      by rewrite !list_insert_insert_eq.
    + rewrite list_lookup_insert_eq by (by eapply lookup_lt_Some). simpl.
      by rewrite Hc.
    + rewrite list_lookup_insert_eq by (by eapply lookup_lt_Some). simpl.
      by rewrite <- Hc.
    + done.
  - destruct (Stripe.updateSeriesTimestamp ta a _ _ sa) as [s1|] eqn:H1;
      destruct (Stripe.updateSeriesTimestamp tb b _ _ sb) as [s2|] eqn:H2;
      simpl.
    + rewrite !list_lookup_insert_ne by done. rewrite Hsa, Hsb. simpl.
      rewrite H1, H2. simpl. by rewrite list_insert_insert_ne.
    + rewrite list_lookup_insert_ne by done. rewrite Hsb. simpl.
      by rewrite H2.
    + rewrite list_lookup_insert_ne by done. rewrite Hsa. simpl.
      by rewrite H1.
    + done.
Qed.

(** X9: [clear] never fails, whatever the tracker holds: it leaves every
    stripe without entries, with [active] 0, the hint 0 and its
    [activeMatching] zeroed in place, of the length and the capacity it had,
    and it keeps the matchers and the time of the last reload. *)
Theorem clear_spec (c : ActiveSeries) :
  Tracker.clear c
  = Some (mkActiveSeries
            ((λ s, Stripe.mk (Stripe.matchers s) 0 ∅ 0
                     (slice.mk
                        (replicate (slice.len (Stripe.activeMatching s)) 0)
                        (slice.room (Stripe.activeMatching s))))
               <$> stripes c)
            (matchers c) (lastMatchersUpdate c) (timeout c)).
Proof.
  unfold Tracker.clear.
  by rewrite (mapM_fmap_total _ _ _ stripe_clear_spec).
Qed.

(** X10: on a tracker whose stripes have the matchers of the tracker and
    counter slices of their length, [clear] is [ReloadMatchers] with the
    matchers that are loaded and the time of the last reload: [reinitialize]
    is more than [clear] only in the matchers and the size of the slices. *)
Theorem clear_is_reload (c : ActiveSeries) :
  Forall (λ s, Stripe.matchers s = matchers c ∧
               length (MatcherNames (Stripe.matchers s))
               = slice.len (Stripe.activeMatching s)) (stripes c) →
  Tracker.clear c = ReloadMatchers (matchers c) (lastMatchersUpdate c) c.
Proof.
  intros Hall. unfold Tracker.clear, ReloadMatchers.
  rewrite (mapM_ext_Forall StripeClear.clear
             (Stripe.reinitialize (matchers c))); [done|].
  eapply Forall_impl; [exact Hall|]. intros s [Hm Hn]. simpl.
  rewrite <- Hm. by apply stripe_clear_reinitialize.
Qed.

(** X11: the [purge] of a stripe takes from [active] the number of entries
    whose timestamp is before the cut-off, and from the counter of each
    matcher the number of those that it matches: the counters only
    decrease. *)
Theorem purge_takes_expired (s s' : Stripe.activeSeriesStripe) (keepUntil : Z) :
  Inv.I1 s → Inv.I2 s → Inv.I3 s → Inv.fits s →
  Stripe.purge keepUntil s = Some s' →
  Stripe.active s'
  = Stripe.active s
    - Z.of_nat (length (filter (λ e, nanos e < time.UnixNano keepUntil)
                          (Inv.entries s))) ∧
  ∀ j a', slice.vals (Stripe.activeMatching s') !! j = Some a' →
    ∃ a, slice.vals (Stripe.activeMatching s) !! j = Some a ∧
         a' = a - hits j (filter (λ e, nanos e < time.UnixNano keepUntil)
                            (Inv.entries s)) ∧
         0 ≤ a' ≤ a.
Proof.
  intros H1 H2 H3 Hfit Hp.
  destruct (purge_I1_I2 _ _ _ H1 H2 Hfit Hp) as [H1' H2'].
  pose proof (purge_entries _ _ _ H3 Hfit Hp) as He.
  destruct (purge_shape _ _ _ Hfit Hp) as (_ & Hl & _).
  split.
  - rewrite H1', H1, He.
    pose proof (length_kept_expired (time.UnixNano keepUntil) (Inv.entries s)).
    lia.
  - intros j a' Hj.
    destruct (lookup_lt_is_Some_2 (slice.vals (Stripe.activeMatching s)) j)
      as [a Ha].
    { apply lookup_lt_Some in Hj. unfold slice.len in Hl. lia. }
    exists a. split; [done|].
    rewrite (H2' _ _ Hj), (H2 _ _ Ha), (hits_perm _ _ _ He).
    pose proof (hits_kept_expired j (time.UnixNano keepUntil) (Inv.entries s)).
    assert (0 ≤ hits j (kept (time.UnixNano keepUntil) (Inv.entries s)))
      by (unfold hits; lia).
    assert (0 ≤ hits j (filter (λ e, nanos e < time.UnixNano keepUntil)
                          (Inv.entries s))) by (unfold hits; lia).
    lia.
Qed.

(** X12: calls of [resizeAndClear] with lengths within the capacity of the
    slice, each on the result of the one before, all succeed and allocate
    nothing: the last result is on the array of the first slice, with its
    capacity, and no other array of the heap is written. *)
Theorem resizeAndClear_reuses (ls : list nat) (prev : mem.slice)
    (h : gmap nat (list Z)) :
  mem.valid prev h → Forall (λ l, (l ≤ mem.cap prev)%nat) ls →
  ∃ r h',
    forEach (λ l (ph : mem.slice * gmap nat (list Z)),
               mem.resizeAndClear l ph.1 ph.2) ls (prev, h)
    = Some (r, h') ∧
    mem.valid r h' ∧ mem.arr r = mem.arr prev ∧ mem.cap r = mem.cap prev ∧
    mem.len r = default (mem.len prev) (last ls) ∧
    dom h' = dom h ∧ ∀ b, mem.arr prev ≠ Some b → h' !! b = h !! b.
Proof.
  intros Hv Hall. revert prev h Hv Hall.
  induction ls as [|l ls IH]; intros prev h Hv Hall.
  - exists prev, h. split; [done|]. split; [done|]. done.
  - inversion Hall as [|?? Hl Hls]; subst.
    destruct (mem_resizeAndClear_fits l prev h Hv Hl)
      as (r1 & h1 & H1 & Hv1 & Ha1 & Hc1 & Hl1 & Hd1 & Ho1).
    rewrite forEach_cons. simpl. rewrite H1. simpl.
    destruct (IH r1 h1 Hv1) as (r & h' & Hr & Hv' & Ha & Hc & Hlen & Hd & Ho).
    { by rewrite Hc1. }
    exists r, h'. split; [done|]. split; [done|]. split; [congruence|].
    split; [congruence|]. split.
    { rewrite Hlen, Hl1, last_cons. by destruct (last ls). }
    split; [congruence|]. intros b Hb. rewrite Ho by congruence. by apply Ho1.
Qed.

(** X13: the vector that [Active] returns has one counter for each name of
    [CurrentMatcherNames], and each counter is between 0 and the total. *)
Theorem Active_vector_bounds (c c' : ActiveSeries) (clock total : Z)
    (totalMatching : slice.t) (valid : bool) :
  wfStripes c → Forall (λ s, Inv.I1 s ∧ Inv.I2 s ∧ Inv.I3 s) (stripes c) →
  Active clock c = Some (c', (total, totalMatching, valid)) →
  Tracker.CurrentMatcherNames c' = Tracker.CurrentMatcherNames c ∧
  slice.len totalMatching = length (Tracker.CurrentMatcherNames c') ∧
  Forall (λ a, 0 ≤ a ≤ total) (slice.vals totalMatching).
Proof.
  intros Hws Hinv Ha.
  destruct (Active_live clock c Hws Hinv) as (c1 & tm & Ha1 & Hv & _ & Hp).
  rewrite Ha1 in Ha. injection Ha as <- <- <- _.
  apply tracker_purge_inv in Hp as (Hm & _).
  unfold Tracker.CurrentMatcherNames, slice.len. rewrite Hm, Hv.
  split; [done|]. split; [by rewrite length_fmap, length_seq|].
  apply Forall_fmap, Forall_forall. intros j _. simpl. apply hits_le_length.
Qed.

(** X14: [UpdateSeries] calls do not touch the time of the last reload: an
    [Active] call that follows a [ReloadMatchers] at time [t] and a run of
    updates returns true as its flag exactly when [t] is before its
    cut-off. *)
Theorem valid_after_reload (Hash : list (string * string) → N)
    (labelsCopy : list (string * string) → list (string * string))
    (asm : list (string * (list (string * string) → bool)))
    (calls : list (list (string * string) * Z))
    (c c1 c2 c3 : ActiveSeries) (t clock total : Z) (totalMatching : slice.t)
    (valid : bool) :
  ReloadMatchers asm t c = Some c1 →
  updateAll Hash labelsCopy calls c1 = Some c2 →
  Active clock c2 = Some (c3, (total, totalMatching, valid)) →
  (valid = true ↔ t < time.Add clock (time.neg (timeout c))) ∧
  Tracker.CurrentMatcherNames c3 = MatcherNames asm.
Proof.
  intros Hr Hu Ha.
  destruct (ReloadMatchers_spec asm t c) as (ss & Hr' & _).
  rewrite Hr' in Hr. injection Hr as <-.
  apply updateAll_fields in Hu as (Hm & Hl & Ht & _). simpl in *.
  apply Active_inv in Ha as (Hp & _ & ->).
  apply tracker_purge_inv in Hp as (Hm3 & _).
  unfold Tracker.CurrentMatcherNames, purgeTime, time.After.
  rewrite Hm3, Hm, Hl, Ht. by rewrite bool_decide_eq_true.
Qed.

(** X15: [findEntryForSeries] returns the first entry of the chain of the
    fingerprint whose labels are those of the series, and nothing exactly
    when the chain has no entry with these labels. *)
Theorem findEntryForSeries_first (s : Stripe.activeSeriesStripe)
    (fingerprint : N) (series : list (string * string)) :
  match Stripe.findEntryForSeries fingerprint series s with
  | Some i =>
      ∃ e, Stripe.chain s fingerprint !! i = Some e ∧ lbs e = series ∧
           Stripe.load s fingerprint i = Some (nanos e) ∧
           ∀ j e', (j < i)%nat → Stripe.chain s fingerprint !! j = Some e' →
                   lbs e' ≠ series
  | None => ∀ e, e ∈ Stripe.chain s fingerprint → lbs e ≠ series
  end.
Proof.
  unfold Stripe.findEntryForSeries, Stripe.load.
  destruct (lookupLabels series (Stripe.chain s fingerprint)) as [i|] eqn:Hl.
  - destruct (lookupLabels_Some _ _ _ Hl) as (e & He & Hlbs).
    exists e. split; [done|]. split; [done|]. split; [by rewrite He|].
    by apply lookupLabels_first.
  - apply lookupLabels_None in Hl. intros e He Heq. apply Hl.
    apply list_elem_of_fmap. by exists e.
Qed.

(** X16: the filter loop of [purge] over a collision chain ends within as
    many iterations as the chain has entries: it returns the entries that
    are not before the cut-off, in their order, and the least of their
    timestamps and the value of [oldest] it starts from. *)
Theorem purgeChain_filters (fuel : nat) (keepUntilNanos : Z)
    (entries : list activeSeriesEntry) (oldest : Z) :
  (length entries ≤ fuel)%nat →
  Stripe.purgeChain fuel keepUntilNanos 0 entries oldest
  = (filter (λ e, keepUntilNanos ≤ nanos e) entries,
     foldr (λ e acc, Z.min (nanos e) acc) oldest
       (filter (λ e, keepUntilNanos ≤ nanos e) entries)).
Proof.
  intros Hn. by rewrite (purgeChain_fuel keepUntilNanos fuel 0 entries oldest).
Qed.

(** X17: the shortcut of [purge] for a chain of one entry does what the
    loop for collision chains would do with this chain. *)
Theorem purge_shortcut (keepUntilNanos : Z) (fp : N)
    (entries : list activeSeriesEntry) (st : Stripe.purgeState) :
  Stripe.p_refs st !! fp = Some entries → length entries = 1%nat →
  Stripe.purgeStep keepUntilNanos (fp, entries) st
  = purgeCollision keepUntilNanos (fp, entries) st.
Proof.
  intros Hfp Hlen. destruct entries as [|e [|??]]; try done.
  unfold Stripe.purgeStep, purgeCollision. simpl.
  destruct (decide (nanos e < keepUntilNanos)); simpl; [done|].
  destruct (addMatches 0 (matches e) (Stripe.p_matching st)); simpl; [|done].
  by rewrite insert_id.
Qed.

(** X18: a tracker that calls of [NewActiveSeries], [UpdateSeries], [Active]
    and [ReloadMatchers] produce has its 512 stripes, all on the matchers of
    the tracker, and the six invariants hold in each of them; on such a
    tracker no call of [UpdateSeries] or [Active] indexes a slice out of
    range. *)
Theorem reachable_safe (Hash : list (string * string) → N) (c : ActiveSeries) :
  reachable Hash c →
  length (stripes c) = numActiveSeriesStripes ∧
  Forall (λ s, Stripe.matchers s = matchers c ∧ stripeInv s) (stripes c) ∧
  (∀ series now labelsCopy,
     is_Some (UpdateSeries Hash series now labelsCopy c)) ∧
  (∀ clock, is_Some (Active clock c)).
Proof.
  intros [[Hlen Hws] Hinv]%reachable_invariants.
  split; [done|]. split.
  { unfold wfStripes in Hws. rewrite Forall_forall in Hws.
    rewrite Forall_forall in Hinv.
    apply Forall_forall. intros s Hs. split; [by apply Hws|by apply Hinv]. }
  split.
  - intros series now copy. by apply UpdateSeries_total.
  - intros clock. destruct (Active_spec clock c Hws) as (c' & tm & -> & _).
    by eexists.
Qed.

(** X19: in a tracker that calls of the public methods produce, no two
    entries have the same labels; every entry is the one that
    [findEntryForSeries] returns for its labels in the stripe of their hash,
    and its [matches] vector is the one the matchers of the tracker give for
    its labels.  The timestamps that the tracker holds are those of its
    entries. *)
Theorem reachable_entries (Hash : list (string * string) → N)
    (c : ActiveSeries) :
  reachable Hash c →
  NoDup (lbs <$> allEntries c) ∧
  (∀ e, e ∈ allEntries c →
        stored Hash c (lbs e) = Some (nanos e) ∧
        matches e = Matches (matchers c) (lbs e)) ∧
  (∀ series ts, stored Hash c series = Some ts ↔
                ∃ e, e ∈ allEntries c ∧ lbs e = series ∧ nanos e = ts).
Proof.
  intros Hr. destruct (reachable_Rep _ _ Hr) as (_ & _ & Hpl & Hnd & _).
  destruct (reachable_invariants _ _ Hr) as [_ Hinv].
  assert (Hhome : ∀ e, e ∈ allEntries c →
            stored Hash c (lbs e) = Some (nanos e) ∧
            matches e = Matches (matchers c) (lbs e)).
  { intros e He. unfold allEntries in He.
    apply list_elem_of_bind in He as (s & He & Hs).
    apply list_elem_of_lookup in Hs as [sid Hsid].
    apply elem_of_entriesOf in He as (fp & es & Hes & Hin).
    destruct (Hpl _ _ _ _ Hsid Hes) as [-> Hall].
    rewrite Forall_forall in Hall. rewrite Forall_forall in Hinv.
    destruct (Hall e Hin) as (Hfp & Hm & _). split; [|done].
    destruct (Hinv s) as (_ & _ & _ & _ & H5 & _);
      [by eapply list_elem_of_lookup_2|].
    rewrite stored_foundEntry, Hfp, Hsid. simpl.
    unfold Stripe.chain. rewrite Hes. simpl.
    by rewrite (foundEntry_self es e (H5 _ _ Hes) Hin). }
  split; [done|]. split; [done|]. intros series ts. split.
  - apply stored_entry.
  - intros (e & He & <- & <-). by apply Hhome.
Qed.

(** X20: [getTotalAndUpdateMatching] returns the [active] counter of the
    stripe and adds the counters of the stripe to the vector it is given,
    index by index, when the vector is at least as long as
    [activeMatching]; on a shorter vector it indexes out of range. *)
Theorem getTotalAndUpdateMatching_range (s : Stripe.activeSeriesStripe)
    (matching : slice.t) :
  ((slice.len (Stripe.activeMatching s) ≤ slice.len matching)%nat →
   ∃ matching',
     Stripe.getTotalAndUpdateMatching s matching
     = Some (Stripe.active s, matching') ∧
     slice.len matching' = slice.len matching ∧
     ∀ j, slice.vals matching' !! j
          = (λ v, v + default 0 (slice.vals (Stripe.activeMatching s) !! j))
              <$> slice.vals matching !! j) ∧
  ((slice.len matching < slice.len (Stripe.activeMatching s))%nat →
   Stripe.getTotalAndUpdateMatching s matching = None).
Proof.
  split.
  - intros Hle.
    destruct (getTotal_spec s matching Hle) as (m' & Hm' & _ & Hl & Hv).
    by exists m'.
  - apply getTotal_short.
Qed.

(** X21: an update keeps a series for the timeout: when [Active] runs after
    an [UpdateSeries] of a series with a cut-off that is not after the time
    of the update, the tracker still holds the series, with a timestamp that
    is not before the time of the update; and a series whose timestamp is
    before the cut-off is held no more. *)
Theorem update_keeps_active (Hash : list (string * string) → N)
    (c c1 c2 : ActiveSeries) (series : list (string * string)) (now clock : Z)
    (labelsCopy : list (string * string) → list (string * string))
    (r : Z * slice.t * bool) :
  reachable Hash c → labelsCopy series = series →
  UpdateSeries Hash series now labelsCopy c = Some c1 →
  Active clock c1 = Some (c2, r) →
  (time.UnixNano (purgeTime clock c) ≤ time.UnixNano now →
   ∃ ts, stored Hash c2 series = Some ts ∧ time.UnixNano now ≤ ts) ∧
  (∀ ts, stored Hash c1 series = Some ts →
         ts < time.UnixNano (purgeTime clock c) →
         stored Hash c2 series = None).
Proof.
  intros Hr Hcopy Hu Ha.
  assert (Hr1 : reachable Hash c1) by (by eapply reach_update).
  destruct (reachable_invariants _ _ Hr1) as [[_ Hws] Hinv].
  assert (Ht : purgeTime clock c1 = purgeTime clock c).
  { apply UpdateSeries_inv in Hu as (s & s' & _ & _ & ->). done. }
  assert (Hst : stored Hash c2 series
                = survives (time.UnixNano (purgeTime clock c))
                    (stored Hash c1 series)).
  { rewrite <- Ht. eapply Active_stored; [|exact Ha].
    eapply Forall_impl; [exact Hinv|].
    intros s (_ & _ & ? & ? & ? & ?). by auto using I6_fits. }
  rewrite Hst. split.
  - intros HK.
    destruct (UpdateSeries_stored Hash c series now labelsCopy c1 Hcopy Hu)
      as (ts & Hts & Hle).
    exists ts. rewrite Hts. simpl. rewrite decide_True by lia. done.
  - intros ts Hts Hlt. rewrite Hts. simpl. by rewrite decide_False by lia.
Qed.

(** X22: [NewActiveSeries] returns a tracker of 512 equal stripes, each
    without entries, with the matchers given and a zeroed [activeMatching]
    of one counter for each matcher and twice that capacity; the time of the
    last reload is the zero time.  An [Active] call on it changes nothing
    and returns a total of 0 and a zero vector. *)
Theorem NewActiveSeries_fresh
    (asm : list (string * (list (string * string) → bool)))
    (idleTimeout clock : Z) :
  ∃ c totalMatching,
    NewActiveSeries asm idleTimeout = Some c ∧
    c = mkActiveSeries
          (replicate numActiveSeriesStripes
             (Stripe.mk asm 0 ∅ 0
                (slice.mk (replicate (length (MatcherNames asm)) 0)
                   (replicate (length (MatcherNames asm)) 0))))
          asm time.zero idleTimeout ∧
    Active clock c
    = Some (c, (0, totalMatching,
                time.After (time.Add clock (time.neg idleTimeout)) time.zero)) ∧
    slice.vals totalMatching = replicate (length (MatcherNames asm)) 0.
Proof.
  set (c := mkActiveSeries
              (replicate numActiveSeriesStripes
                 (Stripe.mk asm 0 ∅ 0
                    (slice.mk (replicate (length (MatcherNames asm)) 0)
                       (replicate (length (MatcherNames asm)) 0))))
              asm time.zero idleTimeout).
  assert (Hall : Forall (reinitialized asm) (stripes c)).
  { apply Forall_replicate. by repeat split. }
  assert (Hws : wfStripes c).
  { apply (reinitialized_wf _ asm time.zero idleTimeout);
      [apply length_replicate|done]. }
  destruct (Active_spec clock c Hws) as (c' & tm & Ha & Hp & _ & Hv).
  rewrite (tracker_purge_reinitialized asm _ c Hall) in Hp.
  injection Hp as <-.
  exists c, tm. split.
  { unfold NewActiveSeries. by rewrite newStripes_replicate. }
  split; [done|]. split.
  - rewrite Ha. by rewrite (sumActive_reinitialized asm).
  - rewrite Hv. change (matchers c) with asm.
    apply list_eq. intros j. rewrite list_lookup_fmap.
    destruct (decide (j < length (MatcherNames asm))%nat).
    + rewrite lookup_replicate_2, lookup_seq_lt by done.
      cbn [fmap option_fmap option_map Nat.add].
      by rewrite (sumMatching_reinitialized asm).
    + rewrite (proj1 (lookup_replicate_None _ _ _)) by lia.
      by rewrite lookup_seq_ge by lia.
Qed.

(** X23: [UpdateSeries] leaves the hint of the stripe of the series as it
    is, or sets it to 0: to 0 exactly when it writes a timestamp, for a new
    entry or one whose timestamp is before the time of the update, and this
    time is before the hint. *)
Theorem UpdateSeries_hint (Hash : list (string * string) → N)
    (c c' : ActiveSeries) (series : list (string * string)) (now : Z)
    (labelsCopy : list (string * string) → list (string * string)) :
  UpdateSeries Hash series now labelsCopy c = Some c' →
  ∃ hint,
    hintOf Hash c series = Some hint ∧
    hintOf Hash c' series
    = Some (if match stored Hash c series with
               | Some prev => bool_decide (prev < time.UnixNano now)
               | None => true
               end && bool_decide (time.UnixNano now < hint)
            then 0 else hint).
Proof.
  intros (s & s' & Hs & Hu & ->)%UpdateSeries_inv.
  exists (Stripe.oldestEntryTs s). unfold hintOf. simpl. rewrite Hs.
  split; [done|].
  rewrite list_lookup_insert_eq by (by eapply lookup_lt_Some). simpl.
  apply update_fields in Hu as (_ & -> & _).
  by rewrite (stored_touched Hash c series s _ Hs).
Qed.

(** * The properties at concrete inputs *)

Lemma purge_settled_witness :
  ∃ s1, Stripe.purge 9 Ex.twoChains = Some s1 ∧ Stripe.purge 3 s1 = Some s1.
Proof.
  assert (Hfit : Inv.fits Ex.twoChains).
  { unfold Inv.fits. apply (bool_decide_unpack _). vm_compute. exact I. }
  destruct (purge_total 9 Ex.twoChains Hfit) as [s1 H1].
  exists s1. split; [exact H1|].
  apply (purge_settled Ex.twoChains s1 9 3 Hfit); [|exact H1].
  vm_compute. discriminate.
Defined.

Lemma purge_twice_witness :
  Stripe.purge 3 Ex.twoChains ≫= Stripe.purge 9 = Stripe.purge 9 Ex.twoChains.
Proof.
  apply (purge_twice Ex.twoChains 3 9).
  - unfold Inv.fits. apply (bool_decide_unpack _). vm_compute. exact I.
  - vm_compute. discriminate.
Defined.

Lemma Active_again_witness :
  ∃ c1 r, Active 19 Ex2.busyTracker = Some (c1, r) ∧
          Active 19 c1 = Some (c1, r).
Proof.
  destruct (Active_spec 19 Ex2.busyTracker (proj2 busyTracker_wf))
    as (c1 & tm & Ha & _).
  eexists c1, _. split; [exact Ha|].
  exact (Active_again Ex2.busyTracker c1 19 _
           (wfStripes_fits _ (proj2 busyTracker_wf)) Ha).
Defined.

Lemma Active_counts_live_witness :
  ∃ c' totalMatching valid,
    Active 19 Ex2.busyTracker
    = Some (c', (Z.of_nat
                   (length
                      (filter (λ e, time.UnixNano (purgeTime 19 Ex2.busyTracker)
                                    ≤ nanos e) (allEntries Ex2.busyTracker))),
                 totalMatching, valid)).
Proof.
  assert (Hinv : Forall (λ s, Inv.I1 s ∧ Inv.I2 s ∧ Inv.I3 s)
                   (stripes Ex2.busyTracker)).
  { eapply Forall_impl; [exact busyTracker_inv|].
    intros s (H1 & H2 & H3 & _). exact (conj H1 (conj H2 H3)). }
  destruct (Active_counts_live Ex2.busyTracker 19 (proj2 busyTracker_wf) Hinv)
    as (c' & tm & valid & Ha & _).
  exists c', tm, valid. exact Ha.
Defined.

Lemma Active_forgets_witness :
  ∃ c' r, Active 19 Ex2.busyTracker = Some (c', r) ∧
          stored Ex2.hash c' Ex.seriesA
          = survives (time.UnixNano (purgeTime 19 Ex2.busyTracker))
              (stored Ex2.hash Ex2.busyTracker Ex.seriesA).
Proof.
  assert (Hinv : Forall (λ s, Inv.I3 s ∧ Inv.I4 s ∧ Inv.I5 s ∧ Inv.fits s)
                   (stripes Ex2.busyTracker)).
  { eapply Forall_impl; [exact busyTracker_inv|].
    intros s (_ & _ & H3 & H4 & H5 & H6).
    exact (conj H3 (conj H4 (conj H5 (I6_fits _ H6)))). }
  destruct (Active_spec 19 Ex2.busyTracker (proj2 busyTracker_wf))
    as (c1 & tm & Ha & _).
  eexists c1, _. split; [exact Ha|].
  exact (Active_forgets Ex2.hash Ex2.busyTracker c1 19 _ Ex.seriesA Hinv Ha).
Defined.

Lemma UpdateSeries_frame_witness :
  ∃ c', UpdateSeries Ex2.hash Ex.seriesA 30 id Ex2.busyTracker = Some c' ∧
        stored Ex2.hash c' Ex.seriesB = stored Ex2.hash Ex2.busyTracker Ex.seriesB.
Proof.
  destruct (UpdateSeries_total Ex2.hash Ex.seriesA 30 id Ex2.busyTracker
              busyTracker_wf) as [c' Hc'].
  exists c'. split; [exact Hc'|].
  apply (UpdateSeries_frame Ex2.hash Ex2.busyTracker c' Ex.seriesA Ex.seriesB
           30 id); [discriminate|discriminate|exact Hc'].
Defined.

Lemma UpdateSeries_counters_witness :
  ∃ c', UpdateSeries Ex2.hash Ex2.seriesC 30 id Ex2.busyTracker = Some c' ∧
        sumActive (stripes c')
        = sumActive (stripes Ex2.busyTracker)
          + (if stored Ex2.hash Ex2.busyTracker Ex2.seriesC is Some _
             then 0 else 1).
Proof.
  destruct (UpdateSeries_total Ex2.hash Ex2.seriesC 30 id Ex2.busyTracker
              busyTracker_wf) as [c' Hc'].
  exists c'. split; [exact Hc'|].
  exact (proj1 (UpdateSeries_counters Ex2.hash Ex2.busyTracker c' Ex2.seriesC
                  30 id (proj2 busyTracker_wf) Hc')).
Defined.

Lemma UpdateSeries_commute_witness :
  UpdateSeries Ex2.hash Ex.seriesA 30 id Ex2.busyTracker
    ≫= UpdateSeries Ex2.hash [("x", "y")]%string 40 id
  = UpdateSeries Ex2.hash [("x", "y")]%string 40 id Ex2.busyTracker
    ≫= UpdateSeries Ex2.hash Ex.seriesA 30 id.
Proof.
  apply (UpdateSeries_commute Ex2.hash Ex2.busyTracker Ex.seriesA
           [("x", "y")]%string 30 40 id busyTracker_wf).
  vm_compute. discriminate.
Defined.

Lemma clear_is_reload_witness :
  Tracker.clear Ex2.busyTracker
  = ReloadMatchers (matchers Ex2.busyTracker)
      (lastMatchersUpdate Ex2.busyTracker) Ex2.busyTracker.
Proof.
  apply (clear_is_reload Ex2.busyTracker).
  eapply Forall_impl; [exact (proj2 busyTracker_wf)|].
  intros s [[Hn _] Hm]. exact (conj Hm Hn).
Defined.

Lemma purge_takes_expired_witness :
  ∃ s', Stripe.purge 9 Ex.twoChains = Some s' ∧
        Stripe.active s'
        = Stripe.active Ex.twoChains
          - Z.of_nat (length (filter (λ e, nanos e < time.UnixNano 9)
                                (Inv.entries Ex.twoChains))).
Proof.
  destruct twoChains_inv as (H1 & H2 & H3 & _ & _ & H6).
  destruct (purge_total 9 Ex.twoChains (I6_fits _ H6)) as [s' Hs'].
  exists s'. split; [exact Hs'|].
  exact (proj1 (purge_takes_expired Ex.twoChains s' 9 H1 H2 H3
                  (I6_fits _ H6) Hs')).
Defined.

Lemma resizeAndClear_reuses_witness :
  ∃ r h',
    forEach (λ l (ph : mem.slice * gmap nat (list Z)),
               mem.resizeAndClear l ph.1 ph.2) [2; 5; 0; 4]%nat
      (Ex.prev, Ex.heap)
    = Some (r, h') ∧
    mem.arr r = mem.arr Ex.prev ∧ dom h' = dom Ex.heap.
Proof.
  assert (Hv : mem.valid Ex.prev Ex.heap).
  { split; [simpl; lia|]. exists [1; 2; 3; 4; 5]. split; reflexivity. }
  destruct (resizeAndClear_reuses [2; 5; 0; 4]%nat Ex.prev Ex.heap Hv)
    as (r & h' & Hr & _ & Ha & _ & _ & Hd & _).
  { repeat constructor; simpl; lia. }
  exists r, h'. split; [exact Hr|]. split; [exact Ha|exact Hd].
Defined.

Lemma Active_vector_bounds_witness :
  ∃ c' total totalMatching valid,
    Active 19 Ex2.busyTracker = Some (c', (total, totalMatching, valid)) ∧
    slice.len totalMatching = length (Tracker.CurrentMatcherNames c') ∧
    Forall (λ a, 0 ≤ a ≤ total) (slice.vals totalMatching).
Proof.
  assert (Hinv : Forall (λ s, Inv.I1 s ∧ Inv.I2 s ∧ Inv.I3 s)
                   (stripes Ex2.busyTracker)).
  { eapply Forall_impl; [exact busyTracker_inv|].
    intros s (H1 & H2 & H3 & _). exact (conj H1 (conj H2 H3)). }
  destruct (Active_spec 19 Ex2.busyTracker (proj2 busyTracker_wf))
    as (c1 & tm & Ha & _).
  eexists c1, _, tm, _. split; [exact Ha|].
  exact (proj2 (Active_vector_bounds Ex2.busyTracker c1 19 _ tm _
                  (proj2 busyTracker_wf) Hinv Ha)).
Defined.

Lemma valid_after_reload_witness :
  ∃ c1 c2 c3 total totalMatching valid,
    ReloadMatchers Ex.onlyA 100 Ex2.busyTracker = Some c1 ∧
    updateAll Ex.hash id Ex.calls c1 = Some c2 ∧
    Active 200 c2 = Some (c3, (total, totalMatching, valid)) ∧
    (valid = true
     ↔ 100 < time.Add 200 (time.neg (timeout Ex2.busyTracker))).
Proof.
  destruct (ReloadMatchers_spec Ex.onlyA 100 Ex2.busyTracker)
    as (ss & H1 & Hl & Hall).
  assert (Hwf1 : wf (mkActiveSeries ss Ex.onlyA 100 (timeout Ex2.busyTracker))).
  { apply reinitialized_wf; [|exact Hall].
    rewrite Hl. exact (proj1 busyTracker_wf). }
  destruct (updateAll_total Ex.hash id Ex.calls _ Hwf1) as (c2 & H2 & Hwf2).
  destruct (Active_spec 200 c2 (proj2 Hwf2)) as (c3 & tm & H3 & _).
  eexists _, c2, c3, _, tm, _. split; [exact H1|]. split; [exact H2|].
  split; [exact H3|].
  exact (proj1 (valid_after_reload Ex.hash id Ex.onlyA Ex.calls
                  Ex2.busyTracker _ c2 c3 100 200 _ tm _ H1 H2 H3)).
Defined.

Lemma purgeChain_filters_witness :
  Stripe.purgeChain 3 9 0 (Stripe.chain Ex.twoChains 1) MaxInt64
  = (filter (λ e, 9 ≤ nanos e) (Stripe.chain Ex.twoChains 1),
     foldr (λ e acc, Z.min (nanos e) acc) MaxInt64
       (filter (λ e, 9 ≤ nanos e) (Stripe.chain Ex.twoChains 1))).
Proof.
  apply (purgeChain_filters 3 9 (Stripe.chain Ex.twoChains 1) MaxInt64).
  vm_compute. lia.
Defined.

Lemma purge_shortcut_witness :
  Stripe.purgeStep 9 (513%N, Stripe.chain Ex.twoChains 513)
    (Stripe.mkPurge (Stripe.refs Ex.twoChains) 0 (slice.mk [0] [0]) MaxInt64)
  = purgeCollision 9 (513%N, Stripe.chain Ex.twoChains 513)
      (Stripe.mkPurge (Stripe.refs Ex.twoChains) 0 (slice.mk [0] [0]) MaxInt64).
Proof.
  apply (purge_shortcut 9 513%N (Stripe.chain Ex.twoChains 513)
           (Stripe.mkPurge (Stripe.refs Ex.twoChains) 0 (slice.mk [0] [0])
              MaxInt64)); reflexivity.
Defined.

Lemma reachable_safe_witness :
  ∃ c0 c1, NewActiveSeries Ex.onlyA 10 = Some c0 ∧
           UpdateSeries Ex.hash Ex.seriesA 5 id c0 = Some c1 ∧
           ∀ clock, is_Some (Active clock c1).
Proof.
  destruct (newTracker_reachable Ex.hash Ex.onlyA 10) as (c0 & H0 & Hr0 & _).
  destruct (updated_reachable Ex.hash c0 Ex.seriesA 5 Hr0)
    as (c1 & H1 & Hr1 & _).
  exists c0, c1. split; [exact H0|]. split; [exact H1|].
  exact (proj2 (proj2 (proj2 (reachable_safe Ex.hash c1 Hr1)))).
Defined.

Lemma reachable_entries_witness :
  ∃ c0 c1 c2, NewActiveSeries Ex.onlyA 10 = Some c0 ∧
              UpdateSeries Ex.hash Ex.seriesA 5 id c0 = Some c1 ∧
              UpdateSeries Ex.hash Ex.seriesB 7 id c1 = Some c2 ∧
              NoDup (lbs <$> allEntries c2).
Proof.
  destruct (newTracker_reachable Ex.hash Ex.onlyA 10) as (c0 & H0 & Hr0 & _).
  destruct (updated_reachable Ex.hash c0 Ex.seriesA 5 Hr0)
    as (c1 & H1 & Hr1 & _).
  destruct (updated_reachable Ex.hash c1 Ex.seriesB 7 Hr1)
    as (c2 & H2 & Hr2 & _).
  exists c0, c1, c2. split; [exact H0|]. split; [exact H1|].
  split; [exact H2|].
  exact (proj1 (reachable_entries Ex.hash c2 Hr2)).
Defined.

Lemma getTotalAndUpdateMatching_range_witness :
  Stripe.getTotalAndUpdateMatching Ex.twoChains slice.nil = None.
Proof.
  apply (proj2 (getTotalAndUpdateMatching_range Ex.twoChains slice.nil)).
  vm_compute. lia.
Defined.

Lemma update_keeps_active_witness :
  ∃ c0 c1 c2 r ts,
    NewActiveSeries Ex.onlyA 10 = Some c0 ∧
    UpdateSeries Ex.hash Ex.seriesA 5 id c0 = Some c1 ∧
    Active 12 c1 = Some (c2, r) ∧
    stored Ex.hash c2 Ex.seriesA = Some ts ∧ time.UnixNano 5 ≤ ts.
Proof.
  destruct (newTracker_reachable Ex.hash Ex.onlyA 10)
    as (c0 & H0 & Hr0 & Ht0 & _).
  destruct (updated_reachable Ex.hash c0 Ex.seriesA 5 Hr0)
    as (c1 & H1 & Hr1 & _).
  destruct (reachable_invariants _ _ Hr1) as [[_ Hws] _].
  destruct (Active_spec 12 c1 Hws) as (c2 & tm & H2 & _).
  destruct (proj1 (update_keeps_active Ex.hash c0 c1 c2 Ex.seriesA 5 12 id _
                     Hr0 eq_refl H1 H2)) as (ts & Hts & Hle).
  { unfold purgeTime. rewrite Ht0. vm_compute. discriminate. }
  eexists c0, c1, c2, _, ts. split; [exact H0|]. split; [exact H1|].
  split; [exact H2|]. split; [exact Hts|exact Hle].
Defined.

Lemma UpdateSeries_hint_witness :
  ∃ c' hint,
    UpdateSeries Ex2.hash Ex2.seriesC 2 id Ex2.busyTracker = Some c' ∧
    hintOf Ex2.hash Ex2.busyTracker Ex2.seriesC = Some hint ∧
    hintOf Ex2.hash c' Ex2.seriesC
    = Some (if match stored Ex2.hash Ex2.busyTracker Ex2.seriesC with
               | Some prev => bool_decide (prev < time.UnixNano 2)
               | None => true
               end && bool_decide (time.UnixNano 2 < hint)
            then 0 else hint).
Proof.
  destruct (UpdateSeries_total Ex2.hash Ex2.seriesC 2 id Ex2.busyTracker
              busyTracker_wf) as [c' Hc'].
  destruct (UpdateSeries_hint Ex2.hash Ex2.busyTracker c' Ex2.seriesC 2 id Hc')
    as (hint & Hh & Hh').
  exists c', hint. split; [exact Hc'|]. split; [exact Hh|exact Hh'].
Defined.
